(** * Loop passes of llvm-tutor: SimpleLICM and DerivedInductionVars

    A shallow embedding of the two passes under [src/passes] and the
    properties their specification states about them.

    The passes work on LLVM's in-memory IR through LLVM's own classes.  The
    embedding keeps the part of that IR the passes read and write:
    - an [Instruction] is a record with a stable identity ([iid], the
      address of the C++ object), an opcode, a type and an operand list;
    - a [BasicBlock] is an ordered instruction list, a [Function] an ordered
      block list;
    - a [Loop] carries what [LoopInfo] answers about it.
    LLVM analyses that are not part of this repository (the dominator tree,
    scalar evolution, the SCEV expander, [mayReadOrWriteMemory],
    [isSafeToSpeculativelyExecute], the use lists, the iteration order of a
    [SmallPtrSet]) are the fields of a record of analyses each pass takes as
    a parameter: every theorem holds for whatever they answer, and the
    examples instantiate them on small graphs.

    The definitions come first: the graph, the two passes, the values of
    the synthesized instructions, dominance on concrete control-flow graphs
    and the example graphs.  The facts follow, pass by pass. *)

From Stdlib Require Import List Arith Bool ZArith Lia Permutation.
Import ListNotations.

Set Implicit Arguments.

(** ** The program graph *)

Module IR.

Definition InstId := nat.
Definition BlockId := nat.
Definition LoopId := nat.

(** An operand: another instruction, an integer constant, or any other
    value (argument, global, ...). *)
Inductive Value : Type :=
| VInst (i : InstId)
| VConstInt (z : Z)
| VOther (n : nat).

Inductive Opcode : Type :=
| PHI | Add | Mul | UDiv | ICmp | Load | Store | Call | Br | Ret.

Inductive Ty : Type :=
| IntegerTy (bits : nat)
| OtherTy.

Record Instruction : Type := mkInst {
  iid : InstId;
  opcode : Opcode;
  ty : Ty;
  operands : list Value
}.

Record BasicBlock : Type := mkBB {
  bid : BlockId;
  insts : list Instruction
}.

Definition Function := list BasicBlock.

(** What [LoopInfo] knows about a loop.  [preheader] is [None] when
    [getLoopPreheader()] returns null. *)
#[local] Unset Elimination Schemes.
Inductive Loop : Type :=
  mkLoop (lid : LoopId) (header : BlockId) (blocks : list BlockId)
         (preheader : option BlockId) (exitBlocks : list BlockId)
         (subLoops : list Loop).
#[local] Set Elimination Schemes.

Definition getLoopId (L : Loop) := let 'mkLoop l _ _ _ _ _ := L in l.
Definition getHeader (L : Loop) := let 'mkLoop _ h _ _ _ _ := L in h.
Definition getBlocks (L : Loop) := let 'mkLoop _ _ b _ _ _ := L in b.
Definition getLoopPreheader (L : Loop) := let 'mkLoop _ _ _ p _ _ := L in p.
Definition getExitBlocks (L : Loop) := let 'mkLoop _ _ _ _ e _ := L in e.
Definition getSubLoops (L : Loop) := let 'mkLoop _ _ _ _ _ s := L in s.

Inductive PreservedAnalyses : Type := PA_all | PA_none.

Definition Value_eqb (a b : Value) : bool :=
  match a, b with
  | VInst i, VInst j => Nat.eqb i j
  | VConstInt x, VConstInt y => Z.eqb x y
  | VOther n, VOther m => Nat.eqb n m
  | _, _ => false
  end.

Definition isPHINode (I : Instruction) : bool :=
  match opcode I with PHI => true | _ => false end.

Definition isTerminator (I : Instruction) : bool :=
  match opcode I with Br | Ret => true | _ => false end.

Definition isIntegerTy (t : Ty) : bool :=
  match t with IntegerTy _ => true | OtherTy => false end.

(** All instructions of the function, in block order. *)
Definition allInsts (g : Function) : list Instruction :=
  flat_map insts g.

Definition hasId (i : InstId) (I : Instruction) : bool := Nat.eqb (iid I) i.

Fixpoint findBlock (g : Function) (b : BlockId) : option BasicBlock :=
  match g with
  | [] => None
  | B :: g' => if Nat.eqb (bid B) b then Some B else findBlock g' b
  end.

(** [I->getParent()] for the instruction whose identity is [i]. *)
Fixpoint parentOf (g : Function) (i : InstId) : option BlockId :=
  match g with
  | [] => None
  | B :: g' => if existsb (hasId i) (insts B) then Some (bid B)
               else parentOf g' i
  end.

(** [Loop::contains] on an instruction: its block is one of the loop's
    blocks. *)
Definition contains (g : Function) (L : Loop) (i : InstId) : bool :=
  match parentOf g i with
  | Some b => existsb (Nat.eqb b) (getBlocks L)
  | None => false
  end.

(** [BB->getTerminator()]: the last instruction when it is a terminator. *)
Definition getTerminator (B : BasicBlock) : option Instruction :=
  match rev (insts B) with
  | t :: _ => if isTerminator t then Some t else None
  | [] => None
  end.

(** [BB->getFirstNonPHI()]. *)
Definition getFirstNonPHI (B : BasicBlock) : option Instruction :=
  find (fun I => negb (isPHINode I)) (insts B).

(** [BB->phis()]: the PHI nodes that open the block. *)
Fixpoint phis (l : list Instruction) : list Instruction :=
  match l with
  | P :: l' => if isPHINode P then P :: phis l' else []
  | [] => []
  end.

Definition mapInsts (f : list Instruction -> list Instruction)
  (g : Function) : Function :=
  map (fun B => mkBB (bid B) (f (insts B))) g.

(** [I->removeFromParent()] / [I->eraseFromParent()]. *)
Definition removeInst (i : InstId) (g : Function) : Function :=
  mapInsts (filter (fun J => negb (hasId i J))) g.

(** Link [I] into the instruction list right before the instruction whose
    identity is [pos]. *)
Fixpoint insertBefore (pos : InstId) (I : Instruction)
  (l : list Instruction) : list Instruction :=
  match l with
  | [] => []
  | J :: l' => if hasId pos J then I :: J :: l'
               else J :: insertBefore pos I l'
  end.

(** [I->moveBefore(Pos)]: unlink, then link in front of [Pos]. *)
Definition moveBefore (I : Instruction) (pos : InstId) (g : Function)
  : Function :=
  mapInsts (insertBefore pos I) (removeInst (iid I) g).

Definition replaceOperand (old : InstId) (new : Value) (v : Value) : Value :=
  match v with
  | VInst i => if Nat.eqb i old then new else v
  | _ => v
  end.

(** The instruction [J] once its uses of [old] read [new]. *)
Definition redirect (old : InstId) (new : Value) (J : Instruction)
  : Instruction :=
  mkInst (iid J) (opcode J) (ty J)
         (map (replaceOperand old new) (operands J)).

(** [Old->replaceAllUsesWith(New)]. *)
Definition replaceAllUsesWith (old : InstId) (new : Value) (g : Function)
  : Function :=
  mapInsts (map (redirect old new)) g.

(** A new instruction gets an identity no instruction of the graph has. *)
Definition freshId (g : Function) : InstId :=
  S (list_max (map iid (allInsts g))).

(** Link [I] in front of the instruction [pos] (an [IRBuilder] set at
    [pos], or the expander told to insert there). *)
Definition insertInstBefore (pos : InstId) (I : Instruction)
  (g : Function) : Function :=
  mapInsts (insertBefore pos I) g.

Definition insertAllBefore (pos : InstId) (new : list Instruction)
  (g : Function) : Function :=
  fold_left (fun g' J => insertInstBefore pos J g') new g.

(** The instruction [U] has [i] among its operands. *)
Definition usesInst (i : InstId) (U : Instruction) : bool :=
  existsb (Value_eqb (VInst i)) (operands U).

(** No instruction of [g] has [p] as an operand. *)
Definition noUse (p : InstId) (g : Function) : Prop :=
  forall U, In U (allInsts g) -> usesInst p U = false.

(** The identities of the instructions of [g]. *)
Definition idsOf (g : Function) : list InstId := map iid (allInsts g).

(** The users of [i], read off the operand lists in program order.  LLVM
    walks the use list of the value, whose order is not that of the
    program; the passes are modelled over an arbitrary enumeration of the
    users and this one instantiates it in the examples. *)
Definition usersOf (g : Function) (i : InstId) : list Instruction :=
  filter (usesInst i) (allInsts g).

(** The instruction whose identity is [i]. *)
Definition findInst (g : Function) (i : InstId) : option Instruction :=
  find (hasId i) (allInsts g).

(** Pointer identity: no two instructions and no two blocks share an
    address. *)
Definition wellFormed (g : Function) : Prop :=
  NoDup (map iid (allInsts g)) /\ NoDup (map bid g).

Fixpoint nodupb (l : list nat) : bool :=
  match l with
  | [] => true
  | x :: l' => negb (existsb (Nat.eqb x) l') && nodupb l'
  end.

Definition wellFormedb (g : Function) : bool :=
  nodupb (map iid (allInsts g)) && nodupb (map bid g).

(** The position of the instruction [i] in a list. *)
Fixpoint indexOf (i : InstId) (l : list Instruction) : option nat :=
  match l with
  | [] => None
  | J :: l' => if hasId i J then Some 0
               else option_map S (indexOf i l')
  end.

(** One operand of [U] is defined before [U] runs: in the same block it
    stands earlier, in another block that block dominates the block of
    [U] ([dom] is the dominator tree on blocks).  Operands that are no
    instructions need no definition. *)
Definition operandDefinedBefore (dom : BlockId -> BlockId -> bool)
  (g : Function) (B : BasicBlock) (U : Instruction) (v : Value) : bool :=
  match v with
  | VInst k =>
      match parentOf g k with
      | Some b =>
          if Nat.eqb b (bid B)
          then match indexOf k (insts B), indexOf (iid U) (insts B) with
               | Some m, Some n => Nat.ltb m n
               | _, _ => false
               end
          else dom b (bid B)
      | None => false
      end
  | _ => true
  end.

(** No use before its definition, over the whole function.  The operands
    of a PHI node are read on the incoming edges and are left out. *)
Definition defBeforeUse (dom : BlockId -> BlockId -> bool) (g : Function)
  : bool :=
  forallb (fun B =>
             forallb (fun U => isPHINode U
                               || forallb (operandDefinedBefore dom g B U)
                                          (operands U))
                     (insts B)) g.

(** *** Types of operands

    [BinaryOperator::Create] takes two operands of one type, which is the
    type of the result.  In the model a constant and an argument carry
    no type and fit every place; an operand that is an instruction has
    the type of that instruction. *)
Definition Ty_eqb (a b : Ty) : bool :=
  match a, b with
  | IntegerTy n, IntegerTy m => Nat.eqb n m
  | OtherTy, OtherTy => true
  | _, _ => false
  end.

Definition operandTyped (g : Function) (t : Ty) (v : Value) : bool :=
  match v with
  | VInst k => match findInst g k with
               | Some K => Ty_eqb (ty K) t
               | None => false
               end
  | _ => true
  end.

(** The binary operators of [g] have operands of their own type. *)
Definition wellTypedInst (g : Function) (J : Instruction) : bool :=
  match opcode J with
  | Add | Mul | UDiv => forallb (operandTyped g (ty J)) (operands J)
  | _ => true
  end.

Definition wellTyped (g : Function) : bool :=
  forallb (wellTypedInst g) (allInsts g).

End IR.

(** ** SimpleLICM.cpp *)

Module SimpleLICM.
Import IR.

(** What the pass asks of LLVM.  [dominates b EB] is the answer of
    [DT.dominates(I, EB)] for an instruction [I] that sits in block [b]
    (for [b] other than [EB], whether [b] dominates [EB]);
    [users g I] enumerates [I->users()] in the graph [g];
    [iterationOrder] is the order in which a range-for visits a
    [SmallPtrSet] whose elements were inserted in the order of the
    argument. *)
Record Analyses : Type := mkAnalyses {
  mayReadOrWriteMemory : Instruction -> bool;
  isSafeToSpeculativelyExecute : Instruction -> bool;
  dominates : BlockId -> BlockId -> bool;
  users : Function -> Instruction -> list Instruction;
  iterationOrder : list Instruction -> list Instruction
}.

Section Pass.

Variable A : Analyses.

(** [InvariantSet.count(I)] and [InvariantSet.insert(I)]; the list keeps
    the insertion order. *)
Definition count (S : list Instruction) (i : InstId) : bool :=
  existsb (hasId i) S.

Definition insert (S : list Instruction) (I : Instruction)
  : list Instruction :=
  if count S (iid I) then S else S ++ [I].

(** The blocks of [L.getBlocks()], instruction by instruction. *)
Definition loopInsts (g : Function) (L : Loop) : list Instruction :=
  flat_map (fun b => match findBlock g b with
                     | Some B => insts B
                     | None => []
                     end) (getBlocks L).

(** Lines 48-57: no operand is an instruction of the loop. *)
Definition allOperandsInvariant (g : Function) (L : Loop)
  (I : Instruction) : bool :=
  forallb (fun v => match v with
                    | VInst k => negb (contains g L k)
                    | _ => true
                    end) (operands I).

(** Lines 44-61, one instruction of the seeding scan.  The state is the
    invariant set and the worklist; the head of the worklist is the back
    of the [SmallVector]. *)
Definition seedStep (g : Function) (L : Loop)
  (st : list Instruction * list Instruction) (I : Instruction)
  : list Instruction * list Instruction :=
  if isPHINode I || mayReadOrWriteMemory A I then st
  else if allOperandsInvariant g L I
       then (insert (fst st) I, I :: snd st)
       else st.

Definition seed (g : Function) (L : Loop)
  : list Instruction * list Instruction :=
  fold_left (seedStep g L) (loopInsts g L) ([], []).

(** Lines 79-86: every operand that is an instruction of the loop is in
    the invariant set. *)
Definition allOperandsSafe (g : Function) (L : Loop)
  (S : list Instruction) (U : Instruction) : bool :=
  forallb (fun v => match v with
                    | VInst k => negb (contains g L k && negb (count S k))
                    | _ => true
                    end) (operands U).

(** Lines 69-92, one user of the popped instruction. *)
Definition visitUser (g : Function) (L : Loop)
  (st : list Instruction * list Instruction) (U : Instruction)
  : list Instruction * list Instruction :=
  if negb (contains g L (iid U)) || count (fst st) (iid U) || isPHINode U
     || mayReadOrWriteMemory A U
  then st
  else if allOperandsSafe g L (fst st) U
       then (insert (fst st) U, U :: snd st)
       else st.

(** Lines 66-93, the worklist loop; [None] when the fuel runs out. *)
Fixpoint iterate (fuel : nat) (g : Function) (L : Loop)
  (S W : list Instruction) : option (list Instruction) :=
  match W with
  | [] => Some S
  | X :: W' =>
      match fuel with
      | 0 => None
      | Datatypes.S fuel' =>
          let st := fold_left (visitUser g L) (users A g X) (S, W') in
          iterate fuel' g L (fst st) (snd st)
      end
  end.

(** The invariant set when the worklist has emptied. *)
Definition invariantSet (g : Function) (L : Loop)
  : option (list Instruction) :=
  let st := seed g L in
  iterate (length (snd st) + length (allInsts g)) g L (fst st) (snd st).

(** The closure the specification describes: an instruction of the loop
    that is no PHI node and touches no memory is invariant as soon as all
    its operands that are instructions of the loop are.  The instructions
    whose operands are all defined outside the loop start it. *)
Inductive Invariant (g : Function) (L : Loop) : InstId -> Prop :=
| Invariant_intro (I : Instruction) :
    In I (loopInsts g L) ->
    isPHINode I = false ->
    mayReadOrWriteMemory A I = false ->
    (forall k, In (VInst k) (operands I) -> contains g L k = true ->
               Invariant g L k) ->
    Invariant g L (iid I).

(** Every operand of [U] that is an instruction of the loop is in [S]. *)
Definition operandsIn (g : Function) (L : Loop) (S : list Instruction)
  (U : Instruction) : Prop :=
  forall k, In (VInst k) (operands U) -> contains g L k = true ->
            count S k = true.

(** The members of [S] in the order of their insertion: when a member
    entered, its operands in the loop were members already. *)
Definition closedPrefixes (g : Function) (L : Loop)
  (S : list Instruction) : Prop :=
  forall n J, nth_error S n = Some J -> operandsIn g L (firstn n S) J.

(** Invariants of the worklist loop.  [bounded]: the set never holds an
    identity twice and holds identities of the graph only.  [paced]:
    every push goes with an insertion of a new identity.  [pure]: the
    members are no PHI nodes and touch no memory.  [sound]: the members
    are instructions of the loop and lie in the closure.  [pending]: an
    instruction that could enter the set and has not yet has an operand
    waiting on the worklist, or is among the users [todo] that the
    current round has still to visit. *)
Definition bounded (g : Function) (S : list Instruction) : Prop :=
  NoDup (map iid S) /\ incl (map iid S) (map iid (allInsts g)).

Definition paced (g : Function) (S0 W0 : list Instruction)
  (st : list Instruction * list Instruction) : Prop :=
  bounded g (fst st) /\
  length (snd st) + length S0 = length (fst st) + length W0.

Definition pure (S : list Instruction) : Prop :=
  forall J, In J S ->
            isPHINode J = false /\ mayReadOrWriteMemory A J = false.

Definition sound (g : Function) (L : Loop) (S : list Instruction) : Prop :=
  forall J, In J S -> In J (loopInsts g L) /\ Invariant g L (iid J).

Definition pending (g : Function) (L : Loop)
  (S W todo : list Instruction) : Prop :=
  forall U,
    In U (loopInsts g L) ->
    isPHINode U = false -> mayReadOrWriteMemory A U = false ->
    count S (iid U) = false -> operandsIn g L S U ->
    (exists k, In (VInst k) (operands U) /\ contains g L k = true /\
               count W k = true)
    \/ In U todo.

(** Lines 111-118.  [DT.dominates(I, EB)] asks whether the block that
    holds [I] when the question is put dominates [EB]. *)
Definition dominatesAllLoopExits (g : Function) (I : Instruction)
  (L : Loop) : bool :=
  forallb (fun EB => match parentOf g (iid I) with
                     | Some b => dominates A b EB
                     | None => false
                     end) (getExitBlocks L).

(** Lines 102-105.  A preheader without terminator does not occur in
    verified IR; the move is undefined there and the model leaves the
    graph as it is. *)
Definition hoist (ph : BlockId) (L : Loop) (g : Function)
  (I : Instruction) : Function :=
  if isSafeToSpeculativelyExecute A I && dominatesAllLoopExits g I L
  then match findBlock g ph with
       | Some PH => match getTerminator PH with
                    | Some t => moveBefore I (iid t) g
                    | None => g
                    end
       | None => g
       end
  else g.

(** [SimpleLICM::run]. *)
Definition run (L : Loop) (g : Function)
  : option (PreservedAnalyses * Function) :=
  match getLoopPreheader L with
  | None => Some (PA_all, g)
  | Some ph =>
      match invariantSet g L with
      | None => None
      | Some InvariantSet =>
          Some (PA_none,
                fold_left (hoist ph L) (iterationOrder A InvariantSet) g)
      end
  end.

(** The instructions the hoisting loop moves, in the order it moves them:
    the test of line 102 reads the graph of the moment, and an
    instruction still sits in its own block when its turn comes. *)
Definition hoisted (L : Loop) (g : Function) (S : list Instruction)
  : list Instruction :=
  filter (fun I => isSafeToSpeculativelyExecute A I
                   && dominatesAllLoopExits g I L) (iterationOrder A S).

(** The graph once the instructions [H] have been moved, in that order,
    in front of the terminator [t] of the preheader [ph], whose other
    instructions are [init]: the closed form of the hoisting loop. *)
Definition relocate (ph : BlockId) (init : list Instruction)
  (t : Instruction) (H : list Instruction) (B : BasicBlock) : BasicBlock :=
  if Nat.eqb (bid B) ph
  then mkBB (bid B) (init ++ H ++ [t])
  else mkBB (bid B) (filter (fun J => negb (count H (iid J))) (insts B)).

Definition hoistedGraph (ph : BlockId) (init : list Instruction)
  (t : Instruction) (H : list Instruction) (g : Function) : Function :=
  map (relocate ph init t H) g.

End Pass.

End SimpleLICM.

(** ** DerivedInductionVars.cpp *)

Module DerivedInductionVars.
Import IR.

(** The shapes of a [SCEV] the pass tells apart.  [SCEVAddRecExpr l start
    step affine] is a recurrence of the loop [l]; the pass reads [start]
    and [step] only when [affine] holds.  Scalar evolution uniques its
    expressions, so comparing two [SCEV] pointers is comparing the
    expressions. *)
Inductive SCEV : Type :=
| SCEVConstant (z : Z)
| SCEVAddRecExpr (l : LoopId) (start step : SCEV) (affine : bool)
| SCEVUnknown (n : nat).

Fixpoint SCEV_eqb (a b : SCEV) : bool :=
  match a, b with
  | SCEVConstant x, SCEVConstant y => Z.eqb x y
  | SCEVAddRecExpr l s t f, SCEVAddRecExpr l' s' t' f' =>
      Nat.eqb l l' && SCEV_eqb s s' && SCEV_eqb t t' && Bool.eqb f f'
  | SCEVUnknown n, SCEVUnknown m => Nat.eqb n m
  | _, _ => false
  end.

(** What the pass asks of LLVM, each answer given for the graph of the
    moment.  [expandCodeFor g S t pos] gives the instructions the expander
    links in front of [pos] and the value that holds the result, or [None]
    for a null result.  [SE.forgetValue] only drops cached answers and has
    no counterpart here. *)
Record Analyses : Type := mkAnalyses {
  getSCEV : Function -> InstId -> SCEV;
  getCanonicalInductionVariable : Function -> Loop -> option Instruction;
  isSafeToExpand : Function -> SCEV -> bool;
  expandCodeFor : Function -> SCEV -> Ty -> InstId
                  -> option (list Instruction * Value)
}.

(** The state of one call while it scans the header: the graph, the
    [DeadPHIs] vector and [loop_flag]. *)
Record State : Type := mkState {
  graph : Function;
  DeadPHIs : list InstId;
  loop_flag : bool
}.

Section Pass.

Variable A : Analyses.

(** Lines 103-108: a [SCEVConstant] gives its [ConstantInt]. *)
Definition constantValue (S : SCEV) : option Value :=
  match S with
  | SCEVConstant z => Some (VConstInt z)
  | _ => None
  end.

(** Lines 118 and 126: [Expander.expandCodeFor(S, Ty, PreheaderInsert)]. *)
Definition expandAt (g : Function) (S : SCEV) (t : Ty) (pos : InstId)
  : option (Value * Function) :=
  match expandCodeFor A g S t pos with
  | Some (new, v) => Some (v, insertAllBefore pos new g)
  | None => None
  end.

(** Lines 100-133: [StartVal] and [StepVal].  The second component is
    [None] when the code says [continue]; the graph keeps what the
    expander linked in before that. *)
Definition resolveStartStep (g : Function) (StartSCEV StepSCEV : SCEV)
  (t : Ty) (PreheaderInsert : option Instruction)
  : Function * option (Value * Value) :=
  match constantValue StartSCEV, constantValue StepSCEV with
  | Some StartVal, Some StepVal => (g, Some (StartVal, StepVal))
  | sv, tv =>
      match PreheaderInsert with
      | None => (g, None)
      | Some pos =>
          match match sv with
                | Some StartVal => Some (StartVal, g)
                | None => expandAt g StartSCEV t (iid pos)
                end with
          | None => (g, None)
          | Some (StartVal, g1) =>
              match match tv with
                    | Some StepVal => Some (StepVal, g1)
                    | None => expandAt g1 StepSCEV t (iid pos)
                    end with
              | None => (g1, None)
              | Some (StepVal, g2) => (g2, Some (StartVal, StepVal))
              end
          end
      end
  end.

(** Lines 135-143: the two new instructions in front of [HeaderInsert],
    the uses of [PN] redirected, [PN] recorded as dead. *)
Definition rewrite (HeaderInsert BasicIV PN : Instruction)
  (StartVal StepVal : Value) (dead : list InstId) (g1 : Function) : State :=
  let Mul_ := mkInst (freshId g1) Mul (ty BasicIV)
                     [VInst (iid BasicIV); StepVal] in
  let g2 := insertInstBefore (iid HeaderInsert) Mul_ g1 in
  let NewVal := mkInst (freshId g2) Add (ty PN)
                       [StartVal; VInst (iid Mul_)] in
  let g3 := insertInstBefore (iid HeaderInsert) NewVal g2 in
  mkState (replaceAllUsesWith (iid PN) (VInst (iid NewVal)) g3)
          (dead ++ [iid PN]) true.

(** Lines 73-148, the body of the loop over [Header->phis()]. *)
Definition visitPHI (L : Loop) (HeaderInsert : Instruction)
  (PreheaderInsert : option Instruction) (st : State) (PN : Instruction)
  : State :=
  if negb (isIntegerTy (ty PN)) then st else
  let S := getSCEV A (graph st) (iid PN) in
  match S with
  | SCEVAddRecExpr l StartSCEV StepSCEV affine =>
      if Nat.eqb l (getLoopId L) && affine then
        match getCanonicalInductionVariable A (graph st) L with
        | None => st
        | Some BasicIV =>
            if negb (isSafeToExpand A (graph st) S)
               || SCEV_eqb S (getSCEV A (graph st) (iid BasicIV))
            then st
            else
              match resolveStartStep (graph st) StartSCEV StepSCEV (ty PN)
                                     PreheaderInsert with
              | (g1, None) => mkState g1 (DeadPHIs st) (loop_flag st)
              | (g1, Some (StartVal, StepVal)) =>
                  rewrite HeaderInsert BasicIV PN StartVal StepVal
                          (DeadPHIs st) g1
              end
        end
      else st
  | _ => st
  end.

(** The visit of [PN] in the state [st] reaches line 135: [PN] is an
    integer, an affine recurrence of the loop that is safe to expand and
    is not the recurrence of the canonical counter [BasicIV], and lines
    100-133 gave [StartVal] and [StepVal], leaving the graph [g1].  These
    are the PHI nodes the pass rewrites. *)
Definition reachesRewrite (L : Loop) (PreheaderInsert : option Instruction)
  (st : State) (PN BasicIV : Instruction) (StartVal StepVal : Value)
  (g1 : Function) : Prop :=
  isIntegerTy (ty PN) = true /\
  exists StartSCEV StepSCEV,
    getSCEV A (graph st) (iid PN)
    = SCEVAddRecExpr (getLoopId L) StartSCEV StepSCEV true /\
    getCanonicalInductionVariable A (graph st) L = Some BasicIV /\
    isSafeToExpand A (graph st)
      (SCEVAddRecExpr (getLoopId L) StartSCEV StepSCEV true) = true /\
    SCEV_eqb (SCEVAddRecExpr (getLoopId L) StartSCEV StepSCEV true)
             (getSCEV A (graph st) (iid BasicIV)) = false /\
    resolveStartStep (graph st) StartSCEV StepSCEV (ty PN) PreheaderInsert
    = (g1, Some (StartVal, StepVal)).

(** Lines 65-68. *)
Definition preheaderInsert (g : Function) (L : Loop) : option Instruction :=
  match getLoopPreheader L with
  | Some ph => match findBlock g ph with
               | Some PH => getTerminator PH
               | None => None
               end
  | None => None
  end.

(** Lines 72-150.  The PHI nodes of the header are those it opens with
    when the scan starts: the scan links instructions in only behind
    them. *)
Definition scanHeader (L : Loop) (Header : BasicBlock)
  (HeaderInsert : Instruction) (g : Function) : State :=
  fold_left (visitPHI L HeaderInsert (preheaderInsert g L))
            (phis (insts Header)) (mkState g [] false).

(** Lines 152-154. *)
Definition eraseDead (st : State) : Function :=
  fold_left (fun g d => removeInst d g) (DeadPHIs st) (graph st).

(** [DerivedInductionVars::analyzeLoopRecursively].  A header that is not
    a block of the function stands for the null header of line 54. *)
Fixpoint analyzeLoopRecursively (L : Loop) (g : Function)
  : bool * Function :=
  match findBlock g (getHeader L) with
  | None => (false, g)
  | Some Header =>
      match getFirstNonPHI Header with
      | None => (false, g)
      | Some HeaderInsert =>
          let st := scanHeader L Header HeaderInsert g in
          let g1 := eraseDead st in
          let g2 :=
            match L with
            | mkLoop _ _ _ _ _ subs =>
                fold_left (fun g' SubLoop =>
                             snd (analyzeLoopRecursively SubLoop g'))
                          subs g1
            end in
          (loop_flag st, g2)
      end
  end.

(** [DerivedInductionVars::run]; [LI] lists the top-level loops. *)
Definition run (LI : list Loop) (g : Function)
  : PreservedAnalyses * Function :=
  let r := fold_left (fun (acc : bool * Function) L =>
                        let c := analyzeLoopRecursively L (snd acc) in
                        (if fst c then true else fst acc, snd c))
                     LI (false, g) in
  (if fst r then PA_none else PA_all, snd r).

(** What holds of the state all along the scan of [Header] that started
    on the graph [g0]: no instruction has left the graph, the recorded
    nodes are PHI nodes of the header, and none of them is read. *)
Definition scanInv (Header : BasicBlock) (g0 : Function) (st : State)
  : Prop :=
  incl (idsOf g0) (idsOf (graph st)) /\
  (forall d, In d (DeadPHIs st) ->
             exists P, In P (phis (insts Header)) /\ iid P = d) /\
  (forall d, In d (DeadPHIs st) -> noUse d (graph st)).

(** Where the insertion point stands all along the scan that started on
    [g0]: no instruction has left the graph; the header holds the
    instruction [HeaderInsert] found at line 56 (its operands may have
    been redirected since); in front of it stand the PHI nodes of the
    header and what earlier rewrites have linked in, none of which has
    its identity; and the header does not hold [PreheaderInsert]. *)
Definition headerShape (L : Loop) (Header : BasicBlock)
  (HeaderInsert : Instruction) (PreheaderInsert : option Instruction)
  (g0 : Function) (st : State) : Prop :=
  incl (idsOf g0) (idsOf (graph st)) /\
  exists pre HI' post,
    findBlock (graph st) (getHeader L)
    = Some (mkBB (getHeader L) (pre ++ HI' :: post)) /\
    iid HI' = iid HeaderInsert /\
    ~ In (iid HeaderInsert) (map iid pre) /\
    (forall P, In P (phis (insts Header)) -> In (iid P) (map iid pre)) /\
    (forall posI, PreheaderInsert = Some posI ->
                  ~ In (iid posI) (map iid (pre ++ HI' :: post))).

(** A header PHI node the specification counts as simplified: the
    canonical counter, a value that is no integer, or a value that is no
    affine recurrence. *)
Definition simplePHI (g : Function) (L : Loop) (PN : Instruction) : Prop :=
  isIntegerTy (ty PN) = false
  \/ match getSCEV A g (iid PN) with
     | SCEVAddRecExpr _ _ _ true => False
     | _ => True
     end
  \/ exists BasicIV,
       getCanonicalInductionVariable A g L = Some BasicIV /\
       iid BasicIV = iid PN.

(** A loop nest in which every header PHI node is simplified. *)
Inductive Simplified (g : Function) : Loop -> Prop :=
| Simplified_intro (L : Loop) :
    (forall Header PN,
        findBlock g (getHeader L) = Some Header ->
        In PN (phis (insts Header)) -> simplePHI g L PN) ->
    (forall SubLoop, In SubLoop (getSubLoops L) -> Simplified g SubLoop) ->
    Simplified g L.


End Pass.

End DerivedInductionVars.

(** ** Values of the synthesized instructions *)

Module Semantics.
Import IR.

Section Eval.

(** The width of the integer type the value is read at. *)
Variable w : nat.

Definition wrap (z : Z) : Z := (z mod 2 ^ Z.of_nat w)%Z.

(** The value of [v], read as an integer of [w] bits, in one iteration.
    An instruction has a value here only when its type is the integer
    type of [w] bits; [add] and [mul] read their operands at their own
    type and compute modulo [2^w], so an operand that is an instruction
    of another type leaves them without a value: LLVM builds no binary
    operator from operands of differing type.  A constant and an
    argument carry no type in the model and are read at [w] bits.  The
    value of every other instruction (a PHI node above all), and of
    every argument, is what the environment [rho] says it is in that
    iteration. *)
Fixpoint evalValue (fuel : nat) (g : Function) (rho : Value -> Z)
  (v : Value) : option Z :=
  match v with
  | VConstInt z => Some (wrap z)
  | VOther _ => Some (wrap (rho v))
  | VInst i =>
      match findInst g i with
      | None => None
      | Some J =>
          if negb (Ty_eqb (ty J) (IntegerTy w)) then None else
          match opcode J, operands J with
          | Add, [a; b] =>
              match fuel with
              | 0 => None
              | S fuel' =>
                  match evalValue fuel' g rho a, evalValue fuel' g rho b with
                  | Some x, Some y => Some (wrap (x + y))
                  | _, _ => None
                  end
              end
          | Mul, [a; b] =>
              match fuel with
              | 0 => None
              | S fuel' =>
                  match evalValue fuel' g rho a, evalValue fuel' g rho b with
                  | Some x, Some y => Some (wrap (x * y))
                  | _, _ => None
                  end
              end
          | _, _ => Some (wrap (rho v))
          end
      end
  end.

(** The binary operations of the model. *)
Definition binop (o : Opcode) (x y : Z) : option Z :=
  match o with
  | Add => Some (wrap (x + y))
  | Mul => Some (wrap (x * y))
  | _ => None
  end.

(** The specification's reading of a merge-point with [j_0 = start] and
    [j_next = j + step]: its value in iteration [n]. *)
Fixpoint phiStream (start step : Z) (n : nat) : Z :=
  match n with
  | 0 => wrap start
  | S k => wrap (phiStream start step k + step)
  end.

End Eval.

End Semantics.

(** ** Dominance of a concrete control-flow graph *)

Module CFG.
Import IR.

(** A control-flow graph: each block with its successors. *)
Definition Graph := list (BlockId * list BlockId).

Definition succs (c : Graph) (b : BlockId) : list BlockId :=
  match find (fun p => Nat.eqb (fst p) b) c with
  | Some p => snd p
  | None => []
  end.

(** The blocks reached from [frontier] on paths that never enter
    [avoid]. *)
Fixpoint reach (fuel : nat) (c : Graph) (avoid : BlockId)
  (seen frontier : list BlockId) : list BlockId :=
  match fuel with
  | 0 => seen
  | S fuel' =>
      match frontier with
      | [] => seen
      | b :: rest =>
          if Nat.eqb b avoid || existsb (Nat.eqb b) seen
          then reach fuel' c avoid seen rest
          else reach fuel' c avoid (b :: seen) (succs c b ++ rest)
      end
  end.

Definition edges (c : Graph) : nat :=
  fold_right (fun p n => length (snd p) + n) 0 c.

(** [a] dominates [b]: every path from the entry to [b] runs through
    [a]. *)
Definition dominates (c : Graph) (entry a b : BlockId) : bool :=
  Nat.eqb a b
  || negb (existsb (Nat.eqb b) (reach (S (S (edges c))) c a [] [entry])).

End CFG.

(** ** Small graphs and concrete analyses *)

Module Examples.
Import IR.

Definition i32 : Ty := IntegerTy 32.

(** [mayReadOrWriteMemory] and [isSafeToSpeculativelyExecute] on the
    opcodes of the model, as LLVM answers for them: a division is safe to
    speculate only by a constant that is not zero; PHI nodes, memory
    operations, calls and terminators never are. *)
Definition memOp (I : Instruction) : bool :=
  match opcode I with
  | Load | Store | Call => true
  | _ => false
  end.

Definition speculatable (I : Instruction) : bool :=
  match opcode I with
  | Add | Mul | ICmp => true
  | UDiv => match operands I with
            | [_; VConstInt z] => negb (Z.eqb z 0)
            | _ => false
            end
  | _ => false
  end.

(** The analyses of the hoister over the control-flow graph [c] with
    entry block 0; [order] is the iteration order of the set. *)
Definition licm (c : CFG.Graph)
  (order : list Instruction -> list Instruction) : SimpleLICM.Analyses :=
  SimpleLICM.mkAnalyses memOp speculatable (CFG.dominates c 0)
                        (fun g I => usersOf g (iid I)) order.

Definition insertionOrder (S : list Instruction) : list Instruction := S.

(** *** A loop with a conditional block

    0: preheader; 1: header; 2: runs in some iterations only; 3: latch;
    4: exit.  Instruction 20 computes [x + 1] from an argument. *)
Definition cfgDiamond : CFG.Graph :=
  [(0, [1]); (1, [2; 3]); (2, [3]); (3, [1; 4]); (4, [])].

Definition gDiamond : Function :=
  [ mkBB 0 [mkInst 100 Br OtherTy []];
    mkBB 1 [mkInst 1 PHI i32 [VConstInt 0; VInst 31];
            mkInst 10 ICmp i32 [VInst 1; VOther 0];
            mkInst 11 Br OtherTy [VInst 10]];
    mkBB 2 [mkInst 20 Add i32 [VOther 1; VConstInt 1];
            mkInst 21 Br OtherTy []];
    mkBB 3 [mkInst 31 Add i32 [VInst 1; VConstInt 1];
            mkInst 32 ICmp i32 [VInst 31; VOther 2];
            mkInst 33 Br OtherTy [VInst 32]];
    mkBB 4 [mkInst 40 Ret OtherTy []] ].

Definition loopDiamond : Loop := mkLoop 0 1 [1; 2; 3] (Some 0) [4] [].

(** *** A single-block loop with a division

    Instruction 10 is [a = x / y] with arguments [x] and [y];
    instruction 11 is [b = a + 1]; the exit block returns [b]. *)
Definition cfgSimple : CFG.Graph := [(0, [1]); (1, [1; 2]); (2, [])].

Definition gDiv : Function :=
  [ mkBB 0 [mkInst 100 Br OtherTy []];
    mkBB 1 [mkInst 1 PHI i32 [VConstInt 0; VInst 12];
            mkInst 10 UDiv i32 [VOther 0; VOther 1];
            mkInst 11 Add i32 [VInst 10; VConstInt 1];
            mkInst 12 Add i32 [VInst 1; VConstInt 1];
            mkInst 13 ICmp i32 [VInst 12; VOther 2];
            mkInst 14 Br OtherTy [VInst 13]];
    mkBB 2 [mkInst 20 Ret OtherTy [VInst 11]] ].

(** The same loop with [a = x + 1] and [b = a + 2]. *)
Definition gChain : Function :=
  [ mkBB 0 [mkInst 100 Br OtherTy []];
    mkBB 1 [mkInst 1 PHI i32 [VConstInt 0; VInst 12];
            mkInst 10 Add i32 [VOther 0; VConstInt 1];
            mkInst 11 Add i32 [VInst 10; VConstInt 2];
            mkInst 12 Add i32 [VInst 1; VConstInt 1];
            mkInst 13 ICmp i32 [VInst 12; VOther 2];
            mkInst 14 Br OtherTy [VInst 13]];
    mkBB 2 [mkInst 20 Ret OtherTy [VInst 11]] ].

Definition loopSimple : Loop := mkLoop 0 1 [1] (Some 0) [2] [].

(** The same loop when its entry block also branches around it: the
    header has no preheader. *)
Definition loopNoPreheader : Loop := mkLoop 0 1 [1] None [2] [].


(** *** Analyses for the rewriter

    [canonicalIV] follows [Loop::getCanonicalInductionVariable]: the first
    PHI node of the header that starts at 0 and is incremented by 1.
    [scevOf] knows the recurrences of that shape with any constant start
    and step; [headers] tells which loop a header belongs to. *)
Definition isIncrementOf (g : Function) (phi : InstId) (v : Value)
  : option Z :=
  match v with
  | VInst k =>
      match findInst g k with
      | Some J =>
          match opcode J, operands J with
          | Add, [VInst p; VConstInt t] =>
              if Nat.eqb p phi then Some t else None
          | _, _ => None
          end
      | None => None
      end
  | _ => None
  end.

Definition recurrenceOf (g : Function) (P : Instruction) : option (Z * Z) :=
  match opcode P, operands P with
  | PHI, [VConstInt s; inc] =>
      match isIncrementOf g (iid P) inc with
      | Some t => Some (s, t)
      | None => None
      end
  | _, _ => None
  end.

Definition canonicalIV (g : Function) (L : Loop) : option Instruction :=
  match findBlock g (getHeader L) with
  | Some H =>
      find (fun P => match recurrenceOf g P with
                     | Some (s, t) => Z.eqb s 0 && Z.eqb t 1
                     | None => false
                     end) (phis (insts H))
  | None => None
  end.

Definition scevOf (headers : list (BlockId * LoopId)) (g : Function)
  (i : InstId) : DerivedInductionVars.SCEV :=
  match findInst g i, parentOf g i with
  | Some P, Some b =>
      match recurrenceOf g P,
            find (fun h => Nat.eqb (fst h) b) headers with
      | Some (s, t), Some h =>
          DerivedInductionVars.SCEVAddRecExpr
            (snd h) (DerivedInductionVars.SCEVConstant s)
            (DerivedInductionVars.SCEVConstant t) true
      | _, _ => DerivedInductionVars.SCEVUnknown i
      end
  | _, _ => DerivedInductionVars.SCEVUnknown i
  end.

(** The expander is never reached with constant starts and steps. *)
Definition rewriter (headers : list (BlockId * LoopId))
  : DerivedInductionVars.Analyses :=
  DerivedInductionVars.mkAnalyses (scevOf headers) canonicalIV
    (fun _ _ => true) (fun _ _ _ _ => None).

(** *** The loop of the specification: [j_0 = 10], [j_next = j + 5]

    PHI 1 is the canonical counter [i], PHI 2 is [j]; instruction 10
    stores [j]. *)
Definition gDerived : Function :=
  [ mkBB 0 [mkInst 100 Br OtherTy []];
    mkBB 1 [mkInst 1 PHI i32 [VConstInt 0; VInst 12];
            mkInst 2 PHI i32 [VConstInt 10; VInst 11];
            mkInst 10 Store OtherTy [VInst 2; VOther 0];
            mkInst 11 Add i32 [VInst 2; VConstInt 5];
            mkInst 12 Add i32 [VInst 1; VConstInt 1];
            mkInst 13 ICmp i32 [VInst 12; VOther 1];
            mkInst 14 Br OtherTy [VInst 13]];
    mkBB 2 [mkInst 20 Ret OtherTy []] ].

Definition phiI : Instruction := mkInst 1 PHI i32 [VConstInt 0; VInst 12].
Definition phiJ : Instruction := mkInst 2 PHI i32 [VConstInt 10; VInst 11].
Definition storeJ : Instruction :=
  mkInst 10 Store OtherTy [VInst 2; VOther 0].
Definition brPreheader : Instruction := mkInst 100 Br OtherTy [].

(** The rest of the header behind the store. *)
Definition latchDerived : list Instruction :=
  [ mkInst 11 Add i32 [VInst 2; VConstInt 5];
    mkInst 12 Add i32 [VInst 1; VConstInt 1];
    mkInst 13 ICmp i32 [VInst 12; VOther 1];
    mkInst 14 Br OtherTy [VInst 13] ].

Definition headerDerived : BasicBlock :=
  mkBB 1 (phiI :: phiJ :: storeJ :: latchDerived).

(** The loop of the specification with a second recurrence, [k] with
    [k_0 = 7] and [k_next = k + 3], as PHI 3. *)
Definition gTwoDerived : Function :=
  [ mkBB 0 [mkInst 100 Br OtherTy []];
    mkBB 1 [mkInst 1 PHI i32 [VConstInt 0; VInst 12];
            mkInst 2 PHI i32 [VConstInt 10; VInst 11];
            mkInst 3 PHI i32 [VConstInt 7; VInst 15];
            mkInst 10 Store OtherTy [VInst 2; VOther 0];
            mkInst 16 Store OtherTy [VInst 3; VOther 4];
            mkInst 11 Add i32 [VInst 2; VConstInt 5];
            mkInst 15 Add i32 [VInst 3; VConstInt 3];
            mkInst 12 Add i32 [VInst 1; VConstInt 1];
            mkInst 13 ICmp i32 [VInst 12; VOther 1];
            mkInst 14 Br OtherTy [VInst 13]];
    mkBB 2 [mkInst 20 Ret OtherTy []] ].

Definition phiK : Instruction := mkInst 3 PHI i32 [VConstInt 7; VInst 15].

Definition headerTwoDerived : BasicBlock :=
  mkBB 1 [ phiI; phiJ; phiK; storeJ;
           mkInst 16 Store OtherTy [VInst 3; VOther 4];
           mkInst 11 Add i32 [VInst 2; VConstInt 5];
           mkInst 15 Add i32 [VInst 3; VConstInt 3];
           mkInst 12 Add i32 [VInst 1; VConstInt 1];
           mkInst 13 ICmp i32 [VInst 12; VOther 1];
           mkInst 14 Br OtherTy [VInst 13] ].

(** The loop of the specification when the counter [i] is an [i32] and
    [j] an [i64]: [for (int i = 0; ...; ++i)] beside a [long j]. *)
Definition i64 : Ty := IntegerTy 64.

Definition gMixedWidth : Function :=
  [ mkBB 0 [mkInst 100 Br OtherTy []];
    mkBB 1 [mkInst 1 PHI i32 [VConstInt 0; VInst 12];
            mkInst 2 PHI i64 [VConstInt 10; VInst 11];
            mkInst 10 Store OtherTy [VInst 2; VOther 0];
            mkInst 11 Add i64 [VInst 2; VConstInt 5];
            mkInst 12 Add i32 [VInst 1; VConstInt 1];
            mkInst 13 ICmp i32 [VInst 12; VOther 1];
            mkInst 14 Br OtherTy [VInst 13]];
    mkBB 2 [mkInst 20 Ret OtherTy []] ].

(** The loop without its counter: [j] is the only PHI node of the
    header. *)
Definition gNoCounter : Function :=
  [ mkBB 0 [mkInst 100 Br OtherTy []];
    mkBB 1 [mkInst 2 PHI i32 [VConstInt 10; VInst 11];
            mkInst 10 Store OtherTy [VInst 2; VOther 0];
            mkInst 11 Add i32 [VInst 2; VConstInt 5];
            mkInst 13 ICmp i32 [VInst 11; VOther 1];
            mkInst 14 Br OtherTy [VInst 13]];
    mkBB 2 [mkInst 20 Ret OtherTy []] ].


(** The guarded loop when [j] starts at an argument [n]: scalar
    evolution knows [j] as the recurrence that starts at [n] and steps
    by 5, and the start has to be materialized before the loop. *)
Definition gGuardedSym : Function :=
  [ mkBB 0 [mkInst 99 ICmp i32 [VOther 1; VConstInt 0];
            mkInst 100 Br OtherTy [VInst 99]];
    mkBB 1 [mkInst 1 PHI i32 [VConstInt 0; VInst 12];
            mkInst 2 PHI i32 [VOther 3; VInst 11];
            mkInst 10 Store OtherTy [VInst 2; VOther 0];
            mkInst 11 Add i32 [VInst 2; VConstInt 5];
            mkInst 12 Add i32 [VInst 1; VConstInt 1];
            mkInst 13 ICmp i32 [VInst 12; VOther 1];
            mkInst 14 Br OtherTy [VInst 13]];
    mkBB 2 [mkInst 20 Ret OtherTy []] ].

Definition scevSym (g : Function) (i : InstId) : DerivedInductionVars.SCEV :=
  match i with
  | 1 => DerivedInductionVars.SCEVAddRecExpr
           0 (DerivedInductionVars.SCEVConstant 0)
           (DerivedInductionVars.SCEVConstant 1) true
  | 2 => DerivedInductionVars.SCEVAddRecExpr
           0 (DerivedInductionVars.SCEVUnknown 3)
           (DerivedInductionVars.SCEVConstant 5) true
  | _ => DerivedInductionVars.SCEVUnknown i
  end.

(** The expander gives the argument itself for the start [n]. *)
Definition rewriterSym : DerivedInductionVars.Analyses :=
  DerivedInductionVars.mkAnalyses scevSym canonicalIV (fun _ _ => true)
    (fun _ S _ _ =>
       match S with
       | DerivedInductionVars.SCEVUnknown n => Some ([], VOther n)
       | _ => None
       end).

(** The guarded loop with both kinds of recurrence: [j] (PHI 2) starts
    at the constant 10, [k] (PHI 3) starts at an argument [n]; both step
    by 5. *)
Definition gGuardedMixed : Function :=
  [ mkBB 0 [mkInst 99 ICmp i32 [VOther 1; VConstInt 0];
            mkInst 100 Br OtherTy [VInst 99]];
    mkBB 1 [mkInst 1 PHI i32 [VConstInt 0; VInst 12];
            mkInst 2 PHI i32 [VConstInt 10; VInst 11];
            mkInst 3 PHI i32 [VOther 3; VInst 15];
            mkInst 10 Store OtherTy [VInst 2; VOther 0];
            mkInst 16 Store OtherTy [VInst 3; VOther 4];
            mkInst 11 Add i32 [VInst 2; VConstInt 5];
            mkInst 15 Add i32 [VInst 3; VConstInt 5];
            mkInst 12 Add i32 [VInst 1; VConstInt 1];
            mkInst 13 ICmp i32 [VInst 12; VOther 1];
            mkInst 14 Br OtherTy [VInst 13]];
    mkBB 2 [mkInst 20 Ret OtherTy []] ].

Definition scevMixed (g : Function) (i : InstId)
  : DerivedInductionVars.SCEV :=
  match i with
  | 1 => DerivedInductionVars.SCEVAddRecExpr
           0 (DerivedInductionVars.SCEVConstant 0)
           (DerivedInductionVars.SCEVConstant 1) true
  | 2 => DerivedInductionVars.SCEVAddRecExpr
           0 (DerivedInductionVars.SCEVConstant 10)
           (DerivedInductionVars.SCEVConstant 5) true
  | 3 => DerivedInductionVars.SCEVAddRecExpr
           0 (DerivedInductionVars.SCEVUnknown 3)
           (DerivedInductionVars.SCEVConstant 5) true
  | _ => DerivedInductionVars.SCEVUnknown i
  end.

(** The expander would build one instruction for the start [n]. *)
Definition rewriterMixed : DerivedInductionVars.Analyses :=
  DerivedInductionVars.mkAnalyses scevMixed canonicalIV (fun _ _ => true)
    (fun g S t _ =>
       match S with
       | DerivedInductionVars.SCEVUnknown n =>
           Some ([mkInst (freshId g) Add t [VOther n; VConstInt 0]],
                 VInst (freshId g))
       | _ => None
       end).

(** The loop with both kinds of recurrence behind a preheader: block 0
    only branches to the header. *)
Definition gMixedStart : Function :=
  [ mkBB 0 [mkInst 100 Br OtherTy []];
    mkBB 1 [mkInst 1 PHI i32 [VConstInt 0; VInst 12];
            mkInst 2 PHI i32 [VConstInt 10; VInst 11];
            mkInst 3 PHI i32 [VOther 3; VInst 15];
            mkInst 10 Store OtherTy [VInst 2; VOther 0];
            mkInst 16 Store OtherTy [VInst 3; VOther 4];
            mkInst 11 Add i32 [VInst 2; VConstInt 5];
            mkInst 15 Add i32 [VInst 3; VConstInt 5];
            mkInst 12 Add i32 [VInst 1; VConstInt 1];
            mkInst 13 ICmp i32 [VInst 12; VOther 1];
            mkInst 14 Br OtherTy [VInst 13]];
    mkBB 2 [mkInst 20 Ret OtherTy []] ].

Definition phiN : Instruction := mkInst 3 PHI i32 [VOther 3; VInst 15].

Definition headerMixedStart : BasicBlock :=
  mkBB 1 [ phiI; phiJ; phiN; storeJ;
           mkInst 16 Store OtherTy [VInst 3; VOther 4];
           mkInst 11 Add i32 [VInst 2; VConstInt 5];
           mkInst 15 Add i32 [VInst 3; VConstInt 5];
           mkInst 12 Add i32 [VInst 1; VConstInt 1];
           mkInst 13 ICmp i32 [VInst 12; VOther 1];
           mkInst 14 Br OtherTy [VInst 13] ].

(** *** The same loop nested in an outer loop

    Outer loop: header 1 with the counter 1, latch 4, exit 5.  Inner
    loop: preheader 2, header 3 with the counter 30 and [j] as PHI 31. *)
Definition gNested : Function :=
  [ mkBB 0 [mkInst 100 Br OtherTy []];
    mkBB 1 [mkInst 1 PHI i32 [VConstInt 0; VInst 50];
            mkInst 5 Br OtherTy []];
    mkBB 2 [mkInst 6 Br OtherTy []];
    mkBB 3 [mkInst 30 PHI i32 [VConstInt 0; VInst 33];
            mkInst 31 PHI i32 [VConstInt 10; VInst 32];
            mkInst 34 Store OtherTy [VInst 31; VOther 0];
            mkInst 32 Add i32 [VInst 31; VConstInt 5];
            mkInst 33 Add i32 [VInst 30; VConstInt 1];
            mkInst 35 ICmp i32 [VInst 33; VOther 1];
            mkInst 36 Br OtherTy [VInst 35]];
    mkBB 4 [mkInst 50 Add i32 [VInst 1; VConstInt 1];
            mkInst 51 ICmp i32 [VInst 50; VOther 2];
            mkInst 52 Br OtherTy [VInst 51]];
    mkBB 5 [mkInst 60 Ret OtherTy []] ].

Definition loopInner : Loop := mkLoop 1 3 [3] (Some 2) [4] [].
Definition loopOuter : Loop :=
  mkLoop 0 1 [1; 2; 3; 4] (Some 0) [5] [loopInner].

End Examples.

(** ** What the passes write to [errs()] *)

Module Trace.
Import IR.

(** The lines of SimpleLICM.cpp: line 35 and line 103. *)
Inductive LICMEvent : Type :=
| NoPreheaderSkippingLoop
| Hoisting (I : Instruction).

Section LICM.

Variable A : SimpleLICM.Analyses.

(** Lines 102-105 with the line they print: the message of line 103 is
    written before line 104 moves the instruction. *)
Definition hoistLog (ph : BlockId) (L : Loop)
  (st : Function * list LICMEvent) (I : Instruction)
  : Function * list LICMEvent :=
  if SimpleLICM.isSafeToSpeculativelyExecute A I
     && SimpleLICM.dominatesAllLoopExits A (fst st) I L
  then (match findBlock (fst st) ph with
        | Some PH => match getTerminator PH with
                     | Some t => moveBefore I (iid t) (fst st)
                     | None => fst st
                     end
        | None => fst st
        end,
        snd st ++ [Hoisting I])
  else st.

(** [SimpleLICM::run] with its output. *)
Definition runLog (L : Loop) (g : Function)
  : option (PreservedAnalyses * Function * list LICMEvent) :=
  match getLoopPreheader L with
  | None => Some (PA_all, g, [NoPreheaderSkippingLoop])
  | Some ph =>
      match SimpleLICM.invariantSet A g L with
      | None => None
      | Some InvariantSet =>
          let r := fold_left (hoistLog ph L)
                             (SimpleLICM.iterationOrder A InvariantSet)
                             (g, []) in
          Some (PA_none, fst r, snd r)
      end
  end.

End LICM.

(** The lines the header scan of DerivedInductionVars.cpp prints, each
    with the PHI node it names: lines 86, 96, 113, 121, 129 and 146. *)
Inductive DIVEvent : Type :=
| NoCanonicalIV (pn : InstId)
| SkippingUnsafeToExpand (pn : InstId)
| NoPreheaderAvailable (pn : InstId)
| FailedToMaterializeStart (pn : InstId)
| FailedToMaterializeStep (pn : InstId)
| FoundDerivedIV (pn : InstId) (start step : DerivedInductionVars.SCEV).

(** Why lines 100-133 said [continue]. *)
Inductive Failure : Type := NoPreheader | FailedStart | FailedStep.

Definition failureEvent (f : Failure) (pn : InstId) : DIVEvent :=
  match f with
  | NoPreheader => NoPreheaderAvailable pn
  | FailedStart => FailedToMaterializeStart pn
  | FailedStep => FailedToMaterializeStep pn
  end.

Section DIV.

Import DerivedInductionVars.

Variable A : Analyses.

(** Lines 100-133, telling the three ways to give up apart. *)
Definition resolveStartStepLog (g : Function) (StartSCEV StepSCEV : SCEV)
  (t : Ty) (PreheaderInsert : option Instruction)
  : Function * (Value * Value + Failure) :=
  match constantValue StartSCEV, constantValue StepSCEV with
  | Some StartVal, Some StepVal => (g, inl (StartVal, StepVal))
  | sv, tv =>
      match PreheaderInsert with
      | None => (g, inr NoPreheader)
      | Some pos =>
          match match sv with
                | Some StartVal => Some (StartVal, g)
                | None => expandAt A g StartSCEV t (iid pos)
                end with
          | None => (g, inr FailedStart)
          | Some (StartVal, g1) =>
              match match tv with
                    | Some StepVal => Some (StepVal, g1)
                    | None => expandAt A g1 StepSCEV t (iid pos)
                    end with
              | None => (g1, inr FailedStep)
              | Some (StepVal, g2) => (g2, inl (StartVal, StepVal))
              end
          end
      end
  end.

(** Lines 73-148 with the lines they print. *)
Definition visitPHILog (L : Loop) (HeaderInsert : Instruction)
  (PreheaderInsert : option Instruction)
  (sl : State * list DIVEvent) (PN : Instruction)
  : State * list DIVEvent :=
  let st := fst sl in
  let log := snd sl in
  if negb (isIntegerTy (ty PN)) then sl else
  let S := getSCEV A (graph st) (iid PN) in
  match S with
  | SCEVAddRecExpr l StartSCEV StepSCEV affine =>
      if Nat.eqb l (getLoopId L) && affine then
        match getCanonicalInductionVariable A (graph st) L with
        | None => (st, log ++ [NoCanonicalIV (iid PN)])
        | Some BasicIV =>
            if negb (isSafeToExpand A (graph st) S)
               || SCEV_eqb S (getSCEV A (graph st) (iid BasicIV))
            then (st, log ++ [SkippingUnsafeToExpand (iid PN)])
            else
              match resolveStartStepLog (graph st) StartSCEV StepSCEV
                                        (ty PN) PreheaderInsert with
              | (g1, inr f) =>
                  (mkState g1 (DeadPHIs st) (loop_flag st),
                   log ++ [failureEvent f (iid PN)])
              | (g1, inl (StartVal, StepVal)) =>
                  (rewrite HeaderInsert BasicIV PN StartVal StepVal
                           (DeadPHIs st) g1,
                   log ++ [FoundDerivedIV (iid PN) StartSCEV StepSCEV])
              end
        end
      else sl
  | _ => sl
  end.

(** Lines 72-150 with the lines they print. *)
Definition scanHeaderLog (L : Loop) (Header : BasicBlock)
  (HeaderInsert : Instruction) (g : Function) : State * list DIVEvent :=
  fold_left (visitPHILog L HeaderInsert (preheaderInsert g L))
            (phis (insts Header)) (mkState g [] false, []).

End DIV.

(** The PHI node a line names. *)
Definition eventPHI (e : DIVEvent) : InstId :=
  match e with
  | NoCanonicalIV pn | SkippingUnsafeToExpand pn | NoPreheaderAvailable pn
  | FailedToMaterializeStart pn | FailedToMaterializeStep pn
  | FoundDerivedIV pn _ _ => pn
  end.

(** The PHI nodes of the lines "Found Derived IV", in the order of the
    lines. *)
Fixpoint foundPHIs (log : list DIVEvent) : list InstId :=
  match log with
  | [] => []
  | FoundDerivedIV pn _ _ :: log' => pn :: foundPHIs log'
  | _ :: log' => foundPHIs log'
  end.

(** The instructions of the lines "Hoisting:", in the order of the
    lines. *)
Fixpoint hoistingLines (log : list LICMEvent) : list Instruction :=
  match log with
  | [] => []
  | Hoisting X :: log' => X :: hoistingLines log'
  | NoPreheaderSkippingLoop :: log' => hoistingLines log'
  end.

End Trace.
(** ** Facts about the program graph *)

Module IRFacts.
Import IR.

Lemma hasId_true (i : InstId) (J : Instruction) :
  hasId i J = true <-> iid J = i.
Proof. unfold hasId. apply Nat.eqb_eq. Qed.

Lemma existsb_eqb_In (x : nat) (l : list nat) :
  existsb (Nat.eqb x) l = true <-> In x l.
Proof.
  rewrite existsb_exists. split.
  - intros (y & Hy & E). apply Nat.eqb_eq in E. now subst.
  - intros H. exists x. split; [assumption | apply Nat.eqb_refl].
Qed.

Lemma existsb_hasId (i : InstId) (l : list Instruction) :
  existsb (hasId i) l = true <-> In i (map iid l).
Proof.
  rewrite existsb_exists, in_map_iff. split.
  - intros (J & HJ & E). apply hasId_true in E. eauto.
  - intros (J & E & HJ). exists J. split; [assumption | now apply hasId_true].
Qed.

Lemma nodupb_sound (l : list nat) : nodupb l = true -> NoDup l.
Proof.
  induction l as [|x l IH]; simpl; intros H.
  - constructor.
  - apply andb_true_iff in H. destruct H as [H1 H2].
    constructor; [|auto].
    intros Hin. apply existsb_eqb_In in Hin. rewrite Hin in H1. discriminate.
Qed.

Lemma wellFormedb_sound (g : Function) :
  wellFormedb g = true -> wellFormed g.
Proof.
  unfold wellFormedb, wellFormed. intros H.
  apply andb_true_iff in H. destruct H. split; now apply nodupb_sound.
Qed.

Lemma in_allInsts (g : Function) (J : Instruction) :
  In J (allInsts g) <-> exists B, In B g /\ In J (insts B).
Proof. unfold allInsts. apply in_flat_map. Qed.

Lemma findBlock_Some (g : Function) (b : BlockId) (B : BasicBlock) :
  findBlock g b = Some B -> In B g /\ bid B = b.
Proof.
  induction g as [|C g IH]; simpl; [discriminate|].
  destruct (Nat.eqb (bid C) b) eqn:E.
  - intros H. injection H as <-. apply Nat.eqb_eq in E. auto.
  - intros H. destruct (IH H). auto.
Qed.

Lemma findBlock_In (g : Function) (B : BasicBlock) :
  NoDup (map bid g) -> In B g -> findBlock g (bid B) = Some B.
Proof.
  induction g as [|C g IH]; simpl; intros Hnd Hin; [contradiction|].
  inversion Hnd as [|? ? Hnot Hnd']; subst.
  destruct Hin as [->|Hin].
  - now rewrite Nat.eqb_refl.
  - destruct (Nat.eqb (bid C) (bid B)) eqn:E; [|auto].
    apply Nat.eqb_eq in E. exfalso. apply Hnot. rewrite E.
    now apply in_map.
Qed.

Lemma parentOf_Some (g : Function) (i : InstId) (b : BlockId) :
  parentOf g i = Some b ->
  exists B, In B g /\ bid B = b /\ In i (map iid (insts B)).
Proof.
  induction g as [|C g IH]; simpl; [discriminate|].
  destruct (existsb (hasId i) (insts C)) eqn:E.
  - intros H. injection H as <-. apply existsb_hasId in E. eauto.
  - intros H. destruct (IH H) as (B & ? & ? & ?). eauto.
Qed.

Lemma parentOf_in_graph (g : Function) (i : InstId) (b : BlockId) :
  parentOf g i = Some b -> In i (map iid (allInsts g)).
Proof.
  intros H. apply parentOf_Some in H. destruct H as (B & HB & _ & Hi).
  apply in_map_iff in Hi. destruct Hi as (J & <- & HJ).
  apply in_map. apply in_allInsts. eauto.
Qed.

Lemma NoDup_app_disjoint (X : Type) (l1 l2 : list X) (x : X) :
  NoDup (l1 ++ l2) -> In x l1 -> In x l2 -> False.
Proof.
  induction l1 as [|y l1 IH]; simpl; intros Hnd H1 H2; [contradiction|].
  inversion Hnd as [|? ? Hnot Hnd']; subst.
  destruct H1 as [->|H1].
  - apply Hnot. apply in_or_app. now right.
  - eauto.
Qed.

Lemma NoDup_app_l (X : Type) (l1 l2 : list X) :
  NoDup (l1 ++ l2) -> NoDup l1.
Proof.
  induction l1 as [|y l1 IH]; simpl; intros Hnd; [constructor|].
  inversion Hnd as [|? ? Hnot Hnd']; subst.
  constructor; [|auto]. intros H. apply Hnot. apply in_or_app. now left.
Qed.

Lemma NoDup_app_r (X : Type) (l1 l2 : list X) :
  NoDup (l1 ++ l2) -> NoDup l2.
Proof.
  induction l1 as [|y l1 IH]; simpl; intros Hnd; [assumption|].
  inversion Hnd; subst. auto.
Qed.

Lemma NoDup_snoc (X : Type) (l : list X) (x : X) :
  NoDup l -> ~ In x l -> NoDup (l ++ [x]).
Proof.
  induction l as [|y l IH]; simpl; intros Hnd Hx.
  - constructor; [auto | constructor].
  - inversion Hnd; subst. constructor.
    + intros H. apply in_app_or in H. simpl in H. intuition.
    + apply IH; [assumption|]. intros H. apply Hx. now right.
Qed.

(** With distinct identities the parent of an instruction is the block
    that lists it. *)
Lemma parentOf_In (g : Function) (B : BasicBlock) (J : Instruction) :
  NoDup (map iid (allInsts g)) -> In B g -> In J (insts B) ->
  parentOf g (iid J) = Some (bid B).
Proof.
  induction g as [|C g IH]; simpl; intros Hnd HB HJ; [contradiction|].
  unfold allInsts in Hnd. simpl in Hnd. rewrite map_app in Hnd.
  destruct (existsb (hasId (iid J)) (insts C)) eqn:E.
  - destruct HB as [->|HB]; [reflexivity|].
    exfalso. apply existsb_hasId in E.
    eapply NoDup_app_disjoint; [exact Hnd | exact E |].
    apply in_map. apply in_allInsts. eauto.
  - destruct HB as [->|HB].
    + assert (H : existsb (hasId (iid J)) (insts B) = true)
        by (apply existsb_hasId; now apply in_map).
      congruence.
    + apply IH; [|assumption..]. now apply NoDup_app_r in Hnd.
Qed.

(** With distinct identities an identity names one instruction. *)
Lemma iid_inj (g : Function) (J K : Instruction) :
  NoDup (map iid (allInsts g)) ->
  In J (allInsts g) -> In K (allInsts g) -> iid J = iid K -> J = K.
Proof.
  generalize (allInsts g). intros l. induction l as [|x l IH]; simpl;
    intros Hnd HJ HK E; [contradiction|].
  inversion Hnd as [|? ? Hnot Hnd']; subst.
  destruct HJ as [->|HJ], HK as [->|HK]; auto.
  - exfalso. apply Hnot. rewrite E. now apply in_map.
  - exfalso. apply Hnot. rewrite <- E. now apply in_map.
Qed.

(** A block-wise edit that keeps the block names and what each block
    holds of the identity [i] keeps the parent of [i]. *)
Lemma parentOf_map (f : BasicBlock -> BasicBlock) (i : InstId)
  (g : Function) :
  (forall B, In B g ->
             bid (f B) = bid B /\
             existsb (hasId i) (insts (f B)) = existsb (hasId i) (insts B)) ->
  parentOf (map f g) i = parentOf g i.
Proof.
  induction g as [|C g IH]; simpl; intros H; [reflexivity|].
  destruct (H C (or_introl eq_refl)) as [-> ->].
  rewrite IH; auto.
Qed.

Lemma findBlock_map (f : BasicBlock -> BasicBlock) (b : BlockId)
  (g : Function) :
  (forall B, bid (f B) = bid B) ->
  findBlock (map f g) b = option_map f (findBlock g b).
Proof.
  intros H. induction g as [|C g IH]; simpl; [reflexivity|].
  rewrite H. destruct (Nat.eqb (bid C) b); [reflexivity | assumption].
Qed.

Lemma filter_filter (X : Type) (p q : X -> bool) (l : list X) :
  filter p (filter q l) = filter (fun x => q x && p x) l.
Proof.
  induction l as [|x l IH]; simpl; [reflexivity|].
  destruct (q x); simpl; [|assumption].
  destruct (p x); [now f_equal | assumption].
Qed.

Lemma getTerminator_last (b : BlockId) (l : list Instruction)
  (t : Instruction) :
  isTerminator t = true -> getTerminator (mkBB b (l ++ [t])) = Some t.
Proof.
  intros H. unfold getTerminator. simpl. rewrite rev_unit. now rewrite H.
Qed.

Lemma usersOf_spec (g : Function) (I U : Instruction) :
  In U (usersOf g (iid I)) <->
  In U (allInsts g) /\ usesInst (iid I) U = true.
Proof. unfold usersOf. apply filter_In. Qed.

Lemma In_insertBefore (pos : InstId) (I J : Instruction)
  (l : list Instruction) :
  In J l -> In J (insertBefore pos I l).
Proof.
  induction l as [|K l IH]; simpl; [contradiction|].
  destruct (hasId pos K); simpl; intuition.
Qed.

Lemma findBlock_mapInsts (f : list Instruction -> list Instruction)
  (g : Function) (b : BlockId) :
  findBlock (mapInsts f g) b
  = option_map (fun B => mkBB (bid B) (f (insts B))) (findBlock g b).
Proof. unfold mapInsts. now apply findBlock_map. Qed.

(** Moving [I] leaves every instruction with another identity in its
    block. *)
Lemma moveBefore_keeps (I J : Instruction) (pos : InstId) (g : Function)
  (b : BlockId) (B : BasicBlock) :
  iid J <> iid I -> findBlock g b = Some B -> In J (insts B) ->
  exists B', findBlock (moveBefore I pos g) b = Some B' /\ In J (insts B').
Proof.
  intros Hne HB HJ. unfold moveBefore, removeInst.
  rewrite !findBlock_mapInsts, HB. simpl. eexists. split; [reflexivity|].
  simpl. apply In_insertBefore. apply filter_In. split; [assumption|].
  unfold hasId. now apply negb_true_iff, Nat.eqb_neq.
Qed.

(** *** Edits of the graph, seen on the list of all instructions *)

Lemma in_allInsts_mapInsts (f : list Instruction -> list Instruction)
  (g : Function) (J : Instruction) :
  In J (allInsts (mapInsts f g)) <->
  exists B, In B g /\ In J (f (insts B)).
Proof.
  unfold mapInsts. rewrite in_allInsts. split.
  - intros (B' & HB' & HJ). apply in_map_iff in HB'.
    destruct HB' as (B & <- & HB). eauto.
  - intros (B & HB & HJ). exists (mkBB (bid B) (f (insts B))).
    split; [|assumption]. apply in_map_iff. eauto.
Qed.

Lemma in_insertBefore (pos : InstId) (I J : Instruction)
  (l : list Instruction) :
  In J (insertBefore pos I l) -> J = I \/ In J l.
Proof.
  induction l as [|K l IH]; simpl; [contradiction|].
  destruct (hasId pos K); simpl; intuition.
Qed.

Lemma in_insertInstBefore (pos : InstId) (I J : Instruction)
  (g : Function) :
  In J (allInsts (insertInstBefore pos I g)) -> J = I \/ In J (allInsts g).
Proof.
  unfold insertInstBefore.
  rewrite in_allInsts_mapInsts. intros (B & HB & HJ).
  apply in_insertBefore in HJ. destruct HJ as [HJ|HJ]; [now left|].
  right. apply in_allInsts. eauto.
Qed.

Lemma insertInstBefore_keeps (pos : InstId) (I J : Instruction)
  (g : Function) :
  In J (allInsts g) -> In J (allInsts (insertInstBefore pos I g)).
Proof.
  unfold insertInstBefore.
  rewrite in_allInsts_mapInsts, in_allInsts. intros (B & HB & HJ).
  exists B. split; [assumption|]. now apply In_insertBefore.
Qed.

Lemma in_insertAllBefore (pos : InstId) (new : list Instruction)
  (J : Instruction) :
  forall g, In J (allInsts (insertAllBefore pos new g)) ->
            In J new \/ In J (allInsts g).
Proof.
  unfold insertAllBefore.
  induction new as [|K new IH]; simpl; intros g H; [now right|].
  apply IH in H. destruct H as [H|H]; [now left; right|].
  apply in_insertInstBefore in H. destruct H as [->|H]; auto.
Qed.

Lemma insertAllBefore_keeps (pos : InstId) (new : list Instruction)
  (J : Instruction) :
  forall g, In J (allInsts g) ->
            In J (allInsts (insertAllBefore pos new g)).
Proof.
  unfold insertAllBefore.
  induction new as [|K new IH]; simpl; intros g H; [assumption|].
  apply IH. now apply insertInstBefore_keeps.
Qed.

Lemma allInsts_replaceAllUsesWith (old : InstId) (new : Value)
  (g : Function) :
  allInsts (replaceAllUsesWith old new g)
  = map (redirect old new) (allInsts g).
Proof.
  unfold replaceAllUsesWith, mapInsts, allInsts.
  induction g as [|B g IH]; simpl; [reflexivity|].
  now rewrite map_app, IH.
Qed.

Lemma allInsts_removeInst (d : InstId) (g : Function) :
  allInsts (removeInst d g)
  = filter (fun J => negb (hasId d J)) (allInsts g).
Proof.
  unfold removeInst, mapInsts, allInsts.
  induction g as [|B g IH]; simpl; [reflexivity|].
  now rewrite filter_app, IH.
Qed.

Lemma usesInst_redirect (old d : InstId) (new : Value) (J : Instruction) :
  new <> VInst d ->
  usesInst d (redirect old new J) = true ->
  d <> old /\ usesInst d J = true.
Proof.
  intros Hnew. unfold usesInst, redirect. simpl.
  rewrite !existsb_exists. intros (v & Hv & E).
  apply in_map_iff in Hv. destruct Hv as (v0 & <- & Hv0).
  destruct v0 as [k| |]; simpl in *.
  - destruct (Nat.eqb k old) eqn:Ek.
    + exfalso. apply Hnew. destruct new; simpl in E; try discriminate.
      apply Nat.eqb_eq in E. now subst.
    + simpl in E. apply Nat.eqb_eq in E. subst k.
      apply Nat.eqb_neq in Ek. split; [assumption|].
      exists (VInst d). split; [assumption|]. simpl. apply Nat.eqb_refl.
  - discriminate.
  - discriminate.
Qed.

Lemma list_max_ge (l : list nat) (x : nat) : In x l -> x <= list_max l.
Proof.
  induction l as [|y l IH]; simpl; intros H; [contradiction|].
  destruct H as [->|H]; [lia|]. specialize (IH H). lia.
Qed.

Lemma freshId_gt (g : Function) (i : InstId) :
  In i (map iid (allInsts g)) -> i < freshId g.
Proof.
  intros H. unfold freshId.
  apply list_max_ge in H. lia.
Qed.

Lemma insertBefore_at (pos : InstId) (X T : Instruction)
  (pre post : list Instruction) :
  (forall J, In J pre -> iid J <> pos) -> iid T = pos ->
  insertBefore pos X (pre ++ T :: post) = pre ++ X :: T :: post.
Proof.
  induction pre as [|J pre IH]; simpl; intros H E.
  - unfold hasId. now rewrite E, Nat.eqb_refl.
  - unfold hasId. destruct (Nat.eqb (iid J) pos) eqn:E'.
    + apply Nat.eqb_eq in E'. exfalso. eapply H; eauto.
    + f_equal. apply IH; auto.
Qed.

(** The instructions of one block have distinct identities when those of
    the function have. *)
Lemma block_NoDup (g : Function) (B : BasicBlock) :
  NoDup (map iid (allInsts g)) -> In B g -> NoDup (map iid (insts B)).
Proof.
  unfold allInsts. induction g as [|C g IH]; simpl; intros Hnd HB;
    [contradiction|].
  rewrite map_app in Hnd. destruct HB as [->|HB].
  - now apply NoDup_app_l in Hnd.
  - apply IH; [|assumption]. now apply NoDup_app_r in Hnd.
Qed.

Lemma find_hasId (i : InstId) (X : Instruction) (l : list Instruction) :
  In X l -> iid X = i ->
  (forall J, In J l -> iid J = i -> J = X) ->
  find (hasId i) l = Some X.
Proof.
  intros HX E Huniq. destruct (find (hasId i) l) as [J|] eqn:F.
  - apply find_some in F. destruct F as [HJ HJi].
    apply hasId_true in HJi. now rewrite (Huniq J HJ HJi).
  - exfalso. pose proof (find_none _ _ F X HX) as H.
    unfold hasId in H. rewrite E, Nat.eqb_refl in H. discriminate.
Qed.

(** The first instruction that is no PHI node stands right behind the
    PHI nodes that open the block. *)
Lemma getFirstNonPHI_split (B : BasicBlock) (X : Instruction) :
  getFirstNonPHI B = Some X ->
  exists post, insts B = phis (insts B) ++ X :: post.
Proof.
  unfold getFirstNonPHI. generalize (insts B). intros l.
  induction l as [|J l IH]; simpl; [discriminate|].
  destruct (isPHINode J); simpl.
  - intros H. destruct (IH H) as [post E]. exists post. now f_equal.
  - intros H. injection H as <-. now exists l.
Qed.

Lemma Value_eqb_eq (a b : Value) : Value_eqb a b = true <-> a = b.
Proof.
  destruct a, b; simpl; split; intros H; try discriminate;
    try (apply Nat.eqb_eq in H; now subst);
    try (apply Z.eqb_eq in H; now subst);
    try (injection H as ->; apply Nat.eqb_refl);
    try (injection H as ->; apply Z.eqb_refl).
Qed.

Lemma replaceOperand_other (old : InstId) (new v : Value) :
  v <> VInst old -> replaceOperand old new v = v.
Proof.
  destruct v as [k| |]; simpl; try reflexivity.
  intros H. destruct (Nat.eqb k old) eqn:E; [|reflexivity].
  apply Nat.eqb_eq in E. now subst.
Qed.

Lemma bid_mapInsts (f : list Instruction -> list Instruction)
  (g : Function) : map bid (mapInsts f g) = map bid g.
Proof. unfold mapInsts. rewrite map_map. reflexivity. Qed.

Lemma insertBefore_absent (pos : InstId) (I : Instruction)
  (l : list Instruction) :
  (forall J, In J l -> iid J <> pos) -> insertBefore pos I l = l.
Proof.
  induction l as [|J l IH]; simpl; intros H; [reflexivity|].
  unfold hasId. destruct (Nat.eqb (iid J) pos) eqn:E.
  - apply Nat.eqb_eq in E. exfalso. eapply H; eauto.
  - f_equal. apply IH. auto.
Qed.

Lemma getTerminator_In (B : BasicBlock) (t : Instruction) :
  getTerminator B = Some t -> In t (insts B).
Proof.
  unfold getTerminator. destruct (rev (insts B)) as [|x l] eqn:E;
    [discriminate|].
  destruct (isTerminator x); [|discriminate].
  intros H. injection H as ->. apply in_rev. rewrite E. now left.
Qed.

(** A block that does not hold [pos] is not touched by an insertion in
    front of [pos]. *)
Lemma findBlock_insertAllBefore (pos : InstId) (new : list Instruction)
  (h : BlockId) (B : BasicBlock) :
  ~ In pos (map iid (insts B)) ->
  forall g, findBlock g h = Some B ->
            findBlock (insertAllBefore pos new g) h = Some B.
Proof.
  intros Hpos. unfold insertAllBefore.
  induction new as [|J new IH]; simpl; intros g HB; [assumption|].
  apply IH. unfold insertInstBefore. rewrite findBlock_mapInsts, HB.
  simpl. rewrite insertBefore_absent.
  - destruct (findBlock_Some _ _ HB) as [_ <-]. now destruct B.
  - intros K HK E. apply Hpos. rewrite <- E. now apply in_map.
Qed.

End IRFacts.

(** ** The invariant set of SimpleLICM *)

Module LICMFacts.
Import IR IRFacts SimpleLICM.

Section Facts.

Variable A : Analyses.
Variable g : Function.
Variable L : Loop.

Lemma count_In (S : list Instruction) (i : InstId) :
  count S i = true <-> In i (map iid S).
Proof. apply existsb_hasId. Qed.

Lemma count_app (S T : list Instruction) (i : InstId) :
  count (S ++ T) i = count S i || count T i.
Proof. unfold count. apply existsb_app. Qed.

Lemma insert_count (S : list Instruction) (I : Instruction) (i : InstId) :
  count (insert S I) i = count S i || Nat.eqb (iid I) i.
Proof.
  unfold insert. destruct (count S (iid I)) eqn:E.
  - destruct (Nat.eqb (iid I) i) eqn:E'.
    + apply Nat.eqb_eq in E'. subst. rewrite E. reflexivity.
    + now rewrite orb_false_r.
  - rewrite count_app. simpl. unfold hasId. now rewrite orb_false_r.
Qed.

Lemma insert_In (S : list Instruction) (I J : Instruction) :
  In J (insert S I) -> In J S \/ J = I.
Proof.
  unfold insert. destruct (count S (iid I)); [auto|].
  intros H. apply in_app_or in H. simpl in H. intuition.
Qed.

Lemma insert_incl (S : list Instruction) (I J : Instruction) :
  In J S -> In J (insert S I).
Proof.
  unfold insert. destruct (count S (iid I)); [auto|].
  intros H. apply in_or_app. now left.
Qed.

Lemma loopInsts_In (I : Instruction) :
  In I (loopInsts g L) <->
  exists b B, In b (getBlocks L) /\ findBlock g b = Some B /\ In I (insts B).
Proof.
  unfold loopInsts. rewrite in_flat_map. split.
  - intros (b & Hb & HI). destruct (findBlock g b) as [B|] eqn:E;
      [eauto | contradiction].
  - intros (b & B & Hb & E & HI). exists b. rewrite E. auto.
Qed.

Lemma loopInsts_allInsts (I : Instruction) :
  In I (loopInsts g L) -> In I (allInsts g).
Proof.
  intros H. apply loopInsts_In in H. destruct H as (b & B & _ & E & HI).
  apply findBlock_Some in E. apply in_allInsts. exists B. tauto.
Qed.

(** In a well-formed graph [L.contains(I)] says that [I] is one of the
    instructions the seeding scan walks over. *)
Lemma contains_loopInsts (I : Instruction) :
  wellFormed g -> In I (allInsts g) ->
  (contains g L (iid I) = true <-> In I (loopInsts g L)).
Proof.
  intros [Hi Hb] HI. apply in_allInsts in HI. destruct HI as (B & HB & HIB).
  unfold contains. rewrite (parentOf_In g B I Hi HB HIB).
  rewrite existsb_eqb_In, loopInsts_In. split.
  - intros H. exists (bid B), B. auto using findBlock_In.
  - intros (b & B' & Hb' & E & HI').
    apply findBlock_Some in E. destruct E as [HB' <-].
    replace (bid B) with (bid B'); [assumption|].
    pose proof (parentOf_In g B' I Hi HB' HI') as P1.
    pose proof (parentOf_In g B I Hi HB HIB) as P2. congruence.
Qed.

(** *** The worklist loop returns *)

Local Abbreviation bounded := (SimpleLICM.bounded g).
Local Abbreviation paced := (SimpleLICM.paced g).
Local Abbreviation pure := (SimpleLICM.pure A).
Local Abbreviation sound := (SimpleLICM.sound A g L).
Local Abbreviation pending := (SimpleLICM.pending A g L).

Lemma bounded_length (S : list Instruction) :
  bounded S -> length S <= length (allInsts g).
Proof.
  intros [Hnd Hincl]. rewrite <- (length_map iid S).
  rewrite <- (length_map iid (allInsts g)).
  now apply NoDup_incl_length.
Qed.

Lemma bounded_insert (S : list Instruction) (I : Instruction) :
  bounded S -> In (iid I) (map iid (allInsts g)) -> bounded (insert S I).
Proof.
  intros [Hnd Hincl] HI. unfold insert.
  destruct (count S (iid I)) eqn:E; [now split|].
  split.
  - rewrite map_app. simpl. apply NoDup_snoc; [assumption|].
    intros H. apply count_In in H. congruence.
  - rewrite map_app. intros x Hx. apply in_app_or in Hx. simpl in Hx.
    destruct Hx as [Hx|[<-|[]]]; auto.
Qed.


Lemma fold_visitUser_inv
  (P : list Instruction * list Instruction -> Prop) (us : list Instruction) :
  (forall st U, In U us -> P st -> P (visitUser A g L st U)) ->
  forall st, P st -> P (fold_left (visitUser A g L) us st).
Proof.
  induction us as [|U us IH]; simpl; intros Hstep st Hst; [assumption|].
  apply IH; auto.
Qed.

Lemma fold_seedStep_inv
  (P : list Instruction * list Instruction -> Prop) (l : list Instruction) :
  (forall st I, In I l -> P st -> P (seedStep A g L st I)) ->
  forall st, P st -> P (fold_left (seedStep A g L) l st).
Proof.
  induction l as [|I l IH]; simpl; intros Hstep st Hst; [assumption|].
  apply IH; auto.
Qed.

(** A round of the worklist loop keeps [Inv]; so the set the loop returns
    satisfies it, with an empty worklist. *)
Lemma iterate_inv (Inv : list Instruction -> list Instruction -> Prop) :
  (forall S X W,
      Inv S (X :: W) ->
      let st := fold_left (visitUser A g L) (users A g X) (S, W) in
      Inv (fst st) (snd st)) ->
  forall fuel S W S',
    Inv S W -> iterate A fuel g L S W = Some S' -> Inv S' [].
Proof.
  intros Hround fuel. induction fuel as [|fuel IH]; intros S W S' HI.
  - destruct W; simpl; [|discriminate]. intros H. now injection H as <-.
  - destruct W as [|X W]; simpl.
    + intros H. now injection H as <-.
    + apply IH. now apply Hround.
Qed.

Lemma visitUser_paced (S0 W0 : list Instruction)
  (st : list Instruction * list Instruction) (U : Instruction) :
  paced S0 W0 st -> paced S0 W0 (visitUser A g L st U).
Proof.
  intros [Hb Hl]. unfold visitUser.
  destruct (contains g L (iid U)) eqn:Ec; simpl; [|now split].
  destruct (count (fst st) (iid U)) eqn:En; simpl; [now split|].
  destruct (isPHINode U || mayReadOrWriteMemory A U); [now split|].
  destruct (allOperandsSafe g L (fst st) U); [|now split].
  unfold contains in Ec. destruct (parentOf g (iid U)) eqn:Ep; [|discriminate].
  split; simpl.
  - apply bounded_insert; [assumption|]. eapply parentOf_in_graph; eauto.
  - unfold insert. rewrite En, length_app. simpl. lia.
Qed.

Lemma iterate_total (fuel : nat) :
  forall S W,
    bounded S ->
    length W + (length (allInsts g) - length S) <= fuel ->
    exists S', iterate A fuel g L S W = Some S'.
Proof.
  induction fuel as [|fuel IH]; intros S W Hb Hm.
  - destruct W; simpl in *; [eauto | lia].
  - destruct W as [|X W]; simpl; [eauto|].
    assert (P : paced S W (fold_left (visitUser A g L) (users A g X) (S, W))).
    { apply fold_visitUser_inv; [intros; now apply visitUser_paced|].
      split; simpl; [assumption | lia]. }
    destruct P as [Hb' Hl]. apply IH; [assumption|].
    pose proof (bounded_length Hb'). pose proof (bounded_length Hb).
    simpl in Hm. lia.
Qed.

Lemma seed_bounded : bounded (fst (seed A g L)).
Proof.
  unfold seed. apply fold_seedStep_inv with (P := fun st => bounded (fst st)).
  - intros st I HI Hb. unfold seedStep.
    destruct (isPHINode I || mayReadOrWriteMemory A I); [assumption|].
    destruct (allOperandsInvariant g L I); [|assumption]. simpl.
    apply bounded_insert; [assumption|].
    apply in_map. now apply loopInsts_allInsts.
  - simpl. split; [constructor | intros x []].
Qed.

Lemma invariantSet_bounded (S : list Instruction) :
  invariantSet A g L = Some S -> bounded S.
Proof.
  unfold invariantSet. intros H.
  eapply (iterate_inv (fun S _ => bounded S)); [| |exact H].
  - intros S0 X W Hb.
    apply fold_visitUser_inv with (P := fun st => bounded (fst st));
      [|assumption].
    intros st U _ Hst.
    assert (P : paced (fst st) (snd st) st) by (split; [assumption | lia]).
    now destruct (visitUser_paced U P).
  - apply seed_bounded.
Qed.

(** The worklist loop of the pass returns: the fuel is never used up. *)
Lemma invariantSet_total : exists S, invariantSet A g L = Some S.
Proof.
  unfold invariantSet. apply iterate_total; [apply seed_bounded|]. lia.
Qed.


(** *** What the set holds *)

Lemma forallb_false (X : Type) (f : X -> bool) (l : list X) :
  forallb f l = false -> exists x, In x l /\ f x = false.
Proof.
  induction l as [|x l IH]; simpl; [discriminate|].
  destruct (f x) eqn:E; simpl.
  - intros H. destruct (IH H) as (y & ? & ?). eauto.
  - eauto.
Qed.

Local Abbreviation operandsIn := (SimpleLICM.operandsIn g L).
Local Abbreviation closedPrefixes := (SimpleLICM.closedPrefixes g L).

Lemma allOperandsSafe_spec (S : list Instruction) (U : Instruction) :
  allOperandsSafe g L S U = true <-> operandsIn S U.
Proof.
  unfold allOperandsSafe, SimpleLICM.operandsIn. rewrite forallb_forall. split.
  - intros H k Hk Hc. specialize (H _ Hk). simpl in H. rewrite Hc in H.
    simpl in H. now destruct (count S k).
  - intros H [k| |] Hv; [|reflexivity..].
    destruct (contains g L k) eqn:Hc; [|reflexivity].
    now rewrite (H k Hv Hc).
Qed.

Lemma allOperandsInvariant_spec (U : Instruction) :
  allOperandsInvariant g L U = true <->
  forall k, In (VInst k) (operands U) -> contains g L k = false.
Proof.
  unfold allOperandsInvariant. rewrite forallb_forall. split.
  - intros H k Hk. specialize (H _ Hk). simpl in H.
    now destruct (contains g L k).
  - intros H [k| |] Hv; [|reflexivity..]. now rewrite (H k Hv).
Qed.

Lemma visitUser_pure (st : list Instruction * list Instruction)
  (U : Instruction) :
  pure (fst st) -> pure (fst (visitUser A g L st U)).
Proof.
  intros Hp. unfold visitUser.
  destruct (negb (contains g L (iid U)) || count (fst st) (iid U));
    simpl; [assumption|].
  destruct (isPHINode U) eqn:E1; simpl; [assumption|].
  destruct (mayReadOrWriteMemory A U) eqn:E2; simpl; [assumption|].
  destruct (allOperandsSafe g L (fst st) U); [|assumption]. simpl.
  intros J HJ. apply insert_In in HJ. destruct HJ as [HJ| ->]; auto.
Qed.

Lemma seed_pure : pure (fst (seed A g L)).
Proof.
  unfold seed. apply fold_seedStep_inv with (P := fun st => pure (fst st)).
  - intros st I _ Hp. unfold seedStep.
    destruct (isPHINode I) eqn:E1; simpl; [assumption|].
    destruct (mayReadOrWriteMemory A I) eqn:E2; simpl; [assumption|].
    destruct (allOperandsInvariant g L I); [|assumption]. simpl.
    intros J HJ. apply insert_In in HJ. destruct HJ as [HJ| ->]; auto.
  - intros J [].
Qed.

Lemma invariantSet_pure (S : list Instruction) :
  invariantSet A g L = Some S -> pure S.
Proof.
  unfold invariantSet. intros H.
  eapply (iterate_inv (fun S _ => pure S)); [| |exact H].
  - intros S0 X W Hp.
    apply fold_visitUser_inv with (P := fun st => pure (fst st));
      [intros; now apply visitUser_pure | assumption].
  - apply seed_pure.
Qed.


Lemma closedPrefixes_snoc (S : list Instruction) (U : Instruction) :
  closedPrefixes S -> operandsIn S U -> closedPrefixes (S ++ [U]).
Proof.
  intros Hc HU n J Hn.
  destruct (Nat.lt_ge_cases n (length S)) as [Hlt|Hge].
  - rewrite nth_error_app1 in Hn by assumption.
    rewrite firstn_app. replace (n - length S) with 0 by lia.
    simpl. rewrite app_nil_r. now apply Hc.
  - rewrite nth_error_app2 in Hn by assumption.
    destruct (n - length S) as [|m] eqn:E.
    + simpl in Hn. injection Hn as <-.
      replace n with (length S) by lia.
      rewrite firstn_app, Nat.sub_diag, firstn_all. simpl.
      now rewrite app_nil_r.
    + simpl in Hn. now destruct m.
Qed.

Lemma closedPrefixes_insert (S : list Instruction) (U : Instruction) :
  closedPrefixes S -> operandsIn S U -> closedPrefixes (insert S U).
Proof.
  intros Hc HU. unfold insert. destruct (count S (iid U)); [assumption|].
  now apply closedPrefixes_snoc.
Qed.

Lemma operandsIn_nil (U : Instruction) :
  allOperandsInvariant g L U = true -> forall S, operandsIn S U.
Proof.
  intros H S k Hk Hc. apply allOperandsInvariant_spec with (k := k) in H;
    [congruence | assumption].
Qed.

Lemma invariantSet_closedPrefixes (S : list Instruction) :
  invariantSet A g L = Some S -> closedPrefixes S.
Proof.
  unfold invariantSet. intros H.
  eapply (iterate_inv (fun S _ => closedPrefixes S)); [| |exact H].
  - intros S0 X W Hp.
    apply fold_visitUser_inv with (P := fun st => closedPrefixes (fst st));
      [|assumption].
    intros st U _ Hc. unfold visitUser.
    destruct (negb (contains g L (iid U)) || count (fst st) (iid U)
              || isPHINode U || mayReadOrWriteMemory A U); [assumption|].
    destruct (allOperandsSafe g L (fst st) U) eqn:E; [|assumption]. simpl.
    apply closedPrefixes_insert; [assumption|].
    now apply allOperandsSafe_spec.
  - unfold seed.
    apply fold_seedStep_inv with (P := fun st => closedPrefixes (fst st)).
    + intros st I _ Hc. unfold seedStep.
      destruct (isPHINode I || mayReadOrWriteMemory A I); [assumption|].
      destruct (allOperandsInvariant g L I) eqn:E; [|assumption]. simpl.
      apply closedPrefixes_insert; [assumption|]. now apply operandsIn_nil.
    + intros [|n] J Hn; discriminate.
Qed.

Lemma firstn_count (S : list Instruction) (n : nat) (k : InstId) :
  count (firstn n S) k = true -> count S k = true.
Proof.
  rewrite !count_In. intros H. apply in_map_iff in H.
  destruct H as (J & <- & HJ). apply in_map.
  rewrite <- (firstn_skipn n S). apply in_or_app. now left.
Qed.

Lemma closedPrefixes_operandsIn (S : list Instruction) (J : Instruction) :
  closedPrefixes S -> In J S -> operandsIn S J.
Proof.
  intros Hc HJ k Hk Hck. apply In_nth_error in HJ. destruct HJ as [n Hn].
  eapply firstn_count. eapply Hc; eauto.
Qed.


(** *** The set is the closure *)

Section Closure.

Hypothesis Hwf : wellFormed g.

(** [I->users()] lists the instructions of the graph that have [I] as an
    operand, in whatever order and however often. *)
Hypothesis Husers : forall I U,
  In U (users A g I) <-> In U (allInsts g) /\ usesInst (iid I) U = true.

Lemma usesInst_spec (i : InstId) (U : Instruction) :
  usesInst i U = true <-> In (VInst i) (operands U).
Proof.
  unfold usesInst. rewrite existsb_exists. split.
  - intros (v & Hv & E). destruct v; simpl in E; try discriminate.
    apply Nat.eqb_eq in E. now subst.
  - intros H. exists (VInst i). split; [assumption|]. simpl.
    apply Nat.eqb_refl.
Qed.

Lemma sound_insert (S : list Instruction) (U : Instruction) :
  sound S -> In U (loopInsts g L) ->
  isPHINode U = false -> mayReadOrWriteMemory A U = false ->
  operandsIn S U -> sound (insert S U).
Proof.
  intros Hs HU H1 H2 Hop J HJ. apply insert_In in HJ.
  destruct HJ as [HJ| ->]; [auto|]. split; [assumption|].
  constructor; try assumption.
  intros k Hk Hc. specialize (Hop k Hk Hc). apply count_In in Hop.
  apply in_map_iff in Hop. destruct Hop as (K & <- & HK).
  now apply Hs.
Qed.

Lemma invariantSet_sound (S : list Instruction) :
  invariantSet A g L = Some S -> sound S.
Proof.
  unfold invariantSet. intros H.
  eapply (iterate_inv (fun S _ => sound S)); [| |exact H].
  - intros S0 X W Hs.
    apply fold_visitUser_inv with (P := fun st => sound (fst st));
      [|assumption].
    intros st U HU Hc. apply Husers in HU. destruct HU as [HU _].
    unfold visitUser.
    destruct (contains g L (iid U)) eqn:Ec; simpl; [|assumption].
    destruct (count (fst st) (iid U)); simpl; [assumption|].
    destruct (isPHINode U) eqn:E1; simpl; [assumption|].
    destruct (mayReadOrWriteMemory A U) eqn:E2; simpl; [assumption|].
    destruct (allOperandsSafe g L (fst st) U) eqn:E; [|assumption]. simpl.
    apply sound_insert; try assumption.
    + now apply contains_loopInsts.
    + now apply allOperandsSafe_spec.
  - unfold seed.
    apply fold_seedStep_inv with (P := fun st => sound (fst st)).
    + intros st I HI Hc. unfold seedStep.
      destruct (isPHINode I) eqn:E1; simpl; [assumption|].
      destruct (mayReadOrWriteMemory A I) eqn:E2; simpl; [assumption|].
      destruct (allOperandsInvariant g L I) eqn:E; [|assumption]. simpl.
      apply sound_insert; try assumption. now apply operandsIn_nil.
    + intros J [].
Qed.

Lemma visitUser_grows (st : list Instruction * list Instruction)
  (U : Instruction) (i : InstId) :
  (count (fst st) i = true -> count (fst (visitUser A g L st U)) i = true)
  /\ (count (snd st) i = true ->
      count (snd (visitUser A g L st U)) i = true)
  /\ (count (fst st) i = false ->
      count (fst (visitUser A g L st U)) i = true ->
      count (snd (visitUser A g L st U)) i = true).
Proof.
  unfold visitUser.
  destruct (negb (contains g L (iid U)) || count (fst st) (iid U)
            || isPHINode U || mayReadOrWriteMemory A U);
    [repeat split; auto; congruence|].
  destruct (allOperandsSafe g L (fst st) U);
    [|repeat split; auto; congruence].
  simpl. rewrite insert_count. unfold hasId. repeat split.
  - intros ->. reflexivity.
  - intros ->. apply orb_true_r.
  - intros -> H. simpl in H. now rewrite H.
Qed.

Lemma visitUser_pending (S W todo : list Instruction) (U0 : Instruction) :
  pending S W (U0 :: todo) ->
  pending (fst (visitUser A g L (S, W) U0))
          (snd (visitUser A g L (S, W) U0)) todo.
Proof.
  intros Hp U HU H1 H2 Hn Hop.
  destruct (visitUser_grows (S, W) U0 (iid U)) as (G1 & _ & _).
  simpl in G1.
  assert (HnS : count S (iid U) = false).
  { destruct (count S (iid U)); [|reflexivity]. now rewrite G1 in Hn. }
  destruct (allOperandsSafe g L S U) eqn:Es.
  - apply allOperandsSafe_spec in Es.
    destruct (Hp U HU H1 H2 HnS Es) as [(k & Hk & Hc & Hw)|[->|Hin]].
    + left. exists k. repeat split; try assumption.
      destruct (visitUser_grows (S, W) U0 k) as (_ & G2 & _). now apply G2.
    + exfalso. unfold visitUser in Hn. simpl in Hn.
      assert (Hc : contains g L (iid U) = true).
      { apply contains_loopInsts; [assumption| |assumption].
        now apply loopInsts_allInsts. }
      rewrite Hc, HnS, H1, H2 in Hn. simpl in Hn.
      apply allOperandsSafe_spec in Es. rewrite Es in Hn. simpl in Hn.
      rewrite insert_count, Nat.eqb_refl, orb_true_r in Hn. discriminate.
    + now right.
  - left. unfold allOperandsSafe in Es. apply forallb_false in Es.
    destruct Es as ([k| |] & Hk & E); try discriminate.
    destruct (contains g L k) eqn:Hc; [|discriminate].
    destruct (count S k) eqn:Hs; [discriminate|].
    exists k. repeat split; try assumption.
    destruct (visitUser_grows (S, W) U0 k) as (_ & _ & G3).
    apply G3; [assumption|]. now apply Hop.
Qed.

Lemma round_pending (todo : list Instruction) :
  forall S W,
    pending S W todo ->
    let st := fold_left (visitUser A g L) todo (S, W) in
    pending (fst st) (snd st) [].
Proof.
  induction todo as [|U0 todo IH]; simpl; intros S W Hp; [assumption|].
  apply visitUser_pending in Hp.
  destruct (visitUser A g L (S, W) U0) as [S1 W1]. now apply IH.
Qed.

Lemma seed_same (i : InstId) :
  count (snd (seed A g L)) i = count (fst (seed A g L)) i.
Proof.
  unfold seed.
  apply fold_seedStep_inv
    with (P := fun st => count (snd st) i = count (fst st) i);
    [|reflexivity].
  intros st I _ E. unfold seedStep.
  destruct (isPHINode I || mayReadOrWriteMemory A I); [assumption|].
  destruct (allOperandsInvariant g L I); [|assumption].
  simpl. rewrite insert_count, E. unfold hasId. apply orb_comm.
Qed.

Lemma fold_seedStep_seeds (l : list Instruction) :
  forall st,
    let st' := fold_left (seedStep A g L) l st in
    (forall i, count (fst st) i = true -> count (fst st') i = true) /\
    (forall U, In U l -> isPHINode U = false ->
               mayReadOrWriteMemory A U = false ->
               allOperandsInvariant g L U = true ->
               count (fst st') (iid U) = true).
Proof.
  induction l as [|I l IH]; simpl; intros st; [split; [auto|contradiction]|].
  destruct (IH (seedStep A g L st I)) as [Hm Hs].
  assert (Hg : forall i, count (fst st) i = true ->
                         count (fst (seedStep A g L st I)) i = true).
  { intros i Hi. unfold seedStep.
    destruct (isPHINode I || mayReadOrWriteMemory A I); [assumption|].
    destruct (allOperandsInvariant g L I); [|assumption].
    simpl. now rewrite insert_count, Hi. }
  split; [auto|].
  intros U [->|HU] H1 H2 H3; [|auto].
  apply Hm. unfold seedStep. rewrite H1, H2, H3. simpl.
  now rewrite insert_count, Nat.eqb_refl, orb_true_r.
Qed.

Lemma seed_pending :
  pending (fst (seed A g L)) (snd (seed A g L)) [].
Proof.
  intros U HU H1 H2 Hn Hop. left.
  destruct (allOperandsInvariant g L U) eqn:E.
  - exfalso.
    destruct (fold_seedStep_seeds (loopInsts g L) ([], [])) as [_ Hs].
    specialize (Hs U HU H1 H2 E). unfold seed in Hn. congruence.
  - unfold allOperandsInvariant in E. apply forallb_false in E.
    destruct E as ([k| |] & Hk & E); try discriminate.
    destruct (contains g L k) eqn:Hc; [|discriminate].
    exists k. repeat split; try assumption.
    rewrite seed_same. now apply Hop.
Qed.

Lemma invariantSet_complete (S : list Instruction) :
  invariantSet A g L = Some S ->
  forall i, Invariant A g L i -> count S i = true.
Proof.
  unfold invariantSet. intros H.
  assert (Hp : pending S [] []).
  { eapply (iterate_inv (fun S W => pending S W [])); [| |exact H].
    - intros S0 X W Hp. apply round_pending.
      intros U HU H1 H2 Hn Hop.
      destruct (Hp U HU H1 H2 Hn Hop) as [(k & Hk & Hc & Hw)|[]].
      simpl in Hw. apply orb_true_iff in Hw. destruct Hw as [Hw|Hw].
      + right. apply Husers. split; [now apply loopInsts_allInsts|].
        apply hasId_true in Hw. rewrite Hw. now apply usesInst_spec.
      + left. eauto.
    - apply seed_pending. }
  intros i Hi. induction Hi as [I HI H1 H2 _ IH].
  destruct (count S (iid I)) eqn:E; [reflexivity|].
  destruct (Hp I HI H1 H2 E IH) as [(k & _ & _ & Hw)|[]]. discriminate.
Qed.

End Closure.


(** *** What the hoisting loop leaves alone *)

Lemma fold_hoist_keeps (ph : BlockId) (J : Instruction) (b : BlockId)
  (xs : list Instruction) :
  (forall x, In x xs -> iid J <> iid x) ->
  forall gc B,
    findBlock gc b = Some B -> In J (insts B) ->
    exists B', findBlock (fold_left (hoist A ph L) xs gc) b = Some B' /\
               In J (insts B').
Proof.
  induction xs as [|x xs IH]; simpl; intros Hne gc B HB HJ; [eauto|].
  assert (Hx : exists B', findBlock (hoist A ph L gc x) b = Some B' /\
                          In J (insts B')).
  { unfold hoist.
    destruct (isSafeToSpeculativelyExecute A x
              && dominatesAllLoopExits A gc x L); [|eauto].
    destruct (findBlock gc ph) as [PH|]; [|eauto].
    destruct (getTerminator PH) as [t|]; [|eauto].
    apply moveBefore_keeps with (B := B); auto. }
  destruct Hx as (B' & HB' & HJ'). eapply IH; eauto.
Qed.

Lemma fold_hoist_unchanged (ph : BlockId) (xs : list Instruction) :
  (forall x, In x xs ->
             isSafeToSpeculativelyExecute A x
             && dominatesAllLoopExits A g x L = false) ->
  fold_left (hoist A ph L) xs g = g.
Proof.
  induction xs as [|x xs IH]; simpl; intros H; [reflexivity|].
  unfold hoist at 2. rewrite (H x (or_introl eq_refl)). auto.
Qed.

(** *** The hoisting loop in closed form *)

Section Hoisting.

Variable ph : BlockId.
Variable PH : BasicBlock.
Variable init : list Instruction.
Variable t : Instruction.

Hypothesis Hwf : wellFormed g.
Hypothesis HPH : findBlock g ph = Some PH.
Hypothesis Hinit : insts PH = init ++ [t].
Hypothesis Hterm : isTerminator t = true.
Hypothesis Hout : ~ In ph (getBlocks L).

Let test (I : Instruction) : bool :=
  isSafeToSpeculativelyExecute A I && dominatesAllLoopExits A g I L.

Lemma preheader_block (B : BasicBlock) :
  In B g -> bid B = ph -> B = PH.
Proof.
  intros HB E. destruct Hwf as [_ Hb].
  pose proof (findBlock_In g B Hb HB) as F. rewrite E in F. congruence.
Qed.

Lemma preheader_in : In PH g /\ bid PH = ph.
Proof. now apply findBlock_Some. Qed.

(** An instruction of the loop shares its identity with no instruction
    of the preheader. *)
Lemma loop_not_preheader (x J : Instruction) :
  In x (loopInsts g L) -> In J (insts PH) -> iid J <> iid x.
Proof.
  intros Hx HJ E. apply loopInsts_In in Hx.
  destruct Hx as (b & B & Hb & F & HxB). apply findBlock_Some in F.
  destruct F as [HB <-]. destruct Hwf as [Hi _].
  destruct preheader_in as [HP EP].
  pose proof (parentOf_In g B x Hi HB HxB) as P1.
  pose proof (parentOf_In g PH J Hi HP HJ) as P2.
  rewrite E in P2. apply Hout. congruence.
Qed.

Lemma terminator_unique (B : BasicBlock) (J : Instruction) :
  In B g -> In J (insts B) -> iid J = iid t -> B = PH /\ J = t.
Proof.
  intros HB HJ E. destruct Hwf as [Hi Hb]. destruct preheader_in as [HP EP].
  assert (Ht : In t (insts PH)) by (rewrite Hinit; apply in_or_app; simpl; auto).
  assert (J = t).
  { apply (iid_inj g); auto; apply in_allInsts; eauto. }
  subst J. split; [|reflexivity].
  pose proof (parentOf_In g B t Hi HB HJ) as P1.
  pose proof (parentOf_In g PH t Hi HP Ht) as P2.
  apply preheader_block; [assumption|]. congruence.
Qed.

Lemma init_not_terminator (J : Instruction) :
  In J init -> iid J <> iid t.
Proof.
  intros HJ E. destruct Hwf as [Hi _]. destruct preheader_in as [HP _].
  assert (Hsub : NoDup (map iid (insts PH))).
  { clear - Hi HP. unfold allInsts in Hi. induction g as [|C g' IH];
      simpl in *; [contradiction|].
    rewrite map_app in Hi. destruct HP as [->|HP].
    - now apply NoDup_app_l in Hi.
    - apply IH; [|assumption]. now apply NoDup_app_r in Hi. }
  rewrite Hinit, map_app in Hsub. simpl in Hsub.
  eapply NoDup_app_disjoint; [exact Hsub | apply in_map; exact HJ |].
  simpl. auto.
Qed.

Lemma insertBefore_last (pos : InstId) (I T : Instruction)
  (l : list Instruction) :
  (forall J, In J l -> iid J <> pos) -> iid T = pos ->
  insertBefore pos I (l ++ [T]) = l ++ [I; T].
Proof.
  induction l as [|J l IH]; simpl; intros H E.
  - unfold hasId. now rewrite E, Nat.eqb_refl.
  - unfold hasId. destruct (Nat.eqb (iid J) pos) eqn:E'.
    + apply Nat.eqb_eq in E'. exfalso. eapply H; eauto.
    + f_equal. apply IH; auto.
Qed.

Lemma filter_absent (i : InstId) (l : list Instruction) :
  (forall J, In J l -> iid J <> i) ->
  filter (fun J => negb (hasId i J)) l = l.
Proof.
  induction l as [|J l IH]; simpl; intros H; [reflexivity|].
  unfold hasId at 1. destruct (Nat.eqb (iid J) i) eqn:E; simpl.
  - apply Nat.eqb_eq in E. exfalso. eapply H; eauto.
  - f_equal. apply IH. auto.
Qed.

Lemma hoistedGraph_nil : hoistedGraph ph init t [] g = g.
Proof.
  unfold hoistedGraph. rewrite <- (map_id g) at 2. apply map_ext_in.
  intros B HB. unfold relocate. destruct (Nat.eqb (bid B) ph) eqn:E.
  - apply Nat.eqb_eq in E. rewrite (preheader_block B HB E).
    simpl. rewrite <- Hinit. destruct preheader_in as [_ <-]. now destruct PH.
  - simpl. destruct B as [b l]. simpl. f_equal.
    clear HB E. induction l as [|J l IH]; simpl; [reflexivity|].
    f_equal. exact IH.
Qed.


Lemma relocate_bid (H : list Instruction) (B : BasicBlock) :
  bid (relocate ph init t H B) = bid B.
Proof. unfold relocate. now destruct (Nat.eqb (bid B) ph). Qed.

Lemma existsb_filter_keep (H : list Instruction) (i : InstId)
  (l : list Instruction) :
  count H i = false ->
  existsb (hasId i) (filter (fun J => negb (count H (iid J))) l)
  = existsb (hasId i) l.
Proof.
  intros Hc. induction l as [|J l IH]; simpl; [reflexivity|].
  destruct (hasId i J) eqn:E.
  - apply hasId_true in E. rewrite E, Hc. simpl.
    unfold hasId. now rewrite E, Nat.eqb_refl.
  - destruct (negb (count H (iid J))); simpl; [now rewrite E|assumption].
Qed.

Lemma parentOf_hoisted (H : list Instruction) (i : InstId) :
  count H i = false ->
  parentOf (hoistedGraph ph init t H g) i = parentOf g i.
Proof.
  intros Hc. unfold hoistedGraph. apply parentOf_map.
  intros B HB. split; [apply relocate_bid|].
  unfold relocate. destruct (Nat.eqb (bid B) ph) eqn:E; simpl.
  - apply Nat.eqb_eq in E. rewrite (preheader_block B HB E), Hinit.
    rewrite !existsb_app. fold (count H i). rewrite Hc. reflexivity.
  - now apply existsb_filter_keep.
Qed.

Lemma findBlock_hoisted (H : list Instruction) :
  findBlock (hoistedGraph ph init t H g) ph
  = Some (mkBB ph (init ++ H ++ [t])).
Proof.
  unfold hoistedGraph. rewrite findBlock_map by apply relocate_bid.
  rewrite HPH. simpl. unfold relocate.
  destruct preheader_in as [_ E]. now rewrite E, Nat.eqb_refl.
Qed.

Lemma moveBefore_hoisted (H : list Instruction) (x : Instruction) :
  In x (loopInsts g L) -> count H (iid x) = false ->
  (forall J, In J H -> In J (loopInsts g L)) ->
  moveBefore x (iid t) (hoistedGraph ph init t H g)
  = hoistedGraph ph init t (H ++ [x]) g.
Proof.
  intros Hx Hc HH.
  assert (Ht : In t (insts PH))
    by (rewrite Hinit; apply in_or_app; simpl; auto).
  unfold moveBefore, removeInst, mapInsts, hoistedGraph.
  rewrite !map_map. apply map_ext_in. intros B HB.
  unfold relocate. destruct (Nat.eqb (bid B) ph) eqn:E; simpl; f_equal.
  - rewrite filter_absent.
    + rewrite app_assoc. rewrite insertBefore_last; [|  |reflexivity].
      * now rewrite <- !app_assoc.
      * intros J HJ. apply in_app_or in HJ. destruct HJ as [HJ|HJ].
        -- now apply init_not_terminator.
        -- intros E'. symmetry in E'. revert E'.
           apply loop_not_preheader; auto.
    + intros J HJ. apply in_app_or in HJ. destruct HJ as [HJ|HJ].
      * apply loop_not_preheader; [assumption|].
        rewrite Hinit. apply in_or_app. now left.
      * apply in_app_or in HJ. destruct HJ as [HJ|[<-|[]]].
        -- intros E'. assert (count H (iid x) = true); [|congruence].
           apply count_In. rewrite <- E'. now apply in_map.
        -- now apply loop_not_preheader.
  - rewrite insertBefore_absent.
    + rewrite filter_filter. apply filter_ext. intros J.
      rewrite count_app. simpl. unfold hasId.
      rewrite orb_false_r, negb_orb. now rewrite (Nat.eqb_sym (iid x)).
    + intros J HJ E'. apply filter_In in HJ. destruct HJ as [HJ _].
      apply filter_In in HJ. destruct HJ as [HJ _].
      destruct (terminator_unique B J HB HJ E') as [-> _].
      destruct preheader_in as [_ EP]. rewrite EP, Nat.eqb_refl in E.
      discriminate.
Qed.

Lemma dominatesAllLoopExits_hoisted (H : list Instruction)
  (x : Instruction) :
  count H (iid x) = false ->
  dominatesAllLoopExits A (hoistedGraph ph init t H g) x L
  = dominatesAllLoopExits A g x L.
Proof.
  intros Hc. unfold dominatesAllLoopExits. now rewrite parentOf_hoisted.
Qed.

Lemma fold_hoist (xs : list Instruction) :
  forall H,
    NoDup (map iid (H ++ xs)) ->
    (forall J, In J (H ++ xs) -> In J (loopInsts g L)) ->
    fold_left (hoist A ph L) xs (hoistedGraph ph init t H g)
    = hoistedGraph ph init t (H ++ filter test xs) g.
Proof.
  induction xs as [|x xs IH]; simpl; intros H Hnd Hin.
  - now rewrite app_nil_r.
  - assert (Hc : count H (iid x) = false).
    { destruct (count H (iid x)) eqn:E; [|reflexivity].
      apply count_In in E. rewrite map_app in Hnd. simpl in Hnd.
      apply NoDup_remove_2 in Hnd. exfalso. apply Hnd.
      apply in_or_app. now left. }
    assert (Hnd' : NoDup (map iid (H ++ xs))).
    { rewrite map_app in *. simpl in Hnd. now apply NoDup_remove_1 in Hnd. }
    unfold hoist at 2. rewrite dominatesAllLoopExits_hoisted by assumption.
    fold (test x). destruct (test x).
    + rewrite findBlock_hoisted. rewrite app_assoc.
      rewrite getTerminator_last by assumption.
      rewrite moveBefore_hoisted.
      * rewrite IH.
        -- now rewrite <- app_assoc.
        -- now rewrite <- app_assoc.
        -- intros J HJ. apply Hin. rewrite <- app_assoc in HJ. exact HJ.
      * apply Hin. apply in_or_app. right. now left.
      * assumption.
      * intros J HJ. apply Hin. apply in_or_app. now left.
    + apply IH; [assumption|].
      intros J HJ. apply Hin. apply in_app_or in HJ. apply in_or_app.
      destruct HJ; [now left | right; now right].
Qed.

End Hoisting.

End Facts.
End LICMFacts.

(** ** SimpleLICM: the properties of the specification *)

Module LICMClaims.
Import IR IRFacts SimpleLICM LICMFacts.

(** C5.  When the worklist has emptied, the invariant set is exactly the
    closure of "no PHI node, no memory access, every operand in the loop
    already in the set", started from the instructions of the loop whose
    operands are all defined outside it.  The set lists its members in the
    order they entered, and each member entered when its operands in the
    loop were members already; so no member has an operand in the loop
    outside the set. *)
Theorem invariant_set_is_closure (A : Analyses) (g : Function) (L : Loop) :
  wellFormed g ->
  (forall I U, In U (users A g I) <->
               In U (allInsts g) /\ usesInst (iid I) U = true) ->
  exists S,
    invariantSet A g L = Some S /\
    (forall i, count S i = true <-> Invariant A g L i) /\
    closedPrefixes g L S /\
    (forall I, In I S -> operandsIn g L S I).
Proof.
  intros Hwf Husers.
  destruct (invariantSet_total A g L) as [S HS]. exists S.
  split; [assumption|]. split; [|split].
  - intros i. split.
    + intros Hc. apply count_In in Hc. apply in_map_iff in Hc.
      destruct Hc as (J & <- & HJ).
      eapply invariantSet_sound; eauto.
    + now apply invariantSet_complete.
  - now apply invariantSet_closedPrefixes with (A := A).
  - intros I HI. apply closedPrefixes_operandsIn; [|assumption].
    now apply invariantSet_closedPrefixes with (A := A).
Qed.

Lemma invariant_set_is_closure_witness :
  exists S,
    invariantSet (Examples.licm Examples.cfgSimple Examples.insertionOrder)
                 Examples.gChain Examples.loopSimple = Some S /\
    (forall i, count S i = true <->
               Invariant
                 (Examples.licm Examples.cfgSimple Examples.insertionOrder)
                 Examples.gChain Examples.loopSimple i) /\
    closedPrefixes Examples.gChain Examples.loopSimple S /\
    (forall I, In I S ->
               operandsIn Examples.gChain Examples.loopSimple S I).
Proof.
  apply (@invariant_set_is_closure
           (Examples.licm Examples.cfgSimple Examples.insertionOrder)
           Examples.gChain Examples.loopSimple).
  - apply wellFormedb_sound. reflexivity.
  - intros I U. apply usersOf_spec.
Defined.

(** C6.  A PHI node, and an instruction that may read or write memory, is
    never put into the invariant set and is never moved: after the pass
    it is in the block it was in, whatever its operands are. *)
Theorem phi_and_memory_never_hoisted (A : Analyses) (g : Function)
  (L : Loop) (I : Instruction) :
  wellFormed g ->
  (forall J U, In U (users A g J) <->
               In U (allInsts g) /\ usesInst (iid J) U = true) ->
  (forall S x, In x (iterationOrder A S) -> In x S) ->
  In I (allInsts g) ->
  isPHINode I || mayReadOrWriteMemory A I = true ->
  exists S r,
    invariantSet A g L = Some S /\
    ~ In I S /\ count S (iid I) = false /\
    run A L g = Some r /\
    forall b B, findBlock g b = Some B -> In I (insts B) ->
                exists B', findBlock (snd r) b = Some B' /\ In I (insts B').
Proof.
  intros Hwf Husers Horder HI Himp.
  destruct (invariantSet_total A g L) as [S HS].
  assert (HnI : ~ In I S).
  { intros HIS. destruct (@invariantSet_pure A g L S HS I HIS) as [H1 H2].
    rewrite H1, H2 in Himp. discriminate. }
  assert (Hne : forall x, In x S -> iid I <> iid x).
  { intros x Hx E. apply HnI.
    destruct (@invariantSet_sound A g L Hwf Husers S HS x Hx) as [Hl _].
    apply loopInsts_allInsts in Hl. destruct Hwf as [Hi _].
    now rewrite (@iid_inj g I x Hi HI Hl E). }
  assert (Hc : count S (iid I) = false).
  { destruct (count S (iid I)) eqn:E; [|reflexivity].
    apply count_In in E. apply in_map_iff in E.
    destruct E as (x & E & Hx). exfalso. now apply (Hne x Hx). }
  unfold run. rewrite HS. destruct (getLoopPreheader L) as [ph|].
  - eexists S, _. repeat split; try reflexivity; try assumption.
    simpl. intros b B HB HIB.
    apply fold_hoist_keeps with (B := B); auto.
  - exists S, (PA_all, g). repeat split; try assumption. simpl. eauto.
Qed.

Lemma phi_and_memory_never_hoisted_witness :
  exists S r,
    invariantSet (Examples.licm Examples.cfgSimple Examples.insertionOrder)
                 Examples.gChain Examples.loopSimple = Some S /\
    ~ In (mkInst 1 PHI Examples.i32 [VConstInt 0; VInst 12]) S /\
    count S 1 = false /\
    run (Examples.licm Examples.cfgSimple Examples.insertionOrder)
        Examples.loopSimple Examples.gChain = Some r /\
    forall b B, findBlock Examples.gChain b = Some B ->
                In (mkInst 1 PHI Examples.i32 [VConstInt 0; VInst 12])
                   (insts B) ->
                exists B', findBlock (snd r) b = Some B' /\
                           In (mkInst 1 PHI Examples.i32
                                      [VConstInt 0; VInst 12]) (insts B').
Proof.
  apply (@phi_and_memory_never_hoisted
           (Examples.licm Examples.cfgSimple Examples.insertionOrder)
           Examples.gChain Examples.loopSimple
           (mkInst 1 PHI Examples.i32 [VConstInt 0; VInst 12])).
  - apply wellFormedb_sound. reflexivity.
  - intros J U. apply usersOf_spec.
  - intros S x Hx. exact Hx.
  - simpl. auto.
  - reflexivity.
Defined.

(** C10.  For a loop with a preheader the pass answers "nothing
    preserved", whatever the invariant set holds and also when no
    instruction passes the tests of the hoisting loop and the graph stays
    as it was; it answers "everything preserved" for the loops without
    preheader, and for those only. *)
Theorem run_reports_change (A : Analyses) (L : Loop) (g : Function) :
  exists S g',
    invariantSet A g L = Some S /\
    run A L g = Some (match getLoopPreheader L with
                      | Some _ => PA_none
                      | None => PA_all
                      end, g') /\
    ((forall x, In x (iterationOrder A S) ->
                isSafeToSpeculativelyExecute A x
                && dominatesAllLoopExits A g x L = false) -> g' = g).
Proof.
  destruct (invariantSet_total A g L) as [S HS]. exists S.
  unfold run. rewrite HS. destruct (getLoopPreheader L) as [ph|].
  - eexists. repeat split; try reflexivity; try assumption.
    intros H. now apply fold_hoist_unchanged.
  - exists g. auto.
Qed.

(** C4, as the code has it.  With the invariant set [S] at hand, the
    hoisting loop moves a member in front of the terminator of the
    preheader exactly when it is safe to execute speculatively and the
    block that holds it before the move dominates every exit block of the
    loop.  The preheader ends up with the moved members, in the order of
    the iteration, between its old instructions and its terminator; a
    member that fails a test is in its block as before, a member that
    passes both is there no more. *)
Theorem hoisted_iff_safe_and_dominating (A : Analyses) (g : Function)
  (L : Loop) (ph : BlockId) (PH : BasicBlock) (init : list Instruction)
  (t : Instruction) :
  wellFormed g ->
  (forall I U, In U (users A g I) <->
               In U (allInsts g) /\ usesInst (iid I) U = true) ->
  (forall S, Permutation S (iterationOrder A S)) ->
  getLoopPreheader L = Some ph ->
  findBlock g ph = Some PH ->
  insts PH = init ++ [t] ->
  isTerminator t = true ->
  ~ In ph (getBlocks L) ->
  exists S,
    invariantSet A g L = Some S /\
    run A L g
    = Some (PA_none, hoistedGraph ph init t (hoisted A L g S) g) /\
    findBlock (hoistedGraph ph init t (hoisted A L g S) g) ph
    = Some (mkBB ph (init ++ hoisted A L g S ++ [t])) /\
    forall I, In I S ->
      (In I (init ++ hoisted A L g S ++ [t]) <->
       isSafeToSpeculativelyExecute A I
       && dominatesAllLoopExits A g I L = true) /\
      forall B, In B g -> In I (insts B) ->
        (In I (insts (relocate ph init t (hoisted A L g S) B)) <->
         isSafeToSpeculativelyExecute A I
         && dominatesAllLoopExits A g I L = false).
Proof.
  intros Hwf Husers Hperm Hpre HPH Hinit Hterm Hout.
  destruct (invariantSet_total A g L) as [S HS]. exists S.
  pose proof (@invariantSet_sound A g L Hwf Husers S HS) as Hsound.
  pose proof (@invariantSet_bounded A g L S HS) as [Hnd _].
  set (H := hoisted A L g S).
  assert (HinH : forall J, In J H <->
                           In J S /\
                           isSafeToSpeculativelyExecute A J
                           && dominatesAllLoopExits A g J L = true).
  { intros J. unfold H, hoisted. rewrite filter_In. split.
    - intros [HJ Ht]. split; [|assumption].
      eapply Permutation_in; [symmetry; apply Hperm | exact HJ].
    - intros [HJ Ht]. split; [|assumption].
      eapply Permutation_in; [apply Hperm | exact HJ]. }
  assert (HcH : forall I, In I S ->
                          (count H (iid I) = true <->
                           isSafeToSpeculativelyExecute A I
                           && dominatesAllLoopExits A g I L = true)).
  { intros I HI. split.
    - intros Hc. apply count_In in Hc. apply in_map_iff in Hc.
      destruct Hc as (J & E & HJ). apply HinH in HJ. destruct HJ as [HJ Ht].
      destruct Hwf as [Hi _].
      assert (J = I); [|now subst].
      apply (@iid_inj g); auto; apply loopInsts_allInsts with (L := L);
        now apply Hsound.
    - intros Ht. apply count_In. apply in_map. apply HinH. auto. }
  split; [assumption|]. split; [|split].
  - unfold run. rewrite Hpre, HS. do 2 f_equal.
    rewrite <- (@hoistedGraph_nil g L ph PH init t Hwf HPH Hinit Hout) at 1.
    rewrite (@fold_hoist A g L ph PH init t Hwf HPH Hinit Hterm Hout).
    + reflexivity.
    + simpl. eapply Permutation_NoDup; [|exact Hnd].
      apply Permutation_map. apply Hperm.
    + simpl. intros J HJ. apply Hsound.
      eapply Permutation_in; [symmetry; apply Hperm | exact HJ].
  - exact (@findBlock_hoisted g ph PH init t HPH H).
  - intros I HI. destruct (Hsound I HI) as [HIl _]. split.
    + split.
      * intros Hin. apply in_app_or in Hin. destruct Hin as [Hin|Hin].
        -- exfalso.
           apply (@loop_not_preheader g L ph PH Hwf HPH Hout I I); auto.
           rewrite Hinit. apply in_or_app. now left.
        -- apply in_app_or in Hin. destruct Hin as [Hin|[<-|[]]].
           ++ now apply HinH in Hin.
           ++ exfalso.
              apply (@loop_not_preheader g L ph PH Hwf HPH Hout t t); auto.
              rewrite Hinit. apply in_or_app. simpl. auto.
      * intros Ht. apply in_or_app. right. apply in_or_app. left.
        apply HinH. auto.
    + intros B HB HIB. unfold relocate.
      destruct (Nat.eqb (bid B) ph) eqn:E.
      * exfalso. apply Nat.eqb_eq in E.
        rewrite (@preheader_block g ph PH Hwf HPH B HB E) in HIB.
        now apply (@loop_not_preheader g L ph PH Hwf HPH Hout I I).
      * simpl. rewrite filter_In. specialize (HcH I HI).
        destruct (isSafeToSpeculativelyExecute A I
                  && dominatesAllLoopExits A g I L).
        -- destruct HcH as [_ Hc]. rewrite (Hc eq_refl). simpl.
           split; [intros [_ ?] | intros ?]; discriminate.
        -- destruct (count H (iid I)); simpl; [|tauto].
           destruct HcH as [Hc _]. specialize (Hc eq_refl). discriminate.
Qed.

Lemma hoisted_iff_safe_and_dominating_witness :
  exists S,
    invariantSet (Examples.licm Examples.cfgDiamond Examples.insertionOrder)
                 Examples.gDiamond Examples.loopDiamond = Some S /\
    run (Examples.licm Examples.cfgDiamond Examples.insertionOrder)
        Examples.loopDiamond Examples.gDiamond
    = Some (PA_none,
            hoistedGraph 0 [] (mkInst 100 Br OtherTy [])
              (hoisted
                 (Examples.licm Examples.cfgDiamond Examples.insertionOrder)
                 Examples.loopDiamond Examples.gDiamond S)
              Examples.gDiamond) /\
    findBlock
      (hoistedGraph 0 [] (mkInst 100 Br OtherTy [])
         (hoisted
            (Examples.licm Examples.cfgDiamond Examples.insertionOrder)
            Examples.loopDiamond Examples.gDiamond S)
         Examples.gDiamond) 0
    = Some (mkBB 0
              ([] ++ hoisted
                       (Examples.licm Examples.cfgDiamond
                                      Examples.insertionOrder)
                       Examples.loopDiamond Examples.gDiamond S
                  ++ [mkInst 100 Br OtherTy []])) /\
    forall I, In I S ->
      (In I ([] ++ hoisted
                     (Examples.licm Examples.cfgDiamond
                                    Examples.insertionOrder)
                     Examples.loopDiamond Examples.gDiamond S
                ++ [mkInst 100 Br OtherTy []]) <->
       isSafeToSpeculativelyExecute
         (Examples.licm Examples.cfgDiamond Examples.insertionOrder) I
       && dominatesAllLoopExits
            (Examples.licm Examples.cfgDiamond Examples.insertionOrder)
            Examples.gDiamond I Examples.loopDiamond = true) /\
      forall B, In B Examples.gDiamond -> In I (insts B) ->
        (In I (insts (relocate 0 [] (mkInst 100 Br OtherTy [])
                        (hoisted
                           (Examples.licm Examples.cfgDiamond
                                          Examples.insertionOrder)
                           Examples.loopDiamond Examples.gDiamond S) B)) <->
         isSafeToSpeculativelyExecute
           (Examples.licm Examples.cfgDiamond Examples.insertionOrder) I
         && dominatesAllLoopExits
              (Examples.licm Examples.cfgDiamond Examples.insertionOrder)
              Examples.gDiamond I Examples.loopDiamond = false).
Proof.
  apply (@hoisted_iff_safe_and_dominating
           (Examples.licm Examples.cfgDiamond Examples.insertionOrder)
           Examples.gDiamond Examples.loopDiamond 0
           (mkBB 0 [mkInst 100 Br OtherTy []]) []
           (mkInst 100 Br OtherTy [])).
  - apply wellFormedb_sound. reflexivity.
  - intros I U. apply usersOf_spec.
  - intros S. apply Permutation_refl.
  - reflexivity.
  - reflexivity.
  - reflexivity.
  - reflexivity.
  - simpl. lia.
Defined.

(** C4, as the specification words it, fails.  In the loop with a
    conditional block, instruction 20 is in the invariant set and safe to
    speculate, and the preheader, where the move would put it, dominates
    the exit block; the pass leaves it in block 2, which does not
    dominate the exit. *)
Lemma hoisting_tests_position_before_move :
  let A := Examples.licm Examples.cfgDiamond Examples.insertionOrder in
  let I20 := mkInst 20 Add Examples.i32 [VOther 1; VConstInt 1] in
  exists S g' PH' B2',
    invariantSet A Examples.gDiamond Examples.loopDiamond = Some S /\
    In I20 S /\
    run A Examples.loopDiamond Examples.gDiamond = Some (PA_none, g') /\
    isSafeToSpeculativelyExecute A I20 = true /\
    forallb (dominates A 0) (getExitBlocks Examples.loopDiamond) = true /\
    findBlock g' 0 = Some PH' /\ ~ In I20 (insts PH') /\
    findBlock g' 2 = Some B2' /\ In I20 (insts B2').
Proof.
  simpl. eexists _, _, _, _.
  split; [vm_compute; reflexivity|].
  split; [simpl; auto|].
  split; [vm_compute; reflexivity|].
  split; [reflexivity|].
  split; [vm_compute; reflexivity|].
  split; [vm_compute; reflexivity|].
  split; [simpl; intros [H|[]]; discriminate|].
  split; [vm_compute; reflexivity|].
  simpl. auto.
Qed.

(** C1 on the code.  Both graphs define every operand before its use
    when the pass starts.  In the loop with the division, [b = a + 1]
    passes the tests and [a = x / y] does not: [b] goes to the preheader
    and [a] stays in the loop.  In the loop with the chain, both pass;
    an iteration that meets [b] before [a] puts [b] in front of [a].
    Either way the graph the pass leaves uses a value before its
    definition. *)
Lemma hoisting_breaks_def_before_use :
  let dom := CFG.dominates Examples.cfgSimple 0 in
  let a := mkInst 10 UDiv Examples.i32 [VOther 0; VOther 1] in
  let b := mkInst 11 Add Examples.i32 [VInst 10; VConstInt 1] in
  let a' := mkInst 10 Add Examples.i32 [VOther 0; VConstInt 1] in
  let b' := mkInst 11 Add Examples.i32 [VInst 10; VConstInt 2] in
  let br := mkInst 100 Br OtherTy [] in
  (defBeforeUse dom Examples.gDiv = true /\
   exists g',
     run (Examples.licm Examples.cfgSimple Examples.insertionOrder)
         Examples.loopSimple Examples.gDiv = Some (PA_none, g') /\
     findBlock g' 0 = Some (mkBB 0 [b; br]) /\
     parentOf g' (iid a) = Some 1 /\
     defBeforeUse dom g' = false) /\
  (defBeforeUse dom Examples.gChain = true /\
   exists g',
     run (Examples.licm Examples.cfgSimple (@rev Instruction))
         Examples.loopSimple Examples.gChain = Some (PA_none, g') /\
     findBlock g' 0 = Some (mkBB 0 [b'; a'; br]) /\
     defBeforeUse dom g' = false).
Proof.
  simpl. split; (split; [vm_compute; reflexivity|]); eexists;
    repeat split; vm_compute; reflexivity.
Qed.

End LICMClaims.

(** ** The scan of DerivedInductionVars *)

Module DIVFacts.
Import IR IRFacts DerivedInductionVars.

(** Induction over a loop nest. *)
Lemma Loop_nest_ind (P : Loop -> Prop) :
  (forall l h b p e subs,
      (forall S, In S subs -> P S) -> P (mkLoop l h b p e subs)) ->
  forall L, P L.
Proof.
  intros Hstep. fix IH 1. intros [l h b p e subs]. apply Hstep.
  induction subs as [|S subs IHs]; intros S' HS'.
  - contradiction.
  - destruct HS' as [<-|HS']; [apply IH | now apply IHs].
Qed.

Lemma SCEV_eqb_refl (S : SCEV) : SCEV_eqb S S = true.
Proof.
  induction S as [z|l s IHs t IHt f|n]; simpl.
  - apply Z.eqb_refl.
  - rewrite Nat.eqb_refl, IHs, IHt. now destruct f.
  - apply Nat.eqb_refl.
Qed.

Lemma redirect_fixed (old : InstId) (new : Value) (J : Instruction) :
  (forall v, In v (operands J) -> v <> VInst old) ->
  redirect old new J = J.
Proof.
  intros H. unfold redirect. destruct J as [i o t ops]. simpl in *.
  f_equal. induction ops as [|v ops IH]; simpl; [reflexivity|].
  rewrite replaceOperand_other by (apply H; now left).
  f_equal. apply IH. intros v' Hv'. apply H. now right.
Qed.

Section Facts.

Variable A : Analyses.


(** A scan that skips every PHI node leaves the state as it is. *)
Lemma scan_skips (L : Loop) (HeaderInsert : Instruction)
  (PreheaderInsert : option Instruction) (st : State)
  (l : list Instruction) :
  (forall PN, In PN l ->
              visitPHI A L HeaderInsert PreheaderInsert st PN = st) ->
  fold_left (visitPHI A L HeaderInsert PreheaderInsert) l st = st.
Proof.
  induction l as [|PN l IH]; simpl; intros H; [reflexivity|].
  rewrite (H PN (or_introl eq_refl)). auto.
Qed.

Lemma visitPHI_simple (L : Loop) (HeaderInsert : Instruction)
  (PreheaderInsert : option Instruction) (st : State) (PN : Instruction) :
  simplePHI A (graph st) L PN ->
  visitPHI A L HeaderInsert PreheaderInsert st PN = st.
Proof.
  intros [H|[H|(BasicIV & Hc & E)]]; unfold visitPHI.
  - now rewrite H.
  - destruct (negb (isIntegerTy (ty PN))); [reflexivity|].
    destruct (getSCEV A (graph st) (iid PN)) as [z|l s t [|]|n];
      try reflexivity; try contradiction.
    now rewrite andb_false_r.
  - destruct (negb (isIntegerTy (ty PN))); [reflexivity|].
    destruct (getSCEV A (graph st) (iid PN)) as [z|l s t f|n] eqn:ES;
      try reflexivity.
    destruct (Nat.eqb l (getLoopId L) && f); [|reflexivity].
    rewrite Hc, E, ES, SCEV_eqb_refl. now rewrite orb_true_r.
Qed.


Lemma analyzeLoopRecursively_eq (L : Loop) (g : Function) :
  analyzeLoopRecursively A L g =
  match findBlock g (getHeader L) with
  | None => (false, g)
  | Some Header =>
      match getFirstNonPHI Header with
      | None => (false, g)
      | Some HeaderInsert =>
          let st := scanHeader A L Header HeaderInsert g in
          (loop_flag st,
           fold_left (fun g' SubLoop =>
                        snd (analyzeLoopRecursively A SubLoop g'))
                     (getSubLoops L) (eraseDead st))
      end
  end.
Proof. destruct L; reflexivity. Qed.

Lemma simplified_unchanged (g : Function) (L : Loop) :
  Simplified A g L -> analyzeLoopRecursively A L g = (false, g).
Proof.
  revert L. apply (Loop_nest_ind
    (fun L => Simplified A g L -> analyzeLoopRecursively A L g = (false, g))).
  intros l h b p e subs IH HS. inversion HS as [L' Hphis Hsubs EL]; subst L'.
  rewrite analyzeLoopRecursively_eq. simpl getHeader.
  destruct (findBlock g h) as [Header|] eqn:EH; [|reflexivity].
  destruct (getFirstNonPHI Header) as [HeaderInsert|]; [|reflexivity].
  assert (Hscan : scanHeader A (mkLoop l h b p e subs) Header HeaderInsert g
                  = mkState g [] false).
  { unfold scanHeader. apply scan_skips. intros PN HPN.
    apply visitPHI_simple. simpl. eapply Hphis; eauto. }
  simpl. rewrite Hscan. unfold eraseDead. simpl. f_equal.
  simpl in Hsubs. clear Hscan HS Hphis.
  induction subs as [|S subs IHs]; simpl; [reflexivity|].
  rewrite (IH S (or_introl eq_refl)) by (apply Hsubs; now left).
  simpl. apply IHs.
  - intros S' HS'. apply IH. now right.
  - intros S' HS'. apply Hsubs. now right.
Qed.

(** What lines 100-133 leave of a graph: the graph, or the graph with
    what one or two expansions linked in front of [PreheaderInsert]. *)
Lemma resolveStartStep_cases (g g1 : Function) (start step : SCEV)
  (t : Ty) (PreheaderInsert : option Instruction)
  (r : option (Value * Value)) :
  resolveStartStep A g start step t PreheaderInsert = (g1, r) ->
  g1 = g
  \/ (exists posI S v,
        PreheaderInsert = Some posI /\
        expandAt A g S t (iid posI) = Some (v, g1))
  \/ (exists posI S v S' v' g',
        PreheaderInsert = Some posI /\
        expandAt A g S t (iid posI) = Some (v, g') /\
        expandAt A g' S' t (iid posI) = Some (v', g1)).
Proof.
  unfold resolveStartStep.
  destruct (constantValue start) as [a|];
    destruct (constantValue step) as [b|].
  - intros H. injection H as <- _. now left.
  - destruct PreheaderInsert as [pos|];
      [|intros H; injection H as <- _; now left].
    destruct (expandAt A g step t (iid pos)) as [[v g']|] eqn:E;
      intros H; injection H as <- _; [|now left].
    right. left. eauto.
  - destruct PreheaderInsert as [pos|];
      [|intros H; injection H as <- _; now left].
    destruct (expandAt A g start t (iid pos)) as [[v g']|] eqn:E;
      intros H; injection H as <- _; [|now left].
    right. left. eauto.
  - destruct PreheaderInsert as [pos|];
      [|intros H; injection H as <- _; now left].
    destruct (expandAt A g start t (iid pos)) as [[v g']|] eqn:E;
      [|intros H; injection H as <- _; now left].
    destruct (expandAt A g' step t (iid pos)) as [[v' g'']|] eqn:E';
      intros H; injection H as <- _.
    + right. right. exists pos, start, v, step, v', g'. auto.
    + right. left. eauto.
Qed.

(** What one visit does to the state: nothing, or the expander's code
    only, or the rewrite of lines 135-143. *)
Lemma visitPHI_cases (L : Loop) (HeaderInsert : Instruction)
  (PreheaderInsert : option Instruction) (st : State) (PN : Instruction) :
  let st' := visitPHI A L HeaderInsert PreheaderInsert st PN in
  st' = st
  \/ (exists start step g1,
        resolveStartStep A (graph st) start step (ty PN) PreheaderInsert
        = (g1, None) /\
        st' = mkState g1 (DeadPHIs st) (loop_flag st))
  \/ (exists start step g1 BasicIV StartVal StepVal,
        resolveStartStep A (graph st) start step (ty PN) PreheaderInsert
        = (g1, Some (StartVal, StepVal)) /\
        st' = rewrite HeaderInsert BasicIV PN StartVal StepVal
                      (DeadPHIs st) g1).
Proof.
  unfold visitPHI.
  destruct (negb (isIntegerTy (ty PN))); [now left|].
  destruct (getSCEV A (graph st) (iid PN)) as [z|l start step f|n];
    try now left.
  destruct (Nat.eqb l (getLoopId L) && f); [|now left].
  destruct (getCanonicalInductionVariable A (graph st) L) as [BasicIV|];
    [|now left].
  match goal with |- context [if ?c then _ else _] => destruct c end;
    [now left|].
  destruct (resolveStartStep A (graph st) start step (ty PN)
                             PreheaderInsert) as [g1 [[a b]|]] eqn:E.
  - right. right. exists start, step, g1, BasicIV, a, b. auto.
  - right. left. exists start, step, g1. auto.
Qed.

Lemma DeadPHIs_visitPHI (L : Loop) (HeaderInsert : Instruction)
  (PreheaderInsert : option Instruction) (st : State) (PN : Instruction) :
  let st' := visitPHI A L HeaderInsert PreheaderInsert st PN in
  (DeadPHIs st' = DeadPHIs st /\ loop_flag st' = loop_flag st)
  \/ (DeadPHIs st' = DeadPHIs st ++ [iid PN] /\ loop_flag st' = true).
Proof.
  destruct (visitPHI_cases L HeaderInsert PreheaderInsert st PN)
    as [E|[(start & step & g1 & _ & E)
          |(start & step & g1 & B & a & b & _ & E)]];
    cbv zeta; rewrite E.
  - now left.
  - now left.
  - right. now unfold rewrite.
Qed.

Lemma DeadPHIs_fold_keeps (L : Loop) (HeaderInsert : Instruction)
  (PreheaderInsert : option Instruction) (l : list Instruction)
  (d : InstId) :
  forall st,
    In d (DeadPHIs st) ->
    In d (DeadPHIs (fold_left (visitPHI A L HeaderInsert PreheaderInsert)
                              l st)).
Proof.
  induction l as [|PN l IH]; simpl; intros st H; [assumption|].
  apply IH.
  destruct (DeadPHIs_visitPHI L HeaderInsert PreheaderInsert st PN)
    as [[-> _]|[-> _]]; [assumption|].
  apply in_or_app. now left.
Qed.

(** A visit that reaches line 135 is the rewrite of lines 135-143. *)
Lemma visitPHI_rewrites (L : Loop) (HeaderInsert : Instruction)
  (PreheaderInsert : option Instruction) (st : State)
  (PN BasicIV : Instruction) (StartVal StepVal : Value) (g1 : Function) :
  reachesRewrite A L PreheaderInsert st PN BasicIV StartVal StepVal g1 ->
  visitPHI A L HeaderInsert PreheaderInsert st PN
  = rewrite HeaderInsert BasicIV PN StartVal StepVal (DeadPHIs st) g1.
Proof.
  intros (Hint & start & step & HS & HC & Hsafe & Heq & HR).
  unfold visitPHI. rewrite Hint, HS. simpl negb. cbv iota.
  rewrite Nat.eqb_refl. simpl andb. cbv iota.
  rewrite HC, Hsafe. simpl negb. rewrite orb_false_l, Heq, HR.
  reflexivity.
Qed.

Lemma reachesRewrite_not_counter (L : Loop)
  (PreheaderInsert : option Instruction) (st : State)
  (PN BasicIV : Instruction) (StartVal StepVal : Value) (g1 : Function) :
  reachesRewrite A L PreheaderInsert st PN BasicIV StartVal StepVal g1 ->
  iid BasicIV <> iid PN.
Proof.
  intros (_ & start & step & HS & _ & _ & Heq & _) E.
  rewrite E, HS, SCEV_eqb_refl in Heq. discriminate.
Qed.

(** *** A scan without a place to materialize at *)



(** *** Dead PHI nodes have no uses *)

Section Scan.

Variable L : Loop.
Variable Header : BasicBlock.
Variable HeaderInsert : Instruction.
Variable PreheaderInsert : option Instruction.
Variable g0 : Function.

Hypothesis Hhdr : findBlock g0 (getHeader L) = Some Header.

(** The canonical counter is incremented: it has a use. *)
Hypothesis Hcan : forall g iv,
  getCanonicalInductionVariable A g L = Some iv ->
  exists U, In U (allInsts g) /\ usesInst (iid iv) U = true.

(** What the expander builds in the preheader does not read the PHI
    nodes of the header.  The expander is asked on graphs that hold the
    instructions of [g0]. *)
Hypothesis Hexp : forall g S t pos new v,
  incl (idsOf g0) (idsOf g) ->
  expandCodeFor A g S t pos = Some (new, v) ->
  forall P, In P (phis (insts Header)) ->
            v <> VInst (iid P) /\
            forall J, In J new -> usesInst (iid P) J = false.

Lemma phis_incl (l : list Instruction) (P : Instruction) :
  In P (phis l) -> In P l.
Proof.
  induction l as [|J l IH]; simpl; [contradiction|].
  destruct (isPHINode J); simpl; [|contradiction]. intuition.
Qed.

Lemma header_phi_in_graph (P : Instruction) :
  In P (phis (insts Header)) -> In (iid P) (idsOf g0).
Proof.
  intros HP. apply phis_incl in HP. apply findBlock_Some in Hhdr.
  apply in_map. apply in_allInsts. exists Header. tauto.
Qed.

Lemma expandAt_inv (g g' : Function) (S : SCEV) (t : Ty) (pos : InstId)
  (v : Value) :
  incl (idsOf g0) (idsOf g) ->
  expandAt A g S t pos = Some (v, g') ->
  incl (idsOf g) (idsOf g') /\
  forall P, In P (phis (insts Header)) ->
            v <> VInst (iid P) /\ (noUse (iid P) g -> noUse (iid P) g').
Proof.
  intros Hg0.
  unfold expandAt. destruct (expandCodeFor A g S t pos) as [[new v']|] eqn:E;
    [|discriminate].
  intros H. injection H as -> <-. split.
  - intros i Hi. unfold idsOf in *. apply in_map_iff in Hi.
    destruct Hi as (J & <- & HJ). apply in_map.
    now apply insertAllBefore_keeps.
  - intros P HP. destruct (Hexp _ _ _ _ Hg0 E P HP) as [Hv Hnew].
    split; [assumption|]. intros Hn U HU.
    apply in_insertAllBefore in HU. destruct HU; auto.
Qed.

Lemma constantValue_not_inst (S : SCEV) (v : Value) (p : InstId) :
  constantValue S = Some v -> v <> VInst p.
Proof. destruct S; simpl; intros H; inversion H. discriminate. Qed.

Lemma resolveStartStep_inv (g g1 : Function) (start step : SCEV) (t : Ty)
  (r : option (Value * Value)) :
  incl (idsOf g0) (idsOf g) ->
  resolveStartStep A g start step t PreheaderInsert = (g1, r) ->
  incl (idsOf g) (idsOf g1) /\
  forall P, In P (phis (insts Header)) ->
    (noUse (iid P) g -> noUse (iid P) g1) /\
    forall StartVal StepVal,
      r = Some (StartVal, StepVal) ->
      StartVal <> VInst (iid P) /\ StepVal <> VInst (iid P).
Proof.
  intros Hg0. pose proof expandAt_inv as X. unfold resolveStartStep.
  destruct (constantValue start) as [a|] eqn:Ea;
    destruct (constantValue step) as [b|] eqn:Eb.
  - intros H. injection H as <- <-. split; [apply incl_refl|].
    intros P HP. split; [auto|]. intros ? ? H. injection H as <- <-.
    split; eapply constantValue_not_inst; eauto.
  - destruct PreheaderInsert as [pos|].
    + destruct (expandAt A g step t (iid pos)) as [[v g']|] eqn:E.
      * intros H. injection H as <- <-.
        destruct (X _ _ _ _ _ _ Hg0 E) as [Hi Hp].
        split; [assumption|].
        intros P HP. destruct (Hp P HP) as [Hv Hn]. split; [assumption|].
        intros ? ? H. injection H as <- <-.
        split; [eapply constantValue_not_inst; eauto | assumption].
      * intros H. injection H as <- <-. split; [apply incl_refl|].
        intros P HP. split; [auto | discriminate].
    + intros H. injection H as <- <-. split; [apply incl_refl|].
      intros P HP. split; [auto | discriminate].
  - destruct PreheaderInsert as [pos|].
    + destruct (expandAt A g start t (iid pos)) as [[v g']|] eqn:E.
      * intros H. injection H as <- <-.
        destruct (X _ _ _ _ _ _ Hg0 E) as [Hi Hp].
        split; [assumption|].
        intros P HP. destruct (Hp P HP) as [Hv Hn]. split; [assumption|].
        intros ? ? H. injection H as <- <-.
        split; [assumption | eapply constantValue_not_inst; eauto].
      * intros H. injection H as <- <-. split; [apply incl_refl|].
        intros P HP. split; [auto | discriminate].
    + intros H. injection H as <- <-. split; [apply incl_refl|].
      intros P HP. split; [auto | discriminate].
  - destruct PreheaderInsert as [pos|].
    + destruct (expandAt A g start t (iid pos)) as [[v g']|] eqn:E.
      * destruct (X _ _ _ _ _ _ Hg0 E) as [Hi Hp].
        destruct (expandAt A g' step t (iid pos)) as [[v' g'']|] eqn:E'.
        -- intros H. injection H as <- <-.
           destruct (X _ _ _ _ _ _ (incl_tran Hg0 Hi) E')
             as [Hi' Hp'].
           split; [eapply incl_tran; eauto|].
           intros P HP. destruct (Hp P HP) as [Hv Hn].
           destruct (Hp' P HP) as [Hv' Hn']. split; [auto|].
           intros ? ? H. injection H as <- <-. auto.
        -- intros H. injection H as <- <-. split; [assumption|].
           intros P HP. destruct (Hp P HP) as [Hv Hn].
           split; [assumption | discriminate].
      * intros H. injection H as <- <-. split; [apply incl_refl|].
        intros P HP. split; [auto | discriminate].
    + intros H. injection H as <- <-. split; [apply incl_refl|].
      intros P HP. split; [auto | discriminate].
Qed.

Lemma rewrite_noUse (BasicIV PN : Instruction) (StartVal StepVal : Value)
  (D : list InstId) (g1 : Function) :
  In (iid PN) (idsOf g1) ->
  (forall d, In d D -> In d (idsOf g1) /\ noUse d g1) ->
  (forall d, In d (D ++ [iid PN]) ->
             iid BasicIV <> d /\ StartVal <> VInst d /\ StepVal <> VInst d) ->
  let st := rewrite HeaderInsert BasicIV PN StartVal StepVal D g1 in
  incl (idsOf g1) (idsOf (graph st)) /\
  forall d, In d (D ++ [iid PN]) -> noUse d (graph st).
Proof.
  intros HPN HD Hval. unfold rewrite. simpl.
  set (Mul_ := mkInst (freshId g1) Mul (ty BasicIV)
                      [VInst (iid BasicIV); StepVal]).
  set (g2 := insertInstBefore (iid HeaderInsert) Mul_ g1).
  set (NewVal := mkInst (freshId g2) Add (ty PN)
                        [StartVal; VInst (freshId g1)]).
  set (g3 := insertInstBefore (iid HeaderInsert) NewVal g2).
  assert (H12 : incl (idsOf g1) (idsOf g2)).
  { intros i Hi. unfold idsOf in *. apply in_map_iff in Hi.
    destruct Hi as (J & <- & HJ). apply in_map.
    now apply insertInstBefore_keeps. }
  assert (H23 : incl (idsOf g2) (idsOf g3)).
  { intros i Hi. unfold idsOf in *. apply in_map_iff in Hi.
    destruct Hi as (J & <- & HJ). apply in_map.
    now apply insertInstBefore_keeps. }
  assert (Hin : forall d, In d (D ++ [iid PN]) -> In d (idsOf g1)).
  { intros d Hd. apply in_app_or in Hd. destruct Hd as [Hd|[<-|[]]];
      [now apply HD | assumption]. }
  split.
  - unfold idsOf at 2. rewrite allInsts_replaceAllUsesWith, map_map. simpl.
    fold (idsOf g3). eapply incl_tran; eauto.
  - intros d Hd U' HU'. rewrite allInsts_replaceAllUsesWith in HU'.
    apply in_map_iff in HU'. destruct HU' as (U & <- & HU).
    destruct (usesInst d (redirect (iid PN) (VInst (freshId g2)) U)) eqn:E;
      [exfalso|reflexivity].
    apply usesInst_redirect in E.
    2:{ intros Heq. injection Heq as Heq.
        pose proof (freshId_gt g2 d (H12 d (Hin d Hd))). lia. }
    destruct E as [Hne E]. destruct (Hval d Hd) as (Hb & Hs & Ht).
    apply in_insertInstBefore in HU. destruct HU as [->|HU].
    + unfold usesInst in E. simpl in E. rewrite orb_false_r in E.
      apply orb_true_iff in E. destruct E as [E|E].
      * apply Hs. destruct StartVal; simpl in E; try discriminate.
        apply Nat.eqb_eq in E. now subst.
      * apply Nat.eqb_eq in E.
        pose proof (freshId_gt g1 d (Hin d Hd)). lia.
    + apply in_insertInstBefore in HU. destruct HU as [->|HU].
      * unfold usesInst in E. simpl in E. rewrite orb_false_r in E.
        apply orb_true_iff in E. destruct E as [E|E].
        -- apply Nat.eqb_eq in E. now apply Hb.
        -- apply Ht. destruct StepVal; simpl in E; try discriminate.
           apply Nat.eqb_eq in E. now subst.
      * apply in_app_or in Hd. destruct Hd as [Hd|[<-|[]]];
          [|now apply Hne].
        destruct (HD d Hd) as [_ Hn]. rewrite (Hn U HU) in E. discriminate.
Qed.

Local Abbreviation scanInv := (DerivedInductionVars.scanInv Header g0).

Lemma visitPHI_inv (st : State) (PN : Instruction) :
  In PN (phis (insts Header)) -> scanInv st ->
  scanInv (visitPHI A L HeaderInsert PreheaderInsert st PN).
Proof.
  intros HPN Hst. pose proof Hst as (Hids & Hdead & Hno). unfold visitPHI.
  destruct (negb (isIntegerTy (ty PN))); [exact Hst|].
  destruct (getSCEV A (graph st) (iid PN)) as [z|l start step f|n] eqn:ES;
    try exact Hst.
  destruct (Nat.eqb l (getLoopId L) && f); [|exact Hst].
  destruct (getCanonicalInductionVariable A (graph st) L)
    as [BasicIV|] eqn:EC; [|exact Hst].
  destruct (negb (isSafeToExpand A (graph st)
                    (SCEVAddRecExpr l start step f)));
    [exact Hst|]. rewrite orb_false_l.
  destruct (SCEV_eqb (SCEVAddRecExpr l start step f)
                     (getSCEV A (graph st) (iid BasicIV))) eqn:Eeq;
    [exact Hst|].
  destruct (resolveStartStep A (graph st) start step (ty PN)
                             PreheaderInsert) as [g1 r] eqn:ER.
  pose proof resolveStartStep_inv as X.
  destruct (X _ _ _ _ _ _ Hids ER) as [Hi1 Hp1]. clear X.
  destruct r as [[StartVal StepVal]|].
  - assert (HD : forall d, In d (DeadPHIs st) ->
                           In d (idsOf g1) /\ noUse d g1).
    { intros d Hd. destruct (Hdead d Hd) as (P & HP & <-). split.
      - apply Hi1, Hids. now apply header_phi_in_graph.
      - apply (Hp1 P HP). now apply Hno. }
    assert (Hval : forall d, In d (DeadPHIs st ++ [iid PN]) ->
                             iid BasicIV <> d /\ StartVal <> VInst d /\
                             StepVal <> VInst d).
    { intros d Hd.
      assert (HP : exists P, In P (phis (insts Header)) /\ iid P = d).
      { apply in_app_or in Hd. destruct Hd as [Hd|[<-|[]]]; eauto. }
      destruct HP as (P & HP & <-).
      destruct (Hp1 P HP) as [_ Hv]. specialize (Hv _ _ eq_refl).
      split; [|assumption].
      intros Heq. apply in_app_or in Hd. destruct Hd as [Hd|[E|[]]].
      - destruct (Hcan _ EC) as (U & HU & Huse).
        rewrite Heq, (Hno _ Hd U HU) in Huse. discriminate.
      - rewrite Heq, <- E, ES, SCEV_eqb_refl in Eeq. discriminate. }
    assert (HPNin : In (iid PN) (idsOf g1))
      by (apply Hi1, Hids; now apply header_phi_in_graph).
    destruct (@rewrite_noUse BasicIV PN StartVal StepVal (DeadPHIs st) g1
                             HPNin HD Hval) as [Hi2 Hn2].
    repeat split.
    + eapply incl_tran; [exact Hids|]. eapply incl_tran; eauto.
    + simpl. intros d Hd. apply in_app_or in Hd.
      destruct Hd as [Hd|[<-|[]]]; eauto.
    + exact Hn2.
  - repeat split; simpl.
    + eapply incl_tran; eauto.
    + assumption.
    + intros d Hd. destruct (Hdead d Hd) as (P & HP & <-).
      apply (Hp1 P HP). now apply Hno.
Qed.

(** The invariant holds wherever the scan has come to. *)
Lemma scan_prefix_inv (l : list Instruction) :
  incl l (phis (insts Header)) ->
  scanInv (fold_left (visitPHI A L HeaderInsert PreheaderInsert)
                     l (mkState g0 [] false)).
Proof.
  assert (G : forall l st,
             incl l (phis (insts Header)) -> scanInv st ->
             scanInv (fold_left (visitPHI A L HeaderInsert PreheaderInsert)
                                l st)).
  { clear l. induction l as [|PN l IH]; simpl; intros st Hl Hst;
      [assumption|].
    apply IH.
    - intros x Hx. apply Hl. now right.
    - apply visitPHI_inv; [apply Hl; now left | assumption]. }
  intros Hl. apply G; [assumption|].
  repeat split; simpl; try contradiction. apply incl_refl.
Qed.

Lemma scanHeader_inv :
  scanInv (fold_left (visitPHI A L HeaderInsert PreheaderInsert)
                     (phis (insts Header)) (mkState g0 [] false)).
Proof.
  assert (G : forall l st,
             incl l (phis (insts Header)) -> scanInv st ->
             scanInv (fold_left (visitPHI A L HeaderInsert PreheaderInsert)
                                l st)).
  { induction l as [|PN l IH]; simpl; intros st Hl Hst; [assumption|].
    apply IH.
    - intros x Hx. apply Hl. now right.
    - apply visitPHI_inv; [apply Hl; now left | assumption]. }
  apply G; [apply incl_refl|].
  repeat split; simpl; try contradiction. apply incl_refl.
Qed.

(** Erasing the recorded PHI nodes removes them and brings no use
    back. *)
Lemma eraseDead_spec (D : list InstId) :
  forall g J,
    In J (allInsts (fold_left (fun g' d => removeInst d g') D g)) <->
    In J (allInsts g) /\ ~ In (iid J) D.
Proof.
  induction D as [|d D IH]; simpl; intros g J; [tauto|].
  rewrite IH, allInsts_removeInst, filter_In. unfold hasId.
  rewrite negb_true_iff, Nat.eqb_neq. intuition.
Qed.

End Scan.

(** *** Where the new instructions stand *)

(** Lines 135-140: the two instructions go in front of the instruction
    that has the identity of [HeaderInsert], and the header is the
    redirected list afterwards. *)
Lemma rewrite_header (HeaderInsert BasicIV PN HI' : Instruction)
  (StartVal StepVal : Value) (D : list InstId) (g1 : Function)
  (h : BlockId) (pre post : list Instruction) :
  findBlock g1 h = Some (mkBB h (pre ++ HI' :: post)) ->
  iid HI' = iid HeaderInsert ->
  ~ In (iid HeaderInsert) (map iid pre) ->
  let Mul_ := mkInst (freshId g1) Mul (ty BasicIV)
                     [VInst (iid BasicIV); StepVal] in
  let g2 := insertInstBefore (iid HeaderInsert) Mul_ g1 in
  let NewVal := mkInst (freshId g2) Add (ty PN)
                       [StartVal; VInst (iid Mul_)] in
  let st := rewrite HeaderInsert BasicIV PN StartVal StepVal D g1 in
  findBlock (graph st) h
  = Some (mkBB h (map (redirect (iid PN) (VInst (iid NewVal)))
                      (pre ++ Mul_ :: NewVal :: HI' :: post))) /\
  iid HeaderInsert < freshId g1 /\ freshId g1 < freshId g2.
Proof.
  intros HB EHI Hnot Mul_ g2 NewVal st.
  destruct (findBlock_Some _ _ HB) as [HBin _].
  assert (HHI : In HI' (allInsts g1)).
  { apply in_allInsts. eexists. split; [exact HBin|].
    simpl. apply in_or_app. right. now left. }
  assert (Hpre : forall J, In J pre -> iid J <> iid HeaderInsert).
  { intros J HJ E. apply Hnot. rewrite <- E. now apply in_map. }
  assert (Hlt1 : iid HeaderInsert < freshId g1).
  { rewrite <- EHI. apply freshId_gt. now apply in_map. }
  assert (HB2 : findBlock g2 h
                = Some (mkBB h (pre ++ Mul_ :: HI' :: post))).
  { unfold g2, insertInstBefore. rewrite findBlock_mapInsts, HB. simpl.
    now rewrite insertBefore_at. }
  assert (Hlt2 : freshId g1 < freshId g2).
  { apply (freshId_gt g2 (iid Mul_)). apply in_map. apply in_allInsts.
    destruct (findBlock_Some _ _ HB2) as [HB2in _].
    eexists. split; [exact HB2in|]. simpl. apply in_or_app. right.
    now left. }
  split; [|split; assumption].
  unfold st, rewrite. cbv zeta. simpl graph.
  unfold replaceAllUsesWith. rewrite findBlock_mapInsts.
  fold Mul_. fold g2. fold NewVal.
  unfold insertInstBefore at 1. rewrite findBlock_mapInsts, HB2. simpl.
  replace (pre ++ Mul_ :: HI' :: post)
    with ((pre ++ [Mul_]) ++ HI' :: post)
    by (now rewrite <- app_assoc).
  rewrite insertBefore_at; [now rewrite <- app_assoc| |assumption].
  intros J HJ. apply in_app_or in HJ. destruct HJ as [HJ|[<-|[]]].
  - now apply Hpre.
  - simpl. lia.
Qed.

(** What an identity finds after lines 135-140. *)
Lemma rewrite_shape (HeaderInsert BasicIV PN HI' : Instruction)
  (StartVal StepVal : Value) (D : list InstId) (g1 : Function)
  (h : BlockId) (pre post : list Instruction) :
  findBlock g1 h = Some (mkBB h (pre ++ HI' :: post)) ->
  iid HI' = iid HeaderInsert ->
  ~ In (iid HeaderInsert) (map iid pre) ->
  In (iid PN) (idsOf g1) ->
  iid BasicIV <> iid PN ->
  StartVal <> VInst (iid PN) -> StepVal <> VInst (iid PN) ->
  let Mul_ := mkInst (freshId g1) Mul (ty BasicIV)
                     [VInst (iid BasicIV); StepVal] in
  let g2 := insertInstBefore (iid HeaderInsert) Mul_ g1 in
  let NewVal := mkInst (freshId g2) Add (ty PN)
                       [StartVal; VInst (iid Mul_)] in
  let st := rewrite HeaderInsert BasicIV PN StartVal StepVal D g1 in
  findBlock (graph st) h
  = Some (mkBB h (map (redirect (iid PN) (VInst (iid NewVal)))
                      (pre ++ Mul_ :: NewVal :: HI' :: post))) /\
  findInst (graph st) (iid NewVal) = Some NewVal /\
  findInst (graph st) (iid Mul_) = Some Mul_.
Proof.
  intros HB EHI Hnot HPN Hbasic Hstart Hstep Mul_ g2 NewVal st.
  destruct (@rewrite_header HeaderInsert BasicIV PN HI' StartVal StepVal D
              g1 h pre post HB EHI Hnot) as (Hblk & Hlt1 & Hlt2).
  fold Mul_ in Hblk, Hlt2. fold g2 in Hblk, Hlt2. fold NewVal in Hblk.
  fold st in Hblk.
  assert (Hfresh1 : forall J, In J (allInsts g1) -> iid J < freshId g1).
  { intros J HJ. apply freshId_gt. now apply in_map. }
  assert (Hfresh2 : forall J, In J (allInsts g2) -> iid J < freshId g2).
  { intros J HJ. apply freshId_gt. now apply in_map. }
  assert (HPNlt : iid PN < freshId g1) by (now apply freshId_gt).
  assert (RNew : redirect (iid PN) (VInst (iid NewVal)) NewVal = NewVal).
  { apply redirect_fixed. simpl. intros v [<-|[<-|[]]]; [assumption|].
    intros E. injection E as E. lia. }
  assert (RMul : redirect (iid PN) (VInst (iid NewVal)) Mul_ = Mul_).
  { apply redirect_fixed. simpl. intros v [<-|[<-|[]]]; [|assumption].
    intros E. injection E as E. now apply Hbasic. }
  assert (Hin : forall X,
             In X [Mul_; NewVal] ->
             In (redirect (iid PN) (VInst (iid NewVal)) X)
                (allInsts (graph st))).
  { intros X HX. apply in_allInsts.
    destruct (findBlock_Some _ _ Hblk) as [HBin _].
    eexists. split; [exact HBin|]. simpl. apply in_map.
    apply in_or_app. right. destruct HX as [<-|[<-|[]]].
    - now left.
    - right. now left. }
  assert (Hg : graph st
               = replaceAllUsesWith (iid PN) (VInst (iid NewVal))
                   (insertInstBefore (iid HeaderInsert) NewVal g2))
    by reflexivity.
  split; [exact Hblk|]. split.
  - unfold findInst. apply find_hasId.
    + rewrite <- RNew at 1. apply Hin. right. now left.
    + reflexivity.
    + intros J' HJ' E. rewrite Hg, allInsts_replaceAllUsesWith in HJ'.
      apply in_map_iff in HJ'.
      destruct HJ' as (J & <- & HJ). simpl in E.
      apply in_insertInstBefore in HJ. destruct HJ as [->|HJ];
        [assumption|].
      specialize (Hfresh2 _ HJ). simpl in E. lia.
  - unfold findInst. apply find_hasId.
    + rewrite <- RMul at 1. apply Hin. now left.
    + reflexivity.
    + intros J' HJ' E. rewrite Hg, allInsts_replaceAllUsesWith in HJ'.
      apply in_map_iff in HJ'.
      destruct HJ' as (J & <- & HJ). simpl in E.
      apply in_insertInstBefore in HJ. destruct HJ as [->|HJ].
      * simpl in E. lia.
      * apply in_insertInstBefore in HJ. destruct HJ as [->|HJ];
          [assumption|].
        specialize (Hfresh1 _ HJ). lia.
Qed.

(** The values lines 100-133 give are no PHI nodes of the header, when
    those the expander hands back are none. *)
Lemma resolveStartStep_values (g0 : Function)
  (PreheaderInsert : option Instruction) (g g1 : Function)
  (start step : SCEV) (t : Ty) (StartVal StepVal : Value) (p : InstId) :
  incl (idsOf g0) (idsOf g) ->
  (forall g' S t' pos new v,
      incl (idsOf g0) (idsOf g') ->
      expandCodeFor A g' S t' pos = Some (new, v) -> v <> VInst p) ->
  resolveStartStep A g start step t PreheaderInsert
  = (g1, Some (StartVal, StepVal)) ->
  StartVal <> VInst p /\ StepVal <> VInst p.
Proof.
  intros Hg0 Hval.
  assert (X : forall g' g'' S v pos,
             incl (idsOf g0) (idsOf g') ->
             expandAt A g' S t pos = Some (v, g'') ->
             v <> VInst p /\ incl (idsOf g0) (idsOf g'')).
  { intros g' g'' S v pos Hg' H. unfold expandAt in H.
    destruct (expandCodeFor A g' S t pos) as [[new v']|] eqn:E;
      [|discriminate].
    injection H as -> <-. split; [eapply Hval; eauto|].
    intros i Hi. apply Hg' in Hi. unfold idsOf in *.
    apply in_map_iff in Hi. destruct Hi as (J & <- & HJ). apply in_map.
    now apply insertAllBefore_keeps. }
  unfold resolveStartStep.
  destruct (constantValue start) as [a|] eqn:Ea;
    destruct (constantValue step) as [b|] eqn:Eb.
  - intros H. injection H as _ <- <-.
    split; eapply constantValue_not_inst; eauto.
  - destruct PreheaderInsert as [pos|]; [|discriminate].
    destruct (expandAt A g step t (iid pos)) as [[v g']|] eqn:E;
      [|discriminate].
    intros H. injection H as _ <- <-.
    split; [eapply constantValue_not_inst; eauto|].
    now apply (X _ _ _ _ _ Hg0 E).
  - destruct PreheaderInsert as [pos|]; [|discriminate].
    destruct (expandAt A g start t (iid pos)) as [[v g']|] eqn:E;
      [|discriminate].
    intros H. injection H as _ <- <-.
    split; [|eapply constantValue_not_inst; eauto].
    now apply (X _ _ _ _ _ Hg0 E).
  - destruct PreheaderInsert as [pos|]; [|discriminate].
    destruct (expandAt A g start t (iid pos)) as [[v g']|] eqn:E;
      [|discriminate].
    destruct (X _ _ _ _ _ Hg0 E) as [Hv Hg'].
    destruct (expandAt A g' step t (iid pos)) as [[v' g'']|] eqn:E';
      [|discriminate].
    intros H. injection H as _ <- <-.
    split; [assumption|]. now apply (X _ _ _ _ _ Hg' E').
Qed.

Section Shape.

Variable L : Loop.
Variable Header : BasicBlock.
Variable HeaderInsert : Instruction.
Variable PreheaderInsert : option Instruction.
Variable g0 : Function.

Hypothesis Hhdr : findBlock g0 (getHeader L) = Some Header.
Hypothesis Hfirst : getFirstNonPHI Header = Some HeaderInsert.
Hypothesis Hnd : NoDup (map iid (insts Header)).

(** [PreheaderInsert] is an instruction of the graph and stands outside
    the header. *)
Hypothesis Hpos_in : forall posI,
  PreheaderInsert = Some posI -> In (iid posI) (idsOf g0).
Hypothesis Hpos_out : forall posI,
  PreheaderInsert = Some posI -> ~ In (iid posI) (map iid (insts Header)).

Local Abbreviation headerShape :=
  (DerivedInductionVars.headerShape L Header HeaderInsert PreheaderInsert
                                    g0).

Lemma headerShape_start : headerShape (mkState g0 [] false).
Proof.
  destruct (getFirstNonPHI_split _ Hfirst) as [post Hinsts].
  split; [apply incl_refl|].
  exists (phis (insts Header)), HeaderInsert, post. simpl.
  destruct (findBlock_Some _ _ Hhdr) as [_ Hbid].
  split; [|split; [|split; [|split]]].
  - rewrite Hhdr. f_equal. destruct Header as [b l]. simpl in *.
    now rewrite Hbid, <- Hinsts.
  - reflexivity.
  - rewrite Hinsts, map_app in Hnd. simpl in Hnd.
    apply NoDup_remove_2 in Hnd. intros H. apply Hnd, in_or_app.
    now left.
  - intros P HP. now apply in_map.
  - intros posI HposI. rewrite <- Hinsts. now apply Hpos_out.
Qed.

Lemma expandAt_shape (g g' : Function) (S : SCEV) (t : Ty)
  (posI : Instruction) (v : Value) (B : BasicBlock) :
  PreheaderInsert = Some posI ->
  findBlock g (getHeader L) = Some B ->
  ~ In (iid posI) (map iid (insts B)) ->
  expandAt A g S t (iid posI) = Some (v, g') ->
  findBlock g' (getHeader L) = Some B /\ incl (idsOf g) (idsOf g').
Proof.
  intros HposI HB Hout. unfold expandAt.
  destruct (expandCodeFor A g S t (iid posI)) as [[new v']|] eqn:E;
    [|discriminate].
  intros H. injection H as _ <-. split.
  - now apply findBlock_insertAllBefore.
  - intros i Hi. unfold idsOf in *. apply in_map_iff in Hi.
    destruct Hi as (J & <- & HJ). apply in_map.
    now apply insertAllBefore_keeps.
Qed.

Lemma resolveStartStep_shape (g g1 : Function) (start step : SCEV)
  (t : Ty) (r : option (Value * Value)) (B : BasicBlock) :
  findBlock g (getHeader L) = Some B ->
  (forall posI, PreheaderInsert = Some posI ->
                ~ In (iid posI) (map iid (insts B))) ->
  resolveStartStep A g start step t PreheaderInsert = (g1, r) ->
  findBlock g1 (getHeader L) = Some B /\ incl (idsOf g) (idsOf g1).
Proof.
  intros HB Hout H. apply resolveStartStep_cases in H.
  destruct H as [->|[(posI & S & v & HposI & E)
                    |(posI & S & v & S' & v' & g' & HposI & E & E')]].
  - split; [assumption | apply incl_refl].
  - eapply expandAt_shape; eauto.
  - pose proof expandAt_shape as X.
    destruct (X _ _ _ _ _ _ _ HposI HB (Hout _ HposI) E) as [HB' Hi].
    destruct (X _ _ _ _ _ _ _ HposI HB' (Hout _ HposI) E')
      as [HB'' Hi'].
    split; [assumption | eapply incl_tran; eauto].
Qed.

Lemma visitPHI_shape (st : State) (PN : Instruction) :
  headerShape st ->
  headerShape (visitPHI A L HeaderInsert PreheaderInsert st PN).
Proof.
  intros (Hids & pre & HI' & post & HB & EHI & Hnot & Hphis & Hout).
  destruct (visitPHI_cases L HeaderInsert PreheaderInsert st PN)
    as [->|[(start & step & g1 & E & ->)
           |(start & step & g1 & BasicIV & a & b & E & ->)]].
  - split; [assumption|]. now exists pre, HI', post.
  - pose proof resolveStartStep_shape as X.
    destruct (X _ _ _ _ _ _ _ HB Hout E) as [HB1 Hi1].
    split; [simpl; eapply incl_tran; eauto|].
    exists pre, HI', post. simpl. auto.
  - pose proof resolveStartStep_shape as X.
    destruct (X _ _ _ _ _ _ _ HB Hout E) as [HB1 Hi1]. clear X.
    destruct (@rewrite_header HeaderInsert BasicIV PN HI' a b
                (DeadPHIs st) g1 (getHeader L) pre post HB1 EHI Hnot)
      as (Hblk & Hlt1 & Hlt2).
    set (Mul_ := mkInst (freshId g1) Mul (ty BasicIV)
                        [VInst (iid BasicIV); b]) in *.
    set (g2 := insertInstBefore (iid HeaderInsert) Mul_ g1) in *.
    set (NewVal := mkInst (freshId g2) Add (ty PN)
                          [a; VInst (iid Mul_)]) in *.
    set (r := redirect (iid PN) (VInst (iid NewVal))) in *.
    split.
    { unfold rewrite. simpl graph. fold Mul_. fold g2. fold NewVal.
      unfold idsOf at 2. rewrite allInsts_replaceAllUsesWith, map_map.
      simpl. intros i Hi. apply Hids, Hi1 in Hi.
      unfold idsOf in Hi. apply in_map_iff in Hi.
      destruct Hi as (J & <- & HJ). apply in_map.
      apply insertInstBefore_keeps. now apply insertInstBefore_keeps. }
    exists (map r (pre ++ [Mul_; NewVal])), (r HI'), (map r post).
    split; [|split; [|split; [|split]]].
    + rewrite Hblk. f_equal. f_equal.
      rewrite !map_app. simpl. now rewrite <- app_assoc.
    + exact EHI.
    + rewrite map_map. simpl. rewrite map_app. simpl.
      intros Hin. apply in_app_or in Hin.
      destruct Hin as [Hin|[Hin|[Hin|[]]]].
      * now apply Hnot.
      * lia.
      * lia.
    + intros P HP. rewrite map_map. simpl. rewrite map_app.
      apply in_or_app. left. now apply Hphis.
    + intros posI HposI Hin.
      assert (Hlt : iid posI < freshId g1).
      { apply freshId_gt. apply Hi1, Hids. now apply Hpos_in. }
      replace (map r (pre ++ [Mul_; NewVal]) ++ r HI' :: map r post)
        with (map r ((pre ++ [Mul_; NewVal]) ++ HI' :: post)) in Hin
        by (now rewrite map_app).
      rewrite map_map in Hin. simpl in Hin.
      change (map (fun x => iid x) ((pre ++ [Mul_; NewVal]) ++ HI' :: post))
        with (map iid ((pre ++ [Mul_; NewVal]) ++ HI' :: post)) in Hin.
      rewrite !map_app in Hin. simpl in Hin.
      apply in_app_or in Hin. destruct Hin as [Hin|Hin].
      * apply in_app_or in Hin. destruct Hin as [Hin|[Hin|[Hin|[]]]].
        -- apply (Hout _ HposI). rewrite map_app. apply in_or_app.
           now left.
        -- lia.
        -- lia.
      * apply (Hout _ HposI). rewrite map_app. apply in_or_app.
        now right.
Qed.

Lemma scan_prefix_shape (l : list Instruction) :
  headerShape (fold_left (visitPHI A L HeaderInsert PreheaderInsert)
                         l (mkState g0 [] false)).
Proof.
  assert (G : forall l st,
             headerShape st ->
             headerShape (fold_left
                            (visitPHI A L HeaderInsert PreheaderInsert)
                            l st)).
  { clear l. induction l as [|PN l IH]; simpl; intros st Hst;
      [assumption|].
    apply IH. now apply visitPHI_shape. }
  apply G. apply headerShape_start.
Qed.

End Shape.

End Facts.



End DIVFacts.

(** ** Values of the synthesized instructions *)

Module SemanticsFacts.
Import IR IRFacts Semantics.

Section Eval.

Variable w : nat.

Lemma Ty_eqb_refl (t : Ty) : Ty_eqb t t = true.
Proof. destruct t; simpl; [apply Nat.eqb_refl | reflexivity]. Qed.

Lemma Ty_eqb_eq (a b : Ty) : Ty_eqb a b = true <-> a = b.
Proof.
  destruct a, b; simpl; split; intros H; try discriminate;
    try reflexivity.
  - apply Nat.eqb_eq in H. now subst.
  - injection H as ->. apply Nat.eqb_refl.
Qed.

Lemma evalValue_binary (fuel : nat) (g : Function) (rho : Value -> Z)
  (i : InstId) (J : Instruction) (a b : Value) (x y z : Z) :
  findInst g i = Some J -> ty J = IntegerTy w -> operands J = [a; b] ->
  binop w (opcode J) x y = Some z ->
  evalValue w fuel g rho a = Some x ->
  evalValue w fuel g rho b = Some y ->
  evalValue w (S fuel) g rho (VInst i) = Some z.
Proof.
  intros HJ Hty Hops Hop Ha Hb. cbn [evalValue].
  rewrite HJ, Hty, Ty_eqb_refl, Hops. cbn [negb].
  unfold binop in Hop.
  destruct (opcode J); try discriminate; now rewrite Ha, Hb.
Qed.

(** An instruction of another type has no value at [w] bits. *)
Lemma evalValue_other_type (fuel : nat) (g : Function) (rho : Value -> Z)
  (i : InstId) (J : Instruction) :
  findInst g i = Some J -> ty J <> IntegerTy w ->
  evalValue w fuel g rho (VInst i) = None.
Proof.
  intros HJ Hty.
  assert (E : Ty_eqb (ty J) (IntegerTy w) = false).
  { destruct (Ty_eqb (ty J) (IntegerTy w)) eqn:E; [|reflexivity].
    apply Ty_eqb_eq in E. contradiction. }
  destruct fuel; cbn [evalValue]; now rewrite HJ, E.
Qed.

Lemma evalValue_mono (g : Function) (rho : Value -> Z) (fuel : nat) :
  forall v z, evalValue w fuel g rho v = Some z ->
              evalValue w (S fuel) g rho v = Some z.
Proof.
  induction fuel as [|fuel IH]; intros v z H.
  - destruct v as [i| |]; cbn [evalValue] in *; try assumption.
    destruct (findInst g i) as [J|]; [|discriminate].
    destruct (negb (Ty_eqb (ty J) (IntegerTy w))); [discriminate|].
    destruct (opcode J); try assumption;
      destruct (operands J) as [|a [|b [|c l]]]; try assumption;
      discriminate.
  - destruct v as [i| |]; try assumption.
    cbn [evalValue] in H. cbn [evalValue].
    destruct (findInst g i) as [J|]; [|discriminate].
    destruct (negb (Ty_eqb (ty J) (IntegerTy w))); [discriminate|].
    destruct (opcode J); try assumption;
      destruct (operands J) as [|a [|b [|c l]]]; try assumption;
      (destruct (evalValue w fuel g rho a) as [x|] eqn:Ea; [|discriminate];
       destruct (evalValue w fuel g rho b) as [y|] eqn:Eb; [|discriminate];
       apply IH in Ea; apply IH in Eb; cbn [evalValue] in Ea, Eb;
       now rewrite Ea, Eb).
Qed.

Lemma phiStream_closed (s t : Z) (n : nat) :
  phiStream w s t n = wrap w (s + Z.of_nat n * t).
Proof.
  induction n as [|n IH].
  - simpl. f_equal. lia.
  - cbn [phiStream]. rewrite IH. unfold wrap.
    rewrite Zplus_mod_idemp_l. f_equal. lia.
Qed.

(** [start + i * step] in [w]-bit arithmetic is the value the recurrence
    has in iteration [n], when the counter [i] holds [n]. *)
Lemma closed_form_stream (s t : Z) (n : nat) :
  wrap w (s + wrap w (wrap w (Z.of_nat n) * t)) = phiStream w s t n.
Proof.
  rewrite phiStream_closed. unfold wrap.
  rewrite Zmult_mod_idemp_l, Zplus_mod_idemp_r. reflexivity.
Qed.

End Eval.

End SemanticsFacts.

(** ** DerivedInductionVars: the properties of the specification *)

Module DIVClaims.
Import IR IRFacts DerivedInductionVars DIVFacts Semantics SemanticsFacts.

(** C7 on the code.  The pass never compares the type of the canonical
    counter with the type of the PHI node it rewrites.  In the loop of
    the specification with an [i32] counter and an [i64] recurrence [j],
    line 137 multiplies the counter with the step of [j] and line 138
    adds the start of [j] to the product: the sum (instruction 102) is
    an [i64] that reads the [i32] product (instruction 101).  The graph,
    well-typed before, is not so afterwards, and the sum that every use
    of [j] now reads has no value at any width, where [j] had one.
    Constants carry no type in the model, so the clash shows at the
    sum; in LLVM the product of line 137 already has operands of
    differing type. *)
Lemma mixed_width_rewrite_is_ill_typed :
  let A := Examples.rewriter [(1, 0)] in
  wellTyped Examples.gMixedWidth = true /\
  (forall fuel rho,
      evalValue 64 fuel Examples.gMixedWidth rho (VInst 2)
      = Some (wrap 64 (rho (VInst 2)))) /\
  exists g',
    run A [Examples.loopSimple] Examples.gMixedWidth = (PA_none, g') /\
    findBlock g' 1
    = Some (mkBB 1
              [ mkInst 1 PHI Examples.i32 [VConstInt 0; VInst 12];
                mkInst 101 Mul Examples.i32 [VInst 1; VConstInt 5];
                mkInst 102 Add Examples.i64 [VConstInt 10; VInst 101];
                mkInst 10 Store OtherTy [VInst 102; VOther 0];
                mkInst 11 Add Examples.i64 [VInst 102; VConstInt 5];
                mkInst 12 Add Examples.i32 [VInst 1; VConstInt 1];
                mkInst 13 ICmp Examples.i32 [VInst 12; VOther 1];
                mkInst 14 Br OtherTy [VInst 13] ]) /\
    wellTyped g' = false /\
    forall w fuel rho, evalValue w fuel g' rho (VInst 102) = None.
Proof.
  cbv zeta. split; [reflexivity|]. split.
  { intros fuel rho. destruct fuel; reflexivity. }
  eexists. split; [vm_compute; reflexivity|].
  split; [reflexivity|]. split; [reflexivity|].
  intros w fuel rho.
  match goal with |- evalValue _ _ ?g _ _ = _ => set (g' := g) end.
  assert (F102 : findInst g' 102
                 = Some (mkInst 102 Add Examples.i64
                                [VConstInt 10; VInst 101]))
    by reflexivity.
  assert (F101 : findInst g' 101
                 = Some (mkInst 101 Mul Examples.i32
                                [VInst 1; VConstInt 5]))
    by reflexivity.
  destruct (Nat.eq_dec w 64) as [->|Hw].
  - destruct fuel as [|fuel]; cbn [evalValue]; rewrite F102;
      [reflexivity|].
    cbn [ty opcode operands Examples.i64 Ty_eqb Nat.eqb negb].
    rewrite (@evalValue_other_type 64 fuel g' rho 101 _ F101);
      [now destruct (evalValue 64 fuel g' rho (VConstInt 10))|].
    simpl. discriminate.
  - apply (@evalValue_other_type w fuel g' rho 102 _ F102).
    simpl. unfold Examples.i64. intros E. injection E as E. congruence.
Qed.

(** The loop of the specification, run: [j] with [j_0 = 10] and
    [j_next = j + 5] becomes instruction 102, [10 + i * 5]; the store
    and the increment read it, [j] is gone, and in the iteration in
    which [i] holds [n] it has the value of [j]. *)
Example derived_iv_rewritten :
  let A := Examples.rewriter [(1, 0)] in
  exists g',
    run A [Examples.loopSimple] Examples.gDerived = (PA_none, g') /\
    findBlock g' 1
    = Some (mkBB 1
              [ Examples.phiI;
                mkInst 101 Mul Examples.i32 [VInst 1; VConstInt 5];
                mkInst 102 Add Examples.i32 [VConstInt 10; VInst 101];
                mkInst 10 Store OtherTy [VInst 102; VOther 0];
                mkInst 11 Add Examples.i32 [VInst 102; VConstInt 5];
                mkInst 12 Add Examples.i32 [VInst 1; VConstInt 1];
                mkInst 13 ICmp Examples.i32 [VInst 12; VOther 1];
                mkInst 14 Br OtherTy [VInst 13] ]) /\
    forall n rho,
      rho (VInst 1) = Z.of_nat n ->
      evalValue 32 2 g' rho (VInst 102) = Some (phiStream 32 10 5 n).
Proof.
  eexists. split; [vm_compute; reflexivity|]. split; [reflexivity|].
  intros n rho Hn. rewrite <- closed_form_stream.
  cbn [evalValue]. unfold findInst. cbn [allInsts flat_map insts app find
    hasId iid Nat.eqb opcode operands]. rewrite Hn.
  change (wrap 32 10) with 10%Z. change (wrap 32 5) with 5%Z.
  reflexivity.
Qed.

(** The canonical counter found on the graph is read by its
    increment. *)
Lemma canonicalIV_has_use (g : Function) (L : Loop) (iv : Instruction) :
  Examples.canonicalIV g L = Some iv ->
  exists U, In U (allInsts g) /\ usesInst (iid iv) U = true.
Proof.
  unfold Examples.canonicalIV.
  destruct (findBlock g (getHeader L)) as [H|]; [|discriminate].
  intros F. apply find_some in F. destruct F as [_ F].
  unfold Examples.recurrenceOf in F.
  destruct (opcode iv); try discriminate.
  destruct (operands iv) as [|[| s |] [|inc [|]]]; try discriminate.
  unfold Examples.isIncrementOf in F.
  destruct inc as [k| |]; try discriminate.
  destruct (findInst g k) as [J|] eqn:FJ; [|discriminate].
  destruct (opcode J); try discriminate.
  destruct (operands J) as [|[p| |] [|[| t |] [|]]] eqn:EJ;
    try discriminate.
  destruct (Nat.eqb p (iid iv)) eqn:Ep; [|discriminate].
  apply Nat.eqb_eq in Ep. subst p.
  unfold findInst in FJ. apply find_some in FJ. destruct FJ as [HJ _].
  exists J. split; [assumption|]. unfold usesInst. rewrite EJ. simpl.
  now rewrite Nat.eqb_refl.
Qed.

(** The expander of the examples builds a new instruction and hands it
    back: on a graph that holds the instructions of the loop, neither
    the instruction nor the value is or reads a PHI node of the
    header. *)
Lemma rewriterMixed_expander (g' : Function) (S : SCEV) (t : Ty)
  (pos : InstId) (new : list Instruction) (v : Value) :
  incl (idsOf Examples.gMixedStart) (idsOf g') ->
  expandCodeFor Examples.rewriterMixed g' S t pos = Some (new, v) ->
  forall P, In P (phis (insts Examples.headerMixedStart)) ->
            v <> VInst (iid P) /\
            forall J, In J new -> usesInst (iid P) J = false.
Proof.
  intros Hincl H P HP. simpl in H.
  destruct S as [z|l s s' f|n]; try discriminate.
  injection H as <- <-. split.
  - assert (Hin : In (iid P) (idsOf Examples.gMixedStart)).
    { simpl in HP. destruct HP as [<-|[<-|[<-|[]]]]; simpl; auto. }
    apply Hincl, freshId_gt in Hin. intros E. injection E as E. lia.
  - intros J [<-|[]]. reflexivity.
Qed.

(** C8.  A visit that reaches line 135 redirects every use of the PHI
    node to the sum it has built and only records the node: after the
    visit the node is still in the graph, read by no instruction, and it
    is the last entry of [DeadPHIs].  It stays recorded, in the graph
    and unread until the scan is over; the recorded nodes are erased
    together then, before the sub-loops are visited, and after the
    erasure the node is not in the graph and still read by none.  Every
    recorded node is a PHI node of the header, and nothing but the
    recorded nodes leaves the graph. *)
Theorem dead_phis_erased_after_redirect (A : Analyses) (L : Loop)
  (g : Function) (Header : BasicBlock) (HeaderInsert : Instruction) :
  findBlock g (getHeader L) = Some Header ->
  getFirstNonPHI Header = Some HeaderInsert ->
  (forall g' iv,
      getCanonicalInductionVariable A g' L = Some iv ->
      exists U, In U (allInsts g') /\ usesInst (iid iv) U = true) ->
  (forall g' S t pos new v,
      incl (idsOf g) (idsOf g') ->
      expandCodeFor A g' S t pos = Some (new, v) ->
      forall P, In P (phis (insts Header)) ->
                v <> VInst (iid P) /\
                forall J, In J new -> usesInst (iid P) J = false) ->
  let st := scanHeader A L Header HeaderInsert g in
  analyzeLoopRecursively A L g
  = (loop_flag st,
     fold_left (fun g' SubLoop => snd (analyzeLoopRecursively A SubLoop g'))
               (getSubLoops L) (eraseDead st)) /\
  (forall l1 PN l2 BasicIV StartVal StepVal g1,
      phis (insts Header) = l1 ++ PN :: l2 ->
      let stk := fold_left (visitPHI A L HeaderInsert (preheaderInsert g L))
                           l1 (mkState g [] false) in
      let stk' := visitPHI A L HeaderInsert (preheaderInsert g L) stk PN in
      reachesRewrite A L (preheaderInsert g L) stk PN BasicIV StartVal
                     StepVal g1 ->
      (exists mulId addId,
          graph stk'
          = replaceAllUsesWith (iid PN) (VInst addId)
              (insertInstBefore (iid HeaderInsert)
                 (mkInst addId Add (ty PN) [StartVal; VInst mulId])
                 (insertInstBefore (iid HeaderInsert)
                    (mkInst mulId Mul (ty BasicIV)
                            [VInst (iid BasicIV); StepVal]) g1))) /\
      (DeadPHIs stk' = DeadPHIs stk ++ [iid PN] /\
       In (iid PN) (idsOf (graph stk')) /\ noUse (iid PN) (graph stk')) /\
      (In (iid PN) (DeadPHIs st) /\
       In (iid PN) (idsOf (graph st)) /\ noUse (iid PN) (graph st)) /\
      (~ In (iid PN) (idsOf (eraseDead st)) /\
       noUse (iid PN) (eraseDead st))) /\
  (forall d, In d (DeadPHIs st) ->
             (exists P, In P (phis (insts Header)) /\ iid P = d) /\
             In d (idsOf (graph st)) /\ noUse d (graph st)) /\
  (forall d, In d (DeadPHIs st) ->
             ~ In d (idsOf (eraseDead st)) /\ noUse d (eraseDead st)) /\
  (forall J, In J (allInsts (eraseDead st)) <->
             In J (allInsts (graph st)) /\ ~ In (iid J) (DeadPHIs st)).
Proof.
  intros HB HI Hcan Hexp st.
  destruct (@scanHeader_inv A L Header HeaderInsert (preheaderInsert g L)
              g HB Hcan Hexp) as (Hids & Hdead & Hno).
  fold (scanHeader A L Header HeaderInsert g) in Hids, Hdead, Hno.
  fold st in Hids, Hdead, Hno.
  assert (Hgone : forall d, In d (DeadPHIs st) ->
                    ~ In d (idsOf (eraseDead st))
                    /\ noUse d (eraseDead st)).
  { intros d Hd. split.
    - intros Hin. unfold idsOf in Hin. apply in_map_iff in Hin.
      destruct Hin as (J & E & HJ). apply eraseDead_spec in HJ.
      destruct HJ as [_ HJ]. apply HJ. now rewrite E.
    - intros U HU. apply eraseDead_spec in HU. destruct HU as [HU _].
      now apply (Hno d Hd). }
  assert (Hkept : forall d, In d (DeadPHIs st) ->
                    In d (idsOf (graph st)) /\ noUse d (graph st)).
  { intros d Hd. split; [|auto].
    destruct (Hdead d Hd) as (P & HP & <-). apply Hids.
    eapply header_phi_in_graph; eauto. }
  split; [|split; [|split; [|split]]].
  - rewrite analyzeLoopRecursively_eq, HB, HI. reflexivity.
  - intros l1 PN l2 BasicIV StartVal StepVal g1 Hsplit stk stk' HR.
    assert (HPN : In PN (phis (insts Header))).
    { rewrite Hsplit. apply in_or_app. right. now left. }
    assert (Hl1 : incl l1 (phis (insts Header))).
    { rewrite Hsplit. intros x Hx. apply in_or_app. now left. }
    pose proof (@scan_prefix_inv A L Header HeaderInsert
                  (preheaderInsert g L) g HB Hcan Hexp l1 Hl1) as Hk.
    fold stk in Hk.
    pose proof (@visitPHI_inv A L Header HeaderInsert
                  (preheaderInsert g L) g HB Hcan Hexp stk PN HPN Hk)
      as (Hids' & _ & Hno').
    fold stk' in Hids', Hno'.
    pose proof (visitPHI_rewrites HeaderInsert HR) as Hrw.
    fold stk' in Hrw.
    assert (HD : DeadPHIs stk' = DeadPHIs stk ++ [iid PN])
      by (now rewrite Hrw).
    assert (Hst : st = fold_left
                         (visitPHI A L HeaderInsert (preheaderInsert g L))
                         l2 stk').
    { unfold st, scanHeader. rewrite Hsplit, fold_left_app. reflexivity. }
    assert (Hrec : In (iid PN) (DeadPHIs st)).
    { rewrite Hst. apply DeadPHIs_fold_keeps. rewrite HD.
      apply in_or_app. right. now left. }
    split; [|split; [|split]].
    + eexists. eexists. rewrite Hrw. reflexivity.
    + split; [exact HD|]. split.
      * apply Hids'. eapply header_phi_in_graph; eauto.
      * apply Hno'. rewrite HD. apply in_or_app. right. now left.
    + split; [exact Hrec|]. now apply Hkept.
    + now apply Hgone.
  - intros d Hd. split; [auto|]. now apply Hkept.
  - exact Hgone.
  - intros J. apply eraseDead_spec.
Qed.

Lemma dead_phis_erased_after_redirect_witness :
  let A := Examples.rewriterMixed in
  let g := Examples.gMixedStart in
  let L := Examples.loopSimple in
  let Header := Examples.headerMixedStart in
  let HeaderInsert := Examples.storeJ in
  let st := scanHeader A L Header HeaderInsert g in
  analyzeLoopRecursively A L g
  = (loop_flag st,
     fold_left (fun g' SubLoop => snd (analyzeLoopRecursively A SubLoop g'))
               (getSubLoops L) (eraseDead st)) /\
  (forall l1 PN l2 BasicIV StartVal StepVal g1,
      phis (insts Header) = l1 ++ PN :: l2 ->
      let stk := fold_left (visitPHI A L HeaderInsert (preheaderInsert g L))
                           l1 (mkState g [] false) in
      let stk' := visitPHI A L HeaderInsert (preheaderInsert g L) stk PN in
      reachesRewrite A L (preheaderInsert g L) stk PN BasicIV StartVal
                     StepVal g1 ->
      (exists mulId addId,
          graph stk'
          = replaceAllUsesWith (iid PN) (VInst addId)
              (insertInstBefore (iid HeaderInsert)
                 (mkInst addId Add (ty PN) [StartVal; VInst mulId])
                 (insertInstBefore (iid HeaderInsert)
                    (mkInst mulId Mul (ty BasicIV)
                            [VInst (iid BasicIV); StepVal]) g1))) /\
      (DeadPHIs stk' = DeadPHIs stk ++ [iid PN] /\
       In (iid PN) (idsOf (graph stk')) /\ noUse (iid PN) (graph stk')) /\
      (In (iid PN) (DeadPHIs st) /\
       In (iid PN) (idsOf (graph st)) /\ noUse (iid PN) (graph st)) /\
      (~ In (iid PN) (idsOf (eraseDead st)) /\
       noUse (iid PN) (eraseDead st))) /\
  (forall d, In d (DeadPHIs st) ->
             (exists P, In P (phis (insts Header)) /\ iid P = d) /\
             In d (idsOf (graph st)) /\ noUse d (graph st)) /\
  (forall d, In d (DeadPHIs st) ->
             ~ In d (idsOf (eraseDead st)) /\ noUse d (eraseDead st)) /\
  (forall J, In J (allInsts (eraseDead st)) <->
             In J (allInsts (graph st)) /\ ~ In (iid J) (DeadPHIs st)).
Proof.
  apply (@dead_phis_erased_after_redirect
           Examples.rewriterMixed Examples.loopSimple
           Examples.gMixedStart Examples.headerMixedStart Examples.storeJ).
  - reflexivity.
  - reflexivity.
  - intros g' iv. apply canonicalIV_has_use.
  - apply rewriterMixed_expander.
Defined.

(** The two recurrences of that loop are such nodes.  The visit of [j]
    (PHI 2) reaches line 135 with its constants; the visit of [k]
    (PHI 3), made when [j] has been rewritten, reaches it with the
    instruction 103 that the expander has linked into the preheader for
    the start.  When the scan is over both are recorded, in this order,
    and still in the graph; after the erasure neither is. *)
Example mixed_start_reaches_rewrite :
  let A := Examples.rewriterMixed in
  let L := Examples.loopSimple in
  let g := Examples.gMixedStart in
  let PI := preheaderInsert g L in
  let visit := visitPHI A L Examples.storeJ PI in
  let st1 := fold_left visit [Examples.phiI] (mkState g [] false) in
  let st2 := fold_left visit [Examples.phiI; Examples.phiJ]
                       (mkState g [] false) in
  let st := scanHeader A L Examples.headerMixedStart Examples.storeJ g in
  phis (insts Examples.headerMixedStart)
  = [Examples.phiI; Examples.phiJ; Examples.phiN] /\
  reachesRewrite A L PI st1 Examples.phiJ Examples.phiI
                 (VConstInt 10) (VConstInt 5) g /\
  reachesRewrite A L PI st2 Examples.phiN Examples.phiI
                 (VInst 103) (VConstInt 5)
                 (insertAllBefore 100
                    [mkInst 103 Add Examples.i32 [VOther 3; VConstInt 0]]
                    (graph st2)) /\
  DeadPHIs st = [2; 3] /\
  parentOf (graph st) 2 = Some 1 /\ parentOf (graph st) 3 = Some 1 /\
  parentOf (eraseDead st) 2 = None /\ parentOf (eraseDead st) 3 = None.
Proof.
  cbv zeta. split; [reflexivity|]. split.
  { split; [reflexivity|].
    exists (SCEVConstant 10), (SCEVConstant 5). repeat split. }
  split.
  { split; [reflexivity|].
    exists (SCEVUnknown 3), (SCEVConstant 5).
    split; [reflexivity|]. split; [reflexivity|].
    split; [reflexivity|]. split; reflexivity. }
  repeat split.
Qed.

(** C9.  On a loop nest in which every header PHI node is the canonical
    counter, no integer or no affine recurrence, the routine edits
    nothing and answers "unchanged"; a function whose loops are all so
    gets "everything preserved". *)
Theorem simplified_loops_unchanged (A : Analyses) (LI : list Loop)
  (g : Function) :
  (forall L, In L LI -> Simplified A g L) ->
  (forall L, In L LI -> analyzeLoopRecursively A L g = (false, g)) /\
  run A LI g = (PA_all, g).
Proof.
  intros H. split.
  - intros L HL. apply simplified_unchanged. now apply H.
  - unfold run.
    assert (F : fold_left
                  (fun (acc : bool * Function) L =>
                     let c := analyzeLoopRecursively A L (snd acc) in
                     (if fst c then true else fst acc, snd c))
                  LI (false, g) = (false, g)).
    { induction LI as [|L LI' IH]; simpl; [reflexivity|].
      rewrite (simplified_unchanged (H L (or_introl eq_refl))). simpl.
      apply IH. intros L' HL'. apply H. now right. }
    cbv zeta in *. now rewrite F.
Qed.

(** The graph the rewriter leaves of the loop of the specification. *)
Lemma rewritten_is_simplified :
  Simplified (Examples.rewriter [(1, 0)])
             (snd (run (Examples.rewriter [(1, 0)]) [Examples.loopSimple]
                       Examples.gDerived))
             Examples.loopSimple.
Proof.
  constructor.
  - intros Header PN HB HPN. vm_compute in HB. injection HB as <-.
    simpl in HPN. destruct HPN as [<-|[]].
    right. right. exists Examples.phiI. split; reflexivity.
  - intros S [].
Qed.

Lemma simplified_loops_unchanged_witness :
  let A := Examples.rewriter [(1, 0)] in
  let g' := snd (run A [Examples.loopSimple] Examples.gDerived) in
  (forall L, In L [Examples.loopSimple] ->
             analyzeLoopRecursively A L g' = (false, g')) /\
  run A [Examples.loopSimple] g' = (PA_all, g').
Proof.
  apply (@simplified_loops_unchanged
           (Examples.rewriter [(1, 0)]) [Examples.loopSimple]
           (snd (run (Examples.rewriter [(1, 0)]) [Examples.loopSimple]
                     Examples.gDerived))).
  intros L [<-|[]]. apply rewritten_is_simplified.
Defined.



(** The guarded loop with both kinds of recurrence, run.  The header has
    no preheader.  [j] (PHI 2), with the constant start 10, is replaced
    by instruction 102 and erased; [k] (PHI 3), whose start is an
    argument, stays as it is, and the instruction the expander would
    have built for its start is nowhere: the entry block is what it
    was.  Were block 0 the preheader of the loop, the expander would be
    asked for the start of [k] and its instruction 103 would stand in
    front of the terminator of block 0. *)
Example mixed_header_without_preheader :
  let A := Examples.rewriterMixed in
  exists g',
    run A [Examples.loopNoPreheader] Examples.gGuardedMixed
    = (PA_none, g') /\
    findBlock g' 0 = findBlock Examples.gGuardedMixed 0 /\
    findBlock g' 1
    = Some (mkBB 1
              [ Examples.phiI;
                mkInst 3 PHI Examples.i32 [VOther 3; VInst 15];
                mkInst 101 Mul Examples.i32 [VInst 1; VConstInt 5];
                mkInst 102 Add Examples.i32 [VConstInt 10; VInst 101];
                mkInst 10 Store OtherTy [VInst 102; VOther 0];
                mkInst 16 Store OtherTy [VInst 3; VOther 4];
                mkInst 11 Add Examples.i32 [VInst 102; VConstInt 5];
                mkInst 15 Add Examples.i32 [VInst 3; VConstInt 5];
                mkInst 12 Add Examples.i32 [VInst 1; VConstInt 1];
                mkInst 13 ICmp Examples.i32 [VInst 12; VOther 1];
                mkInst 14 Br OtherTy [VInst 13] ]) /\
    length (allInsts g') = S (length (allInsts Examples.gGuardedMixed)) /\
    exists g'',
      run A [Examples.loopSimple] Examples.gGuardedMixed
      = (PA_none, g'') /\
      findBlock g'' 0
      = Some (mkBB 0
                [ mkInst 99 ICmp Examples.i32 [VOther 1; VConstInt 0];
                  mkInst 103 Add Examples.i32 [VOther 3; VConstInt 0];
                  mkInst 100 Br OtherTy [VInst 99] ]).
Proof.
  cbv zeta. eexists.
  split; [vm_compute; reflexivity|].
  split; [reflexivity|]. split; [reflexivity|]. split; [reflexivity|].
  eexists. split; [vm_compute; reflexivity|]. reflexivity.
Qed.


(** C2 on the code.  In the nest, only the inner loop has a PHI node to
    rewrite.  Called on the inner loop the routine answers "changed";
    called on the outer loop it rewrites the inner loop all the same but
    answers "unchanged", and the pass tells its host that everything is
    preserved for a function it has edited. *)
Lemma sub_loop_change_is_not_reported :
  let A := Examples.rewriter [(1, 0); (3, 1)] in
  fst (analyzeLoopRecursively A Examples.loopInner Examples.gNested) = true
  /\
  exists g',
    analyzeLoopRecursively A Examples.loopOuter Examples.gNested
    = (false, g') /\
    run A [Examples.loopOuter] Examples.gNested = (PA_all, g') /\
    g' = snd (analyzeLoopRecursively A Examples.loopInner Examples.gNested)
    /\
    g' <> Examples.gNested /\
    parentOf Examples.gNested 31 = Some 3 /\
    parentOf g' 31 = None.
Proof.
  simpl. split; [vm_compute; reflexivity|]. eexists.
  split; [vm_compute; reflexivity|].
  split; [vm_compute; reflexivity|].
  split; [vm_compute; reflexivity|].
  split; [intros H; discriminate H|].
  split; reflexivity.
Qed.

End DIVClaims.

(** ** SimpleLICM: further properties of the code *)

Module LICMExtras.
Import IR IRFacts SimpleLICM LICMFacts.

Lemma bid_moveBefore (I : Instruction) (pos : InstId) (g : Function) :
  map bid (moveBefore I pos g) = map bid g.
Proof. unfold moveBefore, removeInst. now rewrite !bid_mapInsts. Qed.

Lemma bid_hoist (A : Analyses) (ph : BlockId) (L : Loop) (g : Function)
  (I : Instruction) : map bid (hoist A ph L g I) = map bid g.
Proof.
  unfold hoist.
  destruct (isSafeToSpeculativelyExecute A I
            && dominatesAllLoopExits A g I L); [|reflexivity].
  destruct (findBlock g ph) as [PH|]; [|reflexivity].
  destruct (getTerminator PH); [apply bid_moveBefore | reflexivity].
Qed.

(** X1.  The hoister leaves the list of blocks as it is: it adds no
    block, drops none and keeps their order, whatever the analyses
    answer. *)
Theorem licm_keeps_block_list (A : Analyses) (L : Loop) (g : Function) :
  exists r, run A L g = Some r /\ map bid (snd r) = map bid g.
Proof.
  destruct (invariantSet_total A g L) as [S HS]. unfold run. rewrite HS.
  destruct (getLoopPreheader L) as [ph|]; [|eauto].
  eexists. split; [reflexivity|]. simpl.
  generalize (iterationOrder A S) g. intros xs.
  induction xs as [|x xs IH]; simpl; intros gc; [reflexivity|].
  now rewrite IH, bid_hoist.
Qed.

(** The pass in closed form, with what is known of the moved
    instructions. *)
Lemma run_hoistedGraph (A : Analyses) (g : Function) (L : Loop)
  (ph : BlockId) (PH : BasicBlock) (init : list Instruction)
  (t : Instruction) :
  wellFormed g ->
  (forall I U, In U (users A g I) <->
               In U (allInsts g) /\ usesInst (iid I) U = true) ->
  (forall S, Permutation S (iterationOrder A S)) ->
  getLoopPreheader L = Some ph ->
  findBlock g ph = Some PH ->
  insts PH = init ++ [t] ->
  isTerminator t = true ->
  ~ In ph (getBlocks L) ->
  exists S,
    invariantSet A g L = Some S /\
    run A L g
    = Some (PA_none, hoistedGraph ph init t (hoisted A L g S) g) /\
    (forall J, In J S -> In J (loopInsts g L)) /\
    NoDup (map iid S) /\
    closedPrefixes g L S /\
    (forall J, In J (hoisted A L g S) -> In J S) /\
    NoDup (map iid (hoisted A L g S)).
Proof.
  intros Hwf Husers Hperm Hpre HPH Hinit Hterm Hout.
  destruct (invariantSet_total A g L) as [S HS]. exists S.
  pose proof (@invariantSet_sound A g L Hwf Husers S HS) as Hsound.
  pose proof (@invariantSet_bounded A g L S HS) as [Hnd _].
  assert (HndO : NoDup (map iid (iterationOrder A S))).
  { eapply Permutation_NoDup; [|exact Hnd].
    apply Permutation_map. apply Hperm. }
  assert (HinO : forall J, In J (iterationOrder A S) -> In J S).
  { intros J HJ.
    eapply Permutation_in; [symmetry; apply Hperm | exact HJ]. }
  split; [assumption|]. split; [|split; [|split; [|split; [|split]]]].
  - unfold run. rewrite Hpre, HS. do 2 f_equal.
    rewrite <- (@hoistedGraph_nil g L ph PH init t Hwf HPH Hinit Hout) at 1.
    rewrite (@fold_hoist A g L ph PH init t Hwf HPH Hinit Hterm Hout).
    + reflexivity.
    + exact HndO.
    + simpl. intros J HJ. now apply Hsound, HinO.
  - intros J HJ. now apply Hsound.
  - assumption.
  - now apply invariantSet_closedPrefixes with (A := A).
  - intros J HJ. unfold hoisted in HJ. apply filter_In in HJ.
    apply HinO. tauto.
  - unfold hoisted. clear - HndO.
    induction (iterationOrder A S) as [|x xs IH]; simpl; [constructor|].
    inversion HndO as [|? ? Hx Hxs]; subst.
    destruct (isSafeToSpeculativelyExecute A x
              && dominatesAllLoopExits A g x L); [|auto].
    simpl. constructor; [|auto]. intros Hin. apply Hx.
    apply in_map_iff in Hin. destruct Hin as (J & E & HJ).
    apply filter_In in HJ. rewrite <- E. apply in_map. tauto.
Qed.

Lemma filter_partition_perm (X : Type) (p : X -> bool) (l : list X) :
  Permutation l (filter p l ++ filter (fun x => negb (p x)) l).
Proof.
  induction l as [|x l IH]; simpl; [constructor|].
  destruct (p x); simpl.
  - now constructor.
  - now apply Permutation_cons_app.
Qed.

Section Moving.

Variable g : Function.
Variable L : Loop.
Variable ph : BlockId.
Variable PH : BasicBlock.
Variable init : list Instruction.
Variable t : Instruction.
Variable H : list Instruction.

Hypothesis Hwf : wellFormed g.
Hypothesis HPH : findBlock g ph = Some PH.
Hypothesis Hinit : insts PH = init ++ [t].
Hypothesis Hout : ~ In ph (getBlocks L).
Hypothesis HH : forall J, In J H -> In J (loopInsts g L).
Hypothesis HndH : NoDup (map iid H).

Let keep (J : Instruction) : bool := negb (count H (iid J)).

Lemma preheader_kept (J : Instruction) :
  In J (insts PH) -> keep J = true.
Proof.
  intros HJ. unfold keep. destruct (count H (iid J)) eqn:E; [|reflexivity].
  exfalso. apply count_In in E. apply in_map_iff in E.
  destruct E as (x & E & Hx).
  apply (@loop_not_preheader g L ph PH Hwf HPH Hout x J); auto.
Qed.

Lemma filter_keep_preheader : filter keep (insts PH) = insts PH.
Proof.
  assert (G : forall l, (forall J, In J l -> keep J = true) ->
                        filter keep l = l).
  { induction l as [|J l IH]; simpl; intros Hl; [reflexivity|].
    rewrite (Hl J (or_introl eq_refl)). f_equal. apply IH.
    intros J' HJ'. apply Hl. now right. }
  apply G. apply preheader_kept.
Qed.

Lemma allInsts_relocated (gs : list BasicBlock) :
  NoDup (map bid gs) -> (forall B, In B gs -> In B g) ->
  (In ph (map bid gs) ->
   Permutation (allInsts (map (relocate ph init t H) gs))
               (filter keep (allInsts gs) ++ H)) /\
  (~ In ph (map bid gs) ->
   allInsts (map (relocate ph init t H) gs) = filter keep (allInsts gs)).
Proof.
  unfold allInsts.
  induction gs as [|B gs IH]; simpl; intros Hnd Hsub.
  - split; [contradiction | reflexivity].
  - inversion Hnd as [|? ? HB Hnd']; subst.
    destruct (IH Hnd' (fun B' HB' => Hsub B' (or_intror HB')))
      as [IHin IHout].
    rewrite filter_app. unfold relocate at 1 3.
    destruct (Nat.eqb (bid B) ph) eqn:E.
    + apply Nat.eqb_eq in E. split; [intros _|intros Hn; tauto].
      assert (HBPH : B = PH).
      { apply (@preheader_block g ph PH Hwf HPH);
          [apply Hsub; now left | assumption]. }
      rewrite E in HB. rewrite (IHout HB). subst B. simpl.
      rewrite filter_keep_preheader, Hinit.
      rewrite <- !app_assoc. apply Permutation_app_head. simpl.
      apply (Permutation_app_comm H
               (t :: filter keep (flat_map insts gs))).
    + apply Nat.eqb_neq in E. simpl. split.
      * intros [Heq|Hin]; [congruence|].
        rewrite <- app_assoc. apply Permutation_app_head. now apply IHin.
      * intros Hn. rewrite IHout; [reflexivity|]. tauto.
Qed.

Lemma moved_are_the_filtered :
  Permutation (filter (fun J => negb (keep J)) (allInsts g)) H.
Proof.
  destruct Hwf as [Hi _].
  apply NoDup_Permutation.
  - apply NoDup_filter. now apply NoDup_map_inv with (f := iid).
  - now apply NoDup_map_inv with (f := iid).
  - intros x. rewrite filter_In. unfold keep. rewrite negb_involutive.
    split.
    + intros [Hx Hc]. apply count_In in Hc. apply in_map_iff in Hc.
      destruct Hc as (J & E & HJ).
      assert (J = x); [|now subst].
      apply (@iid_inj g); auto. now apply loopInsts_allInsts with (L := L),
        HH.
    + intros Hx. split.
      * now apply loopInsts_allInsts with (L := L), HH.
      * apply count_In. now apply in_map.
Qed.

(** Moving the instructions [H] to the preheader neither loses nor
    doubles an instruction. *)
Lemma hoistedGraph_permutation :
  Permutation (allInsts g) (allInsts (hoistedGraph ph init t H g)).
Proof.
  destruct Hwf as [_ Hb]. destruct (findBlock_Some _ _ HPH) as [HPin HPb].
  destruct (@allInsts_relocated g Hb (fun B HB => HB)) as [Hin _].
  unfold hoistedGraph. symmetry.
  eapply Permutation_trans.
  - apply Hin. rewrite <- HPb. now apply in_map.
  - eapply Permutation_trans;
      [|symmetry; apply (filter_partition_perm keep)].
    apply Permutation_app_head. symmetry. apply moved_are_the_filtered.
Qed.

End Moving.

(** X2.  Hoisting only moves: on a well-formed graph the instructions of
    the function after the pass are those before it, each exactly once
    and with the operands it had, and the graph is well-formed again. *)
Theorem licm_only_moves (A : Analyses) (g : Function) (L : Loop)
  (ph : BlockId) (PH : BasicBlock) (init : list Instruction)
  (t : Instruction) :
  wellFormed g ->
  (forall I U, In U (users A g I) <->
               In U (allInsts g) /\ usesInst (iid I) U = true) ->
  (forall S, Permutation S (iterationOrder A S)) ->
  getLoopPreheader L = Some ph ->
  findBlock g ph = Some PH ->
  insts PH = init ++ [t] ->
  isTerminator t = true ->
  ~ In ph (getBlocks L) ->
  exists g',
    run A L g = Some (PA_none, g') /\
    Permutation (allInsts g) (allInsts g') /\
    wellFormed g'.
Proof.
  intros Hwf Husers Hperm Hpre HPH Hinit Hterm Hout.
  destruct (@run_hoistedGraph A g L ph PH init t Hwf Husers Hperm Hpre HPH
              Hinit Hterm Hout)
    as (S & HS & Hrun & Hloop & HndS & _ & HinH & HndH).
  eexists. split; [exact Hrun|].
  assert (P : Permutation (allInsts g)
                (allInsts (hoistedGraph ph init t (hoisted A L g S) g))).
  { apply (@hoistedGraph_permutation g L ph PH init t (hoisted A L g S));
      auto. }
  split; [exact P|]. destruct Hwf as [Hi Hb]. split.
  - eapply Permutation_NoDup; [apply Permutation_map; exact P | exact Hi].
  - unfold hoistedGraph. rewrite map_map.
    rewrite (map_ext _ bid); [assumption|].
    intros B. apply relocate_bid.
Qed.

Lemma licm_only_moves_witness :
  exists g',
    run (Examples.licm Examples.cfgSimple Examples.insertionOrder)
        Examples.loopSimple Examples.gChain = Some (PA_none, g') /\
    Permutation (allInsts Examples.gChain) (allInsts g') /\
    wellFormed g'.
Proof.
  apply (@licm_only_moves
           (Examples.licm Examples.cfgSimple Examples.insertionOrder)
           Examples.gChain Examples.loopSimple 0
           (mkBB 0 [Examples.brPreheader]) [] Examples.brPreheader).
  - apply wellFormedb_sound. reflexivity.
  - intros I U. apply usersOf_spec.
  - intros S. apply Permutation_refl.
  - reflexivity.
  - reflexivity.
  - reflexivity.
  - reflexivity.
  - simpl. lia.
Defined.

Lemma filter_split (X : Type) (p : X -> bool) (l : list X) :
  forall H1 x H2,
    filter p l = H1 ++ x :: H2 ->
    exists l1 l2, l = l1 ++ x :: l2 /\ H1 = filter p l1 /\ p x = true.
Proof.
  induction l as [|y l IH]; simpl; intros H1 x H2 E.
  - destruct H1; discriminate.
  - destruct (p y) eqn:Ey.
    + destruct H1 as [|h H1]; simpl in E.
      * injection E as -> _. exists [], l. simpl. auto.
      * injection E as -> E. destruct (IH _ _ _ E) as (l1 & l2 & -> & -> & Hx).
        exists (h :: l1), l2. simpl. rewrite Ey. auto.
    + destruct (IH _ _ _ E) as (l1 & l2 & -> & -> & Hx).
      exists (y :: l1), l2. simpl. rewrite Ey. auto.
Qed.

(** X3.  When the set is visited in the order of insertion (what a
    [SmallPtrSet] does while it is small), the preheader receives the
    moved instructions so that each stands behind those of its operands
    that were moved too. *)
Theorem insertion_order_hoists_operands_first (A : Analyses)
  (g : Function) (L : Loop) (ph : BlockId) (PH : BasicBlock)
  (init : list Instruction) (t : Instruction) :
  wellFormed g ->
  (forall I U, In U (users A g I) <->
               In U (allInsts g) /\ usesInst (iid I) U = true) ->
  (forall S, iterationOrder A S = S) ->
  getLoopPreheader L = Some ph ->
  findBlock g ph = Some PH ->
  insts PH = init ++ [t] ->
  isTerminator t = true ->
  ~ In ph (getBlocks L) ->
  exists S g',
    invariantSet A g L = Some S /\
    run A L g = Some (PA_none, g') /\
    findBlock g' ph = Some (mkBB ph (init ++ hoisted A L g S ++ [t])) /\
    forall H1 I H2 k,
      hoisted A L g S = H1 ++ I :: H2 ->
      In (VInst k) (operands I) ->
      count (hoisted A L g S) k = true ->
      count H1 k = true.
Proof.
  intros Hwf Husers Hid Hpre HPH Hinit Hterm Hout.
  assert (Hperm : forall S, Permutation S (iterationOrder A S))
    by (intros S; rewrite Hid; apply Permutation_refl).
  destruct (@run_hoistedGraph A g L ph PH init t Hwf Husers Hperm Hpre HPH
              Hinit Hterm Hout)
    as (S & HS & Hrun & Hloop & HndS & Hclosed & HinH & HndH).
  exists S. eexists. split; [exact HS|]. split; [exact Hrun|].
  split; [exact (@findBlock_hoisted g ph PH init t HPH _)|].
  intros H1 I H2 k Hsplit Hop Hk. destruct Hwf as [Hi Hb].
  unfold hoisted in Hsplit. rewrite Hid in Hsplit.
  destruct (filter_split _ _ _ _ _ Hsplit) as (l1 & l2 & HSeq & -> & _).
  apply count_In in Hk. apply in_map_iff in Hk.
  destruct Hk as (J & <- & HJ).
  assert (HJS : In J S) by (now apply HinH).
  assert (Hc : contains g L (iid J) = true).
  { apply contains_loopInsts; [now split| |now apply Hloop].
    apply loopInsts_allInsts with (L := L). now apply Hloop. }
  assert (Hn : nth_error S (length l1) = Some I).
  { rewrite HSeq. rewrite nth_error_app2 by lia.
    now rewrite Nat.sub_diag. }
  pose proof (Hclosed _ _ Hn (iid J) Hop Hc) as Hl1.
  replace (firstn (length l1) S) with l1 in Hl1.
  2:{ rewrite HSeq. rewrite firstn_app, Nat.sub_diag, firstn_all. simpl.
      now rewrite app_nil_r. }
  apply count_In in Hl1. apply in_map_iff in Hl1.
  destruct Hl1 as (J' & E & HJ').
  assert (J' = J).
  { apply (@iid_inj g); auto; apply loopInsts_allInsts with (L := L);
      apply Hloop; [rewrite HSeq; apply in_or_app; now left | assumption]. }
  subst J'. apply count_In. apply in_map. apply filter_In.
  split; [assumption|]. unfold hoisted in HJ. apply filter_In in HJ. tauto.
Qed.

Lemma insertion_order_hoists_operands_first_witness :
  exists S g',
    invariantSet (Examples.licm Examples.cfgSimple Examples.insertionOrder)
                 Examples.gChain Examples.loopSimple = Some S /\
    run (Examples.licm Examples.cfgSimple Examples.insertionOrder)
        Examples.loopSimple Examples.gChain = Some (PA_none, g') /\
    findBlock g' 0
    = Some (mkBB 0
              ([] ++ hoisted
                       (Examples.licm Examples.cfgSimple
                                      Examples.insertionOrder)
                       Examples.loopSimple Examples.gChain S
                  ++ [Examples.brPreheader])) /\
    forall H1 I H2 k,
      hoisted (Examples.licm Examples.cfgSimple Examples.insertionOrder)
              Examples.loopSimple Examples.gChain S = H1 ++ I :: H2 ->
      In (VInst k) (operands I) ->
      count (hoisted
               (Examples.licm Examples.cfgSimple Examples.insertionOrder)
               Examples.loopSimple Examples.gChain S) k = true ->
      count H1 k = true.
Proof.
  apply (@insertion_order_hoists_operands_first
           (Examples.licm Examples.cfgSimple Examples.insertionOrder)
           Examples.gChain Examples.loopSimple 0
           (mkBB 0 [Examples.brPreheader]) [] Examples.brPreheader).
  - apply wellFormedb_sound. reflexivity.
  - intros I U. apply usersOf_spec.
  - reflexivity.
  - reflexivity.
  - reflexivity.
  - reflexivity.
  - reflexivity.
  - simpl. lia.
Defined.

(** X4.  The hoister works on the loop only: an instruction that sits
    outside the loop is never put into the invariant set and is in its
    block after the pass as before. *)
Theorem licm_leaves_instructions_outside_loop (A : Analyses)
  (g : Function) (L : Loop) (I : Instruction) :
  wellFormed g ->
  (forall J U, In U (users A g J) <->
               In U (allInsts g) /\ usesInst (iid J) U = true) ->
  (forall S x, In x (iterationOrder A S) -> In x S) ->
  contains g L (iid I) = false ->
  exists S r,
    invariantSet A g L = Some S /\
    count S (iid I) = false /\
    run A L g = Some r /\
    forall b B, findBlock g b = Some B -> In I (insts B) ->
                exists B', findBlock (snd r) b = Some B' /\ In I (insts B').
Proof.
  intros Hwf Husers Horder Hc.
  destruct (invariantSet_total A g L) as [S HS].
  assert (Hne : forall x, In x S -> iid I <> iid x).
  { intros x Hx E.
    destruct (@invariantSet_sound A g L Hwf Husers S HS x Hx) as [Hl _].
    assert (contains g L (iid x) = true).
    { apply contains_loopInsts; auto. now apply loopInsts_allInsts in Hl. }
    congruence. }
  assert (HcS : count S (iid I) = false).
  { destruct (count S (iid I)) eqn:E; [|reflexivity].
    apply count_In in E. apply in_map_iff in E.
    destruct E as (x & E & Hx). exfalso. now apply (Hne x Hx). }
  unfold run. rewrite HS. destruct (getLoopPreheader L) as [ph|].
  - eexists S, _. repeat split; try reflexivity; try assumption.
    simpl. intros b B HB HIB.
    apply fold_hoist_keeps with (B := B); auto.
  - exists S, (PA_all, g). repeat split; try assumption. simpl. eauto.
Qed.

Lemma licm_leaves_instructions_outside_loop_witness :
  exists S r,
    invariantSet (Examples.licm Examples.cfgSimple Examples.insertionOrder)
                 Examples.gChain Examples.loopSimple = Some S /\
    count S 20 = false /\
    run (Examples.licm Examples.cfgSimple Examples.insertionOrder)
        Examples.loopSimple Examples.gChain = Some r /\
    forall b B, findBlock Examples.gChain b = Some B ->
                In (mkInst 20 Ret OtherTy [VInst 11]) (insts B) ->
                exists B', findBlock (snd r) b = Some B' /\
                           In (mkInst 20 Ret OtherTy [VInst 11]) (insts B').
Proof.
  apply (@licm_leaves_instructions_outside_loop
           (Examples.licm Examples.cfgSimple Examples.insertionOrder)
           Examples.gChain Examples.loopSimple
           (mkInst 20 Ret OtherTy [VInst 11])).
  - apply wellFormedb_sound. reflexivity.
  - intros J U. apply usersOf_spec.
  - intros S x Hx. exact Hx.
  - reflexivity.
Defined.

(** X5.  An instruction of the loop that reads a PHI node of the loop,
    or reads an instruction of the loop that may touch memory, is not
    invariant, however invariant its other operands are: it never
    enters the set and stays in its block. *)
Theorem reader_of_phi_never_hoisted (A : Analyses) (g : Function)
  (L : Loop) (I K : Instruction) :
  wellFormed g ->
  (forall J U, In U (users A g J) <->
               In U (allInsts g) /\ usesInst (iid J) U = true) ->
  (forall S x, In x (iterationOrder A S) -> In x S) ->
  In I (loopInsts g L) ->
  In K (loopInsts g L) ->
  In (VInst (iid K)) (operands I) ->
  isPHINode K || mayReadOrWriteMemory A K = true ->
  exists S r,
    invariantSet A g L = Some S /\
    count S (iid I) = false /\
    run A L g = Some r /\
    forall b B, findBlock g b = Some B -> In I (insts B) ->
                exists B', findBlock (snd r) b = Some B' /\ In I (insts B').
Proof.
  intros Hwf Husers Horder HI HK Hop Himp.
  destruct (invariantSet_total A g L) as [S HS].
  pose proof (@invariantSet_sound A g L Hwf Husers S HS) as Hsound.
  pose proof (@invariantSet_closedPrefixes A g L S HS) as Hclosed.
  assert (HIn : ~ In I S).
  { intros HIS.
    assert (HcK : contains g L (iid K) = true).
    { apply contains_loopInsts; auto. now apply loopInsts_allInsts in HK. }
    pose proof (closedPrefixes_operandsIn I Hclosed HIS (iid K) Hop HcK)
      as HKS.
    apply count_In in HKS. apply in_map_iff in HKS.
    destruct HKS as (K' & E & HK').
    assert (K' = K).
    { destruct Hwf as [Hi _]. apply (@iid_inj g); auto;
        apply loopInsts_allInsts with (L := L); [now apply Hsound | auto]. }
    subst K'. destruct (@invariantSet_pure A g L S HS K HK') as [H1 H2].
    rewrite H1, H2 in Himp. discriminate. }
  assert (Hne : forall x, In x S -> iid I <> iid x).
  { intros x Hx E. apply HIn.
    assert (I = x); [|now subst].
    destruct Hwf as [Hi _]. apply (@iid_inj g); auto;
      apply loopInsts_allInsts with (L := L); [auto | now apply Hsound]. }
  assert (HcS : count S (iid I) = false).
  { destruct (count S (iid I)) eqn:E; [|reflexivity].
    apply count_In in E. apply in_map_iff in E.
    destruct E as (x & E & Hx). exfalso. now apply (Hne x Hx). }
  unfold run. rewrite HS. destruct (getLoopPreheader L) as [ph|].
  - eexists S, _. repeat split; try reflexivity; try assumption.
    simpl. intros b B HB HIB.
    apply fold_hoist_keeps with (B := B); auto.
  - exists S, (PA_all, g). repeat split; try assumption. simpl. eauto.
Qed.

Lemma reader_of_phi_never_hoisted_witness :
  exists S r,
    invariantSet (Examples.licm Examples.cfgSimple Examples.insertionOrder)
                 Examples.gChain Examples.loopSimple = Some S /\
    count S 12 = false /\
    run (Examples.licm Examples.cfgSimple Examples.insertionOrder)
        Examples.loopSimple Examples.gChain = Some r /\
    forall b B, findBlock Examples.gChain b = Some B ->
                In (mkInst 12 Add Examples.i32 [VInst 1; VConstInt 1])
                   (insts B) ->
                exists B', findBlock (snd r) b = Some B' /\
                           In (mkInst 12 Add Examples.i32
                                      [VInst 1; VConstInt 1]) (insts B').
Proof.
  apply (@reader_of_phi_never_hoisted
           (Examples.licm Examples.cfgSimple Examples.insertionOrder)
           Examples.gChain Examples.loopSimple
           (mkInst 12 Add Examples.i32 [VInst 1; VConstInt 1])
           (mkInst 1 PHI Examples.i32 [VConstInt 0; VInst 12])).
  - apply wellFormedb_sound. reflexivity.
  - intros J U. apply usersOf_spec.
  - intros S x Hx. exact Hx.
  - simpl. auto.
  - simpl. auto.
  - simpl. auto.
  - reflexivity.
Defined.

(** X6.  The worklist loop ends, and what it returns lists instructions
    of the loop, none of them twice: the set is never larger than the
    loop. *)
Theorem invariant_set_within_loop (A : Analyses) (g : Function) (L : Loop) :
  wellFormed g ->
  (forall J U, In U (users A g J) <->
               In U (allInsts g) /\ usesInst (iid J) U = true) ->
  exists S,
    invariantSet A g L = Some S /\
    NoDup (map iid S) /\
    (forall J, In J S -> In J (loopInsts g L)) /\
    length S <= length (loopInsts g L).
Proof.
  intros Hwf Husers. destruct (invariantSet_total A g L) as [S HS].
  pose proof (@invariantSet_sound A g L Hwf Husers S HS) as Hsound.
  pose proof (@invariantSet_bounded A g L S HS) as [Hnd _].
  exists S. repeat split; try assumption.
  - intros J HJ. now apply Hsound.
  - apply NoDup_incl_length.
    + now apply NoDup_map_inv with (f := iid).
    + intros J HJ. now apply Hsound.
Qed.

Lemma invariant_set_within_loop_witness :
  exists S,
    invariantSet (Examples.licm Examples.cfgDiamond Examples.insertionOrder)
                 Examples.gDiamond Examples.loopDiamond = Some S /\
    NoDup (map iid S) /\
    (forall J, In J S ->
               In J (loopInsts Examples.gDiamond Examples.loopDiamond)) /\
    length S <= length (loopInsts Examples.gDiamond Examples.loopDiamond).
Proof.
  apply (@invariant_set_within_loop
           (Examples.licm Examples.cfgDiamond Examples.insertionOrder)
           Examples.gDiamond Examples.loopDiamond).
  - apply wellFormedb_sound. reflexivity.
  - intros J U. apply usersOf_spec.
Defined.

Lemma Invariant_ext (A A' : Analyses) (g : Function) (L : Loop) :
  (forall I, mayReadOrWriteMemory A I = mayReadOrWriteMemory A' I) ->
  forall i, Invariant A g L i -> Invariant A' g L i.
Proof.
  intros Hmem i Hi. induction Hi as [I HI H1 H2 _ IH].
  constructor; auto. now rewrite <- Hmem.
Qed.

(** X7.  The invariant set does not depend on the order in which LLVM
    lists the users of a value: two runs that differ in the use lists
    only end with the same members. *)
Theorem invariant_set_independent_of_use_order (A A' : Analyses)
  (g : Function) (L : Loop) :
  wellFormed g ->
  (forall J U, In U (users A g J) <->
               In U (allInsts g) /\ usesInst (iid J) U = true) ->
  (forall J U, In U (users A' g J) <->
               In U (allInsts g) /\ usesInst (iid J) U = true) ->
  (forall I, mayReadOrWriteMemory A I = mayReadOrWriteMemory A' I) ->
  exists S S',
    invariantSet A g L = Some S /\
    invariantSet A' g L = Some S' /\
    Permutation S S'.
Proof.
  intros Hwf Hu Hu' Hmem.
  destruct (invariantSet_total A g L) as [S HS].
  destruct (invariantSet_total A' g L) as [S' HS'].
  exists S, S'. split; [assumption|]. split; [assumption|].
  pose proof (@invariantSet_sound A g L Hwf Hu S HS) as Hs.
  pose proof (@invariantSet_sound A' g L Hwf Hu' S' HS') as Hs'.
  pose proof (@invariantSet_bounded A g L S HS) as [Hnd _].
  pose proof (@invariantSet_bounded A' g L S' HS') as [Hnd' _].
  assert (G : forall B B' T T',
             (forall I, mayReadOrWriteMemory B I
                        = mayReadOrWriteMemory B' I) ->
             invariantSet B' g L = Some T' ->
             (forall J U, In U (users B' g J) <->
                          In U (allInsts g) /\ usesInst (iid J) U = true) ->
             sound B g L T -> sound B' g L T' ->
             forall x, In x T -> In x T').
  { intros B B' T T' Hm HT' HuB' HsT HsT' x Hx.
    destruct (HsT x Hx) as [Hl Hinv].
    apply (@Invariant_ext B B' g L Hm) in Hinv.
    pose proof (@invariantSet_complete B' g L Hwf HuB' T' HT' _ Hinv) as Hc.
    apply count_In in Hc. apply in_map_iff in Hc.
    destruct Hc as (y & E & Hy).
    assert (y = x); [|now subst].
    destruct Hwf as [Hi _]. apply (@iid_inj g); auto;
      apply loopInsts_allInsts with (L := L); [now apply HsT' | auto]. }
  apply NoDup_Permutation.
  - now apply NoDup_map_inv with (f := iid).
  - now apply NoDup_map_inv with (f := iid).
  - intros x. split.
    + apply (G A A' S S'); auto.
    + apply (G A' A S' S); auto.
Qed.

Lemma invariant_set_independent_of_use_order_witness :
  exists S S',
    invariantSet (Examples.licm Examples.cfgSimple Examples.insertionOrder)
                 Examples.gChain Examples.loopSimple = Some S /\
    invariantSet
      (mkAnalyses Examples.memOp Examples.speculatable
                  (CFG.dominates Examples.cfgSimple 0)
                  (fun g I => rev (usersOf g (iid I)))
                  Examples.insertionOrder)
      Examples.gChain Examples.loopSimple = Some S' /\
    Permutation S S'.
Proof.
  apply (@invariant_set_independent_of_use_order
           (Examples.licm Examples.cfgSimple Examples.insertionOrder)
           (mkAnalyses Examples.memOp Examples.speculatable
                       (CFG.dominates Examples.cfgSimple 0)
                       (fun g I => rev (usersOf g (iid I)))
                       Examples.insertionOrder)
           Examples.gChain Examples.loopSimple).
  - apply wellFormedb_sound. reflexivity.
  - intros J U. apply usersOf_spec.
  - intros J U. simpl. rewrite <- in_rev. apply usersOf_spec.
  - reflexivity.
Defined.

(** *** The lines the pass prints *)

Lemma hoistLog_fst (A : Analyses) (ph : BlockId) (L : Loop)
  (st : Function * list Trace.LICMEvent) (I : Instruction) :
  fst (Trace.hoistLog A ph L st I) = hoist A ph L (fst st) I.
Proof.
  unfold Trace.hoistLog, hoist.
  destruct (isSafeToSpeculativelyExecute A I
            && dominatesAllLoopExits A (fst st) I L); reflexivity.
Qed.

Lemma fold_hoistLog_fst (A : Analyses) (ph : BlockId) (L : Loop)
  (xs : list Instruction) :
  forall st,
    fst (fold_left (Trace.hoistLog A ph L) xs st)
    = fold_left (hoist A ph L) xs (fst st).
Proof.
  induction xs as [|x xs IH]; simpl; intros st; [reflexivity|].
  now rewrite IH, hoistLog_fst.
Qed.

Lemma hoistingLines_map (l : list Instruction) :
  Trace.hoistingLines (map Trace.Hoisting l) = l.
Proof. induction l as [|x l IH]; simpl; [reflexivity | now f_equal]. Qed.

(** X8.  The output tells what was done.  For a loop with preheader the
    pass prints nothing but lines "Hoisting:", one for each instruction
    it moves and in the order of the moves; the instructions of these
    lines are the ones that stand in the preheader in front of its
    terminator afterwards.  Dropping the output gives [run]. *)
Theorem licm_log_lists_the_moves (A : Analyses) (g : Function) (L : Loop)
  (ph : BlockId) (PH : BasicBlock) (init : list Instruction)
  (t : Instruction) :
  wellFormed g ->
  (forall I U, In U (users A g I) <->
               In U (allInsts g) /\ usesInst (iid I) U = true) ->
  (forall S, Permutation S (iterationOrder A S)) ->
  getLoopPreheader L = Some ph ->
  findBlock g ph = Some PH ->
  insts PH = init ++ [t] ->
  isTerminator t = true ->
  ~ In ph (getBlocks L) ->
  exists g' log,
    Trace.runLog A L g = Some (PA_none, g', log) /\
    run A L g = Some (PA_none, g') /\
    log = map Trace.Hoisting (Trace.hoistingLines log) /\
    findBlock g' ph
    = Some (mkBB ph (init ++ Trace.hoistingLines log ++ [t])).
Proof.
  intros Hwf Husers Hperm Hpre HPH Hinit Hterm Hout.
  destruct (@run_hoistedGraph A g L ph PH init t Hwf Husers Hperm Hpre HPH
              Hinit Hterm Hout)
    as (S & HS & Hrun & Hloop & HndS & _ & HinH & HndH).
  assert (HndO : NoDup (map iid (iterationOrder A S))).
  { eapply Permutation_NoDup; [|exact HndS].
    apply Permutation_map. apply Hperm. }
  assert (HinO : forall J, In J (iterationOrder A S) ->
                           In J (loopInsts g L)).
  { intros J HJ. apply Hloop.
    eapply Permutation_in; [symmetry; apply Hperm | exact HJ]. }
  assert (G : forall xs H log,
             NoDup (map iid (H ++ xs)) ->
             (forall J, In J (H ++ xs) -> In J (loopInsts g L)) ->
             snd (fold_left (Trace.hoistLog A ph L) xs
                            (hoistedGraph ph init t H g, log))
             = log ++ map Trace.Hoisting
                          (filter (fun I =>
                                     isSafeToSpeculativelyExecute A I
                                     && dominatesAllLoopExits A g I L) xs)).
  { induction xs as [|x xs IH]; simpl; intros H log Hnd Hin.
    - now rewrite app_nil_r.
    - assert (Hc : count H (iid x) = false).
      { destruct (count H (iid x)) eqn:E; [|reflexivity].
        apply count_In in E. rewrite map_app in Hnd. simpl in Hnd.
        apply NoDup_remove_2 in Hnd. exfalso. apply Hnd.
        apply in_or_app. now left. }
      pose proof (@fold_hoist A g L ph PH init t Hwf HPH Hinit Hterm Hout
                    [x] H) as Hstep.
      simpl in Hstep.
      assert (Hnd1 : NoDup (map iid (H ++ [x]))).
      { rewrite map_app in *. simpl in *.
        apply NoDup_remove in Hnd. destruct Hnd as [Hnd Hx].
        apply NoDup_snoc; [now apply NoDup_app_l in Hnd|].
        intros Hi. apply Hx. apply in_or_app. now left. }
      specialize (Hstep Hnd1).
      assert (Hin1 : forall J, In J (H ++ [x]) -> In J (loopInsts g L)).
      { intros J HJ. apply Hin. apply in_app_or in HJ. apply in_or_app.
        destruct HJ as [HJ|[<-|[]]]; [now left | right; now left]. }
      specialize (Hstep Hin1).
      unfold Trace.hoistLog at 2. simpl fst. simpl snd.
      rewrite (@dominatesAllLoopExits_hoisted A g L ph PH init t Hwf HPH
                 Hinit H x Hc).
      unfold hoist in Hstep.
      rewrite (@dominatesAllLoopExits_hoisted A g L ph PH init t Hwf HPH
                 Hinit H x Hc) in Hstep.
      destruct (isSafeToSpeculativelyExecute A x
                && dominatesAllLoopExits A g x L).
      + rewrite Hstep. rewrite IH.
        * simpl. now rewrite <- app_assoc.
        * now rewrite <- app_assoc.
        * intros J HJ. apply Hin. now rewrite <- app_assoc in HJ.
      + rewrite IH; [reflexivity| |].
        * rewrite map_app in *. simpl in Hnd. now apply NoDup_remove_1 in Hnd.
        * intros J HJ. apply Hin. apply in_app_or in HJ. apply in_or_app.
          destruct HJ; [now left | right; now right]. }
  exists (hoistedGraph ph init t (hoisted A L g S) g),
         (map Trace.Hoisting (hoisted A L g S)).
  pose proof (hoistingLines_map (hoisted A L g S)) as Hlines.
  split; [|split; [exact Hrun|split]].
  - assert (Hsnd : snd (fold_left (Trace.hoistLog A ph L)
                                  (iterationOrder A S) (g, []))
                   = map Trace.Hoisting (hoisted A L g S)).
    { pose proof (G (iterationOrder A S) [] [] HndO HinO) as Hsnd.
      now rewrite (@hoistedGraph_nil g L ph PH init t Hwf HPH Hinit Hout)
        in Hsnd. }
    unfold Trace.runLog. rewrite Hpre, HS. cbv zeta.
    rewrite fold_hoistLog_fst, Hsnd. simpl fst.
    unfold run in Hrun. rewrite Hpre, HS in Hrun.
    injection Hrun as Hrun. now rewrite Hrun.
  - now rewrite Hlines.
  - rewrite Hlines. exact (@findBlock_hoisted g ph PH init t HPH _).
Qed.

Lemma licm_log_lists_the_moves_witness :
  exists g' log,
    Trace.runLog (Examples.licm Examples.cfgSimple Examples.insertionOrder)
                 Examples.loopSimple Examples.gChain
    = Some (PA_none, g', log) /\
    run (Examples.licm Examples.cfgSimple Examples.insertionOrder)
        Examples.loopSimple Examples.gChain = Some (PA_none, g') /\
    log = map Trace.Hoisting (Trace.hoistingLines log) /\
    findBlock g' 0
    = Some (mkBB 0 ([] ++ Trace.hoistingLines log
                       ++ [Examples.brPreheader])).
Proof.
  apply (@licm_log_lists_the_moves
           (Examples.licm Examples.cfgSimple Examples.insertionOrder)
           Examples.gChain Examples.loopSimple 0
           (mkBB 0 [Examples.brPreheader]) [] Examples.brPreheader).
  - apply wellFormedb_sound. reflexivity.
  - intros I U. apply usersOf_spec.
  - intros S. apply Permutation_refl.
  - reflexivity.
  - reflexivity.
  - reflexivity.
  - reflexivity.
  - simpl. lia.
Defined.

(** *** A second run *)

Section SecondRun.

Variable A : Analyses.
Variable g : Function.
Variable L : Loop.
Variable ph : BlockId.
Variable PH : BasicBlock.
Variable init : list Instruction.
Variable t : Instruction.
Variable S H : list Instruction.

Hypothesis Hwf : wellFormed g.
Hypothesis Husers : forall I U, In U (users A g I) <->
                                In U (allInsts g) /\ usesInst (iid I) U = true.
Hypothesis HPH : findBlock g ph = Some PH.
Hypothesis Hinit : insts PH = init ++ [t].
Hypothesis Hout : ~ In ph (getBlocks L).
Hypothesis HS : invariantSet A g L = Some S.
Hypothesis HH : forall J, In J H -> In J S.
Hypothesis HndH : NoDup (map iid H).

Lemma hoisted_in_loop (J : Instruction) : In J H -> In J (loopInsts g L).
Proof.
  intros HJ. apply (@invariantSet_sound A g L Hwf Husers S HS J).
  now apply HH.
Qed.

Lemma hoistedGraph_wellFormed : wellFormed (hoistedGraph ph init t H g).
Proof.
  assert (P : Permutation (allInsts g)
                          (allInsts (hoistedGraph ph init t H g))).
  { apply (@hoistedGraph_permutation g L ph PH init t H); auto.
    exact hoisted_in_loop. }
  destruct Hwf as [Hi Hb]. split.
  - eapply Permutation_NoDup; [apply Permutation_map; exact P | exact Hi].
  - unfold hoistedGraph. rewrite map_map.
    rewrite (map_ext _ bid); [assumption|].
    intros B. apply relocate_bid.
Qed.

(** The loop after the move holds what it held, less the moved
    instructions. *)
Lemma loopInsts_hoisted (x : Instruction) :
  In x (loopInsts (hoistedGraph ph init t H g) L) ->
  In x (loopInsts g L) /\ count H (iid x) = false.
Proof.
  rewrite !loopInsts_In. intros (b & B' & Hb & HB' & Hx).
  unfold hoistedGraph in HB'.
  rewrite findBlock_map in HB' by (intros B; apply relocate_bid).
  destruct (findBlock g b) as [B|] eqn:E; [|discriminate].
  simpl in HB'. injection HB' as <-.
  assert (Hne : Nat.eqb (bid B) ph = false).
  { apply Nat.eqb_neq. intros Eb. apply Hout.
    apply findBlock_Some in E. destruct E as [_ E]. congruence. }
  unfold relocate in Hx. rewrite Hne in Hx. simpl in Hx.
  apply filter_In in Hx. destruct Hx as [Hx Hc].
  split; [now exists b, B|]. now apply negb_true_iff in Hc.
Qed.

Lemma contains_hoisted (k : InstId) :
  count H k = false ->
  contains (hoistedGraph ph init t H g) L k = contains g L k.
Proof.
  intros Hc. unfold contains.
  now rewrite (@parentOf_hoisted g ph PH init t Hwf HPH Hinit H k Hc).
Qed.

(** What is invariant after the move was invariant before. *)
Lemma Invariant_hoisted (i : InstId) :
  Invariant A (hoistedGraph ph init t H g) L i -> Invariant A g L i.
Proof.
  induction 1 as [X HX Hphi Hmem Hops IH].
  apply loopInsts_hoisted in HX. destruct HX as [HX _].
  constructor; try assumption.
  intros k Hk Hc. destruct (count H k) eqn:E.
  - apply count_In in E. apply in_map_iff in E.
    destruct E as (J & <- & HJ).
    apply (@invariantSet_sound A g L Hwf Husers S HS J). now apply HH.
  - apply IH; [assumption|]. now rewrite contains_hoisted.
Qed.

End SecondRun.

(** X9.  A second run moves nothing: on the graph the pass leaves, the
    pass finds no instruction to hoist and gives the graph back as it
    is.  The hypotheses are those of a verified function whose loop has
    a preheader outside the loop, with use lists that list the users;
    the dominator tree and the answers on single instructions are those
    of the first run, as no block and no operand has changed. *)
Theorem licm_second_run_moves_nothing (A : Analyses) (g : Function)
  (L : Loop) (ph : BlockId) (PH : BasicBlock) (init : list Instruction)
  (t : Instruction) :
  wellFormed g ->
  (forall g0 I U, In U (users A g0 I) <->
                  In U (allInsts g0) /\ usesInst (iid I) U = true) ->
  (forall S, Permutation S (iterationOrder A S)) ->
  getLoopPreheader L = Some ph ->
  findBlock g ph = Some PH ->
  insts PH = init ++ [t] ->
  isTerminator t = true ->
  ~ In ph (getBlocks L) ->
  exists g',
    run A L g = Some (PA_none, g') /\
    run A L g' = Some (PA_none, g').
Proof.
  intros Hwf Husers Hperm Hpre HPH Hinit Hterm Hout.
  destruct (@run_hoistedGraph A g L ph PH init t Hwf (Husers g) Hperm Hpre
              HPH Hinit Hterm Hout)
    as (S & HS & Hrun & Hloop & HndS & _ & HinH & HndH).
  exists (hoistedGraph ph init t (hoisted A L g S) g).
  split; [exact Hrun|].
  assert (Hwf' : wellFormed (hoistedGraph ph init t (hoisted A L g S) g)).
  { apply (@hoistedGraph_wellFormed A g L ph PH init t S
             (hoisted A L g S)); auto. }
  destruct (invariantSet_total A
              (hoistedGraph ph init t (hoisted A L g S) g) L) as [S' HS'].
  unfold run. rewrite Hpre, HS'. f_equal. f_equal.
  apply fold_hoist_unchanged. intros x Hx.
  apply (Permutation_in _ (Permutation_sym (Hperm S'))) in Hx.
  destruct (@invariantSet_sound A _ L Hwf' (Husers _) S' HS' x Hx)
    as [Hx1 Hx2].
  apply loopInsts_hoisted in Hx1; [|exact Hout].
  destruct Hx1 as [Hxl Hxc].
  apply (@Invariant_hoisted A g L ph PH init t S (hoisted A L g S)
           Hwf (Husers g) HPH Hinit Hout HS HinH) in Hx2.
  rewrite (@dominatesAllLoopExits_hoisted A g L ph PH init t Hwf HPH Hinit
             (hoisted A L g S) x Hxc).
  assert (HxS : In x S).
  { apply (@invariantSet_complete A g L Hwf (Husers g) S HS) in Hx2.
    apply count_In in Hx2. apply in_map_iff in Hx2.
    destruct Hx2 as (y & Ey & Hy).
    replace x with y; [assumption|].
    destruct Hwf as [Hi _].
    apply (iid_inj g y x Hi);
      [|now apply (loopInsts_allInsts g L)|assumption].
    apply (loopInsts_allInsts g L). now apply Hloop. }
  destruct (isSafeToSpeculativelyExecute A x
            && dominatesAllLoopExits A g x L) eqn:T; [|reflexivity].
  exfalso.
  assert (Hin : In x (hoisted A L g S)).
  { unfold hoisted. apply filter_In. split; [|exact T].
    now apply (Permutation_in _ (Hperm S)). }
  assert (C : count (hoisted A L g S) (iid x) = true).
  { apply count_In. now apply in_map. }
  congruence.
Qed.

Lemma licm_second_run_moves_nothing_witness :
  exists g',
    run (Examples.licm Examples.cfgSimple Examples.insertionOrder)
        Examples.loopSimple Examples.gDiv = Some (PA_none, g') /\
    run (Examples.licm Examples.cfgSimple Examples.insertionOrder)
        Examples.loopSimple g' = Some (PA_none, g').
Proof.
  apply (@licm_second_run_moves_nothing
           (Examples.licm Examples.cfgSimple Examples.insertionOrder)
           Examples.gDiv Examples.loopSimple 0
           (mkBB 0 [Examples.brPreheader]) [] Examples.brPreheader).
  - apply wellFormedb_sound. reflexivity.
  - intros g0 I U. apply usersOf_spec.
  - intros S. apply Permutation_refl.
  - reflexivity.
  - reflexivity.
  - reflexivity.
  - reflexivity.
  - simpl. lia.
Defined.

End LICMExtras.

(** ** DerivedInductionVars: further properties of the code *)

Module DIVExtras.
Import IR IRFacts DerivedInductionVars DIVFacts Semantics SemanticsFacts.

Section Extras.

Variable A : Analyses.

(** *** The list of blocks *)

Lemma bid_insertAllBefore (pos : InstId) (new : list Instruction) :
  forall g, map bid (insertAllBefore pos new g) = map bid g.
Proof.
  unfold insertAllBefore. induction new as [|J new IH]; simpl; intros g;
    [reflexivity|].
  rewrite IH. apply bid_mapInsts.
Qed.

Lemma bid_expandAt (g g' : Function) (S : SCEV) (t : Ty) (pos : InstId)
  (v : Value) :
  expandAt A g S t pos = Some (v, g') -> map bid g' = map bid g.
Proof.
  unfold expandAt.
  destruct (expandCodeFor A g S t pos) as [[new v']|]; [|discriminate].
  intros H. injection H as _ <-. apply bid_insertAllBefore.
Qed.

Lemma bid_resolveStartStep (g g1 : Function) (start step : SCEV) (t : Ty)
  (PreheaderInsert : option Instruction) (r : option (Value * Value)) :
  resolveStartStep A g start step t PreheaderInsert = (g1, r) ->
  map bid g1 = map bid g.
Proof.
  intros H. apply resolveStartStep_cases in H.
  destruct H as [->|[(pos & S & v & _ & E)
                    |(pos & S & v & S' & v' & g' & _ & E & E')]].
  - reflexivity.
  - eapply bid_expandAt; eauto.
  - apply bid_expandAt in E. apply bid_expandAt in E'. congruence.
Qed.

Lemma bid_visitPHI (L : Loop) (HeaderInsert : Instruction)
  (PreheaderInsert : option Instruction) (st : State) (PN : Instruction) :
  map bid (graph (visitPHI A L HeaderInsert PreheaderInsert st PN))
  = map bid (graph st).
Proof.
  destruct (visitPHI_cases A L HeaderInsert PreheaderInsert st PN)
    as [->|[(start & step & g1 & E & ->)
           |(start & step & g1 & B & a & b & E & ->)]].
  - reflexivity.
  - simpl. eapply bid_resolveStartStep; eauto.
  - unfold rewrite. simpl. unfold replaceAllUsesWith, insertInstBefore.
    rewrite !bid_mapInsts. eapply bid_resolveStartStep; eauto.
Qed.

Lemma bid_scanHeader (L : Loop) (Header : BasicBlock)
  (HeaderInsert : Instruction) (g : Function) :
  map bid (graph (scanHeader A L Header HeaderInsert g)) = map bid g.
Proof.
  unfold scanHeader.
  change (map bid g) with (map bid (graph (mkState g [] false))).
  generalize (mkState g [] false) (phis (insts Header)).
  intros st l. revert st.
  induction l as [|PN l IH]; simpl; intros st; [reflexivity|].
  now rewrite IH, bid_visitPHI.
Qed.

Lemma bid_eraseDead (st : State) :
  map bid (eraseDead st) = map bid (graph st).
Proof.
  unfold eraseDead. generalize (graph st). intros g.
  revert g. induction (DeadPHIs st) as [|d D IH]; simpl; intros g;
    [reflexivity|].
  rewrite IH. unfold removeInst. apply bid_mapInsts.
Qed.

Lemma bid_analyzeLoopRecursively (L : Loop) :
  forall g, map bid (snd (analyzeLoopRecursively A L g)) = map bid g.
Proof.
  revert L. apply (Loop_nest_ind
    (fun L => forall g,
         map bid (snd (analyzeLoopRecursively A L g)) = map bid g)).
  intros l h b p e subs IH g. rewrite analyzeLoopRecursively_eq.
  destruct (findBlock g (getHeader (mkLoop l h b p e subs)))
    as [Header|]; [|reflexivity].
  destruct (getFirstNonPHI Header) as [HeaderInsert|]; [|reflexivity].
  cbv zeta. simpl snd. simpl getSubLoops.
  rewrite <- (bid_scanHeader (mkLoop l h b p e subs) Header HeaderInsert g).
  rewrite <- bid_eraseDead.
  generalize (eraseDead
                (scanHeader A (mkLoop l h b p e subs) Header HeaderInsert g)).
  induction subs as [|S subs IHs]; simpl; intros g1; [reflexivity|].
  rewrite IHs; [apply IH; now left|].
  intros S' HS'. apply IH. now right.
Qed.

(** *** The vector [DeadPHIs] and [loop_flag] *)

Lemma flag_tracks_DeadPHIs (L : Loop) (HeaderInsert : Instruction)
  (PreheaderInsert : option Instruction) (l : list Instruction) :
  forall st,
    (loop_flag st = true <-> DeadPHIs st <> []) ->
    let st' := fold_left (visitPHI A L HeaderInsert PreheaderInsert) l st in
    loop_flag st' = true <-> DeadPHIs st' <> [].
Proof.
  induction l as [|PN l IH]; simpl; intros st H; [assumption|].
  apply IH.
  destruct (DeadPHIs_visitPHI A L HeaderInsert PreheaderInsert st PN)
    as [[-> ->]|[-> ->]]; [assumption|].
  split; [|reflexivity]. intros _ E.
  now destruct (DeadPHIs st).
Qed.

Lemma mem_snoc_other (D : list InstId) (p i : InstId) :
  i <> p ->
  existsb (Nat.eqb i) (D ++ [p]) = existsb (Nat.eqb i) D.
Proof.
  intros H. rewrite existsb_app. simpl.
  apply Nat.eqb_neq in H. rewrite H. now rewrite !orb_false_r.
Qed.

(** The recorded nodes are the visited ones that were rewritten, in the
    order of the visits. *)
Lemma DeadPHIs_in_order (L : Loop) (HeaderInsert : Instruction)
  (PreheaderInsert : option Instruction) (l : list Instruction) :
  forall (pre : list InstId) (st : State),
    NoDup (pre ++ map iid l) ->
    DeadPHIs st = filter (fun i => existsb (Nat.eqb i) (DeadPHIs st)) pre ->
    let st' := fold_left (visitPHI A L HeaderInsert PreheaderInsert) l st in
    DeadPHIs st'
    = filter (fun i => existsb (Nat.eqb i) (DeadPHIs st'))
             (pre ++ map iid l).
Proof.
  induction l as [|PN l IH]; simpl; intros pre st ND H.
  - now rewrite app_nil_r.
  - replace (pre ++ iid PN :: map iid l)
      with ((pre ++ [iid PN]) ++ map iid l) in *
      by (now rewrite <- app_assoc).
    apply IH; [assumption|].
    assert (Hpn : ~ In (iid PN) pre).
    { apply NoDup_app_remove_r in ND. apply NoDup_remove_2 in ND.
      now rewrite app_nil_r in ND. }
    rewrite filter_app. simpl.
    destruct (DeadPHIs_visitPHI A L HeaderInsert PreheaderInsert st PN)
      as [[-> _]|[-> _]].
    + assert (F : existsb (Nat.eqb (iid PN)) (DeadPHIs st) = false).
      { destruct (existsb (Nat.eqb (iid PN)) (DeadPHIs st)) eqn:E;
          [|reflexivity].
        exfalso. apply Hpn. apply existsb_exists in E.
        destruct E as (d & Hd & E). apply Nat.eqb_eq in E. subst d.
        rewrite H in Hd. now apply filter_In in Hd. }
      rewrite F, app_nil_r. exact H.
    + assert (T : existsb (Nat.eqb (iid PN)) (DeadPHIs st ++ [iid PN])
                  = true).
      { rewrite existsb_app. simpl. rewrite Nat.eqb_refl.
        now rewrite orb_true_r. }
      rewrite T. f_equal. rewrite H at 1.
      apply filter_ext_in. intros i Hi. symmetry. apply mem_snoc_other.
      intros ->. now apply Hpn.
Qed.

(** *** What a visit skips *)

Lemma visitPHI_no_canonical (L : Loop) (HeaderInsert : Instruction)
  (PreheaderInsert : option Instruction) (st : State) (PN : Instruction) :
  getCanonicalInductionVariable A (graph st) L = None ->
  visitPHI A L HeaderInsert PreheaderInsert st PN = st.
Proof.
  intros H. unfold visitPHI. rewrite H.
  destruct (negb (isIntegerTy (ty PN))); [reflexivity|].
  destruct (getSCEV A (graph st) (iid PN)) as [z|l start step f|n];
    try reflexivity.
  now destruct (Nat.eqb l (getLoopId L) && f).
Qed.

Lemma visitPHI_foreign (L : Loop) (HeaderInsert : Instruction)
  (PreheaderInsert : option Instruction) (st : State) (PN : Instruction) :
  match getSCEV A (graph st) (iid PN) with
  | SCEVAddRecExpr l _ _ _ =>
      l <> getLoopId L
      \/ isSafeToExpand A (graph st) (getSCEV A (graph st) (iid PN)) = false
  | _ => True
  end ->
  visitPHI A L HeaderInsert PreheaderInsert st PN = st.
Proof.
  intros H. unfold visitPHI.
  destruct (negb (isIntegerTy (ty PN))); [reflexivity|].
  destruct (getSCEV A (graph st) (iid PN)) as [z|l start step f|n] eqn:E;
    try reflexivity.
  destruct H as [H|H].
  - apply Nat.eqb_neq in H. now rewrite H.
  - rewrite H. simpl.
    destruct (Nat.eqb l (getLoopId L) && f); [|reflexivity].
    now destruct (getCanonicalInductionVariable A (graph st) L).
Qed.

Lemma scan_identity (L : Loop) (HeaderInsert : Instruction)
  (PreheaderInsert : option Instruction) (st : State)
  (l : list Instruction) :
  (forall PN, In PN l ->
              visitPHI A L HeaderInsert PreheaderInsert st PN = st) ->
  fold_left (visitPHI A L HeaderInsert PreheaderInsert) l st = st.
Proof.
  induction l as [|PN l IH]; simpl; intros H; [reflexivity|].
  rewrite (H PN) by now left. apply IH. intros P HP. apply H. now right.
Qed.

(** *** The instructions a visit keeps *)

Lemma redirect_unused (old : InstId) (new : Value) (J : Instruction) :
  usesInst old J = false -> redirect old new J = J.
Proof.
  unfold usesInst, redirect. destruct J as [i o t ops]. simpl.
  intros H. f_equal.
  induction ops as [|v ops IH]; simpl in *; [reflexivity|].
  apply orb_false_iff in H. destruct H as [Hv H].
  rewrite IH by assumption. f_equal.
  destruct v as [k|z|n]; simpl in *; try reflexivity.
  destruct (Nat.eqb k old) eqn:E; [|reflexivity].
  apply Nat.eqb_eq in E. subst k.
  now rewrite Nat.eqb_refl in Hv.
Qed.

Lemma block_mapInsts (f : list Instruction -> list Instruction)
  (J : Instruction) (b : BlockId) (g : Function) :
  (forall l, In J l -> In J (f l)) ->
  (exists B, In B g /\ bid B = b /\ In J (insts B)) ->
  exists B, In B (mapInsts f g) /\ bid B = b /\ In J (insts B).
Proof.
  intros Hf (B & HB & Hb & HJ).
  exists (mkBB (bid B) (f (insts B))). repeat split.
  - unfold mapInsts. apply in_map_iff. now exists B.
  - assumption.
  - simpl. now apply Hf.
Qed.

Lemma block_insertAllBefore (pos : InstId) (new : list Instruction)
  (J : Instruction) (b : BlockId) :
  forall g,
    (exists B, In B g /\ bid B = b /\ In J (insts B)) ->
    exists B, In B (insertAllBefore pos new g) /\ bid B = b
              /\ In J (insts B).
Proof.
  unfold insertAllBefore.
  induction new as [|K new IH]; simpl; intros g H; [assumption|].
  apply IH. unfold insertInstBefore. apply block_mapInsts; [|assumption].
  intros l. apply In_insertBefore.
Qed.

Lemma block_expandAt (g g' : Function) (S : SCEV) (t : Ty) (pos : InstId)
  (v : Value) (J : Instruction) (b : BlockId) :
  expandAt A g S t pos = Some (v, g') ->
  (exists B, In B g /\ bid B = b /\ In J (insts B)) ->
  exists B, In B g' /\ bid B = b /\ In J (insts B).
Proof.
  unfold expandAt.
  destruct (expandCodeFor A g S t pos) as [[new v']|]; [|discriminate].
  intros H. injection H as _ <-. apply block_insertAllBefore.
Qed.

Lemma block_visitPHI (L : Loop) (HeaderInsert : Instruction)
  (PreheaderInsert : option Instruction) (st : State) (PN : Instruction)
  (J : Instruction) (b : BlockId) :
  usesInst (iid PN) J = false ->
  (exists B, In B (graph st) /\ bid B = b /\ In J (insts B)) ->
  exists B,
    In B (graph (visitPHI A L HeaderInsert PreheaderInsert st PN))
    /\ bid B = b /\ In J (insts B).
Proof.
  intros Hu H.
  assert (R : forall start step g1 r,
             resolveStartStep A (graph st) start step (ty PN)
                              PreheaderInsert = (g1, r) ->
             exists B, In B g1 /\ bid B = b /\ In J (insts B)).
  { intros start step g1 r E. apply resolveStartStep_cases in E.
    destruct E as [->|[(pos & S & v & _ & E)
                      |(pos & S & v & S' & v' & g' & _ & E & E')]].
    - assumption.
    - eapply block_expandAt; eauto.
    - eapply block_expandAt; [exact E'|].
      eapply block_expandAt; eauto. }
  destruct (visitPHI_cases A L HeaderInsert PreheaderInsert st PN)
    as [->|[(start & step & g1 & E & ->)
           |(start & step & g1 & BIV & a & c & E & ->)]].
  - assumption.
  - simpl. eapply R; eauto.
  - unfold rewrite. simpl. unfold replaceAllUsesWith, insertInstBefore.
    apply block_mapInsts.
    { intros l Hl. apply in_map_iff. exists J. split; [|assumption].
      now apply redirect_unused. }
    apply block_mapInsts; [intros l; apply In_insertBefore|].
    apply block_mapInsts; [intros l; apply In_insertBefore|].
    eapply R; eauto.
Qed.

(** *** The output of the header scan *)

Lemma resolveStartStepLog_result (g : Function) (start step : SCEV)
  (t : Ty) (PreheaderInsert : option Instruction) :
  resolveStartStep A g start step t PreheaderInsert
  = (fst (Trace.resolveStartStepLog A g start step t PreheaderInsert),
     match snd (Trace.resolveStartStepLog A g start step t
                                          PreheaderInsert) with
     | inl p => Some p
     | inr _ => None
     end).
Proof.
  unfold resolveStartStep, Trace.resolveStartStepLog.
  destruct (constantValue start) as [a|];
    destruct (constantValue step) as [b|];
    try reflexivity;
    destruct PreheaderInsert as [pos|]; try reflexivity.
  - now destruct (expandAt A g step t (iid pos)) as [[v g']|].
  - now destruct (expandAt A g start t (iid pos)) as [[v g']|].
  - destruct (expandAt A g start t (iid pos)) as [[v g']|];
      [|reflexivity].
    now destruct (expandAt A g' step t (iid pos)) as [[v' g'']|].
Qed.

(** One visit with its output: the state is that of [visitPHI], and the
    visit prints at most one line, which names the node visited; the
    line is "Found Derived IV" exactly when the node is recorded. *)
Lemma visitPHILog_step (L : Loop) (HeaderInsert : Instruction)
  (PreheaderInsert : option Instruction)
  (sl : State * list Trace.DIVEvent) (PN : Instruction) :
  let sl' := Trace.visitPHILog A L HeaderInsert PreheaderInsert sl PN in
  fst sl' = visitPHI A L HeaderInsert PreheaderInsert (fst sl) PN /\
  ((snd sl' = snd sl /\ DeadPHIs (fst sl') = DeadPHIs (fst sl))
   \/ (exists e, snd sl' = snd sl ++ [e] /\ Trace.eventPHI e = iid PN /\
                 Trace.foundPHIs [e] = [] /\
                 DeadPHIs (fst sl') = DeadPHIs (fst sl))
   \/ (exists start step,
         snd sl' = snd sl ++ [Trace.FoundDerivedIV (iid PN) start step] /\
         DeadPHIs (fst sl') = DeadPHIs (fst sl) ++ [iid PN])).
Proof.
  unfold Trace.visitPHILog, visitPHI. destruct sl as [st log]. simpl.
  destruct (negb (isIntegerTy (ty PN))); [split; [reflexivity|now left]|].
  destruct (getSCEV A (graph st) (iid PN)) as [z|l start step f|n];
    try (split; [reflexivity|now left]).
  destruct (Nat.eqb l (getLoopId L) && f);
    [|split; [reflexivity|now left]].
  destruct (getCanonicalInductionVariable A (graph st) L) as [BasicIV|].
  2:{ split; [reflexivity|]. right. left.
      exists (Trace.NoCanonicalIV (iid PN)). now repeat split. }
  match goal with |- context [if ?c then _ else _] => destruct c end.
  { split; [reflexivity|]. right. left.
    exists (Trace.SkippingUnsafeToExpand (iid PN)). now repeat split. }
  rewrite resolveStartStepLog_result.
  destruct (Trace.resolveStartStepLog A (graph st) start step (ty PN)
                                      PreheaderInsert)
    as [g1 [[a b]|fl]]; simpl.
  - split; [reflexivity|]. right. right. now exists start, step.
  - split; [reflexivity|]. right. left.
    exists (Trace.failureEvent fl (iid PN)).
    now destruct fl; repeat split.
Qed.

Lemma foundPHIs_app (l1 l2 : list Trace.DIVEvent) :
  Trace.foundPHIs (l1 ++ l2) = Trace.foundPHIs l1 ++ Trace.foundPHIs l2.
Proof.
  induction l1 as [|e l1 IH]; simpl; [reflexivity|].
  destruct e; simpl; now rewrite IH.
Qed.

Lemma scanLog_inv (L : Loop) (HeaderInsert : Instruction)
  (PreheaderInsert : option Instruction) (l : list Instruction) :
  forall (sl : State * list Trace.DIVEvent),
    let sl' := fold_left
                 (Trace.visitPHILog A L HeaderInsert PreheaderInsert) l sl in
    fst sl' = fold_left (visitPHI A L HeaderInsert PreheaderInsert) l
                        (fst sl) /\
    (Trace.foundPHIs (snd sl) = DeadPHIs (fst sl) ->
     Trace.foundPHIs (snd sl') = DeadPHIs (fst sl')) /\
    (exists new, snd sl' = snd sl ++ new /\
                 length new <= length l /\
                 forall e, In e new ->
                           exists P, In P l /\ iid P = Trace.eventPHI e).
Proof.
  induction l as [|PN l IH]; simpl; intros sl.
  - split; [reflexivity|]. split; [auto|].
    exists []. rewrite app_nil_r.
    split; [reflexivity|]. split; [simpl; lia|]. intros e [].
  - specialize (IH (Trace.visitPHILog A L HeaderInsert PreheaderInsert
                                      sl PN)).
    destruct IH as (F & D & new & N & Len & Ev).
    destruct (visitPHILog_step L HeaderInsert PreheaderInsert sl PN)
      as (F1 & C).
    split; [now rewrite F, F1|]. split.
    + intros H. apply D.
      destruct C as [[-> ->]|[(e & -> & _ & Fe & ->)
                             |(start & step & -> & ->)]].
      * assumption.
      * rewrite foundPHIs_app, Fe, app_nil_r. assumption.
      * rewrite foundPHIs_app, H. reflexivity.
    + destruct C as [[E _]|[(e & E & Pe & _ & _)
                           |(start & step & E & _)]].
      * exists new. rewrite N, E.
        split; [reflexivity|]. split; [lia|].
        intros e He. destruct (Ev e He) as (P & HP & EP). eauto.
      * exists (e :: new). rewrite N, E, <- app_assoc.
        split; [reflexivity|]. split; [simpl; lia|].
        intros e' [<-|He].
        -- exists PN. split; [now left|now symmetry].
        -- destruct (Ev e' He) as (P & HP & EP). eauto.
      * exists (Trace.FoundDerivedIV (iid PN) start step :: new).
        rewrite N, E, <- app_assoc.
        split; [reflexivity|]. split; [simpl; lia|].
        intros e' [<-|He].
        -- exists PN. split; [now left|reflexivity].
        -- destruct (Ev e' He) as (P & HP & EP). eauto.
Qed.

End Extras.

(** X10.  The rewriter leaves the list of blocks as it is: whatever the
    analyses answer and whatever the expander builds, no block is added,
    dropped or put elsewhere. *)
Theorem rewriter_keeps_block_list (A : Analyses) (LI : list Loop)
  (g : Function) :
  map bid (snd (run A LI g)) = map bid g.
Proof.
  unfold run. simpl snd.
  assert (G : forall c,
             map bid (snd (fold_left
                (fun (acc : bool * Function) L =>
                   let r := analyzeLoopRecursively A L (snd acc) in
                   (if fst r then true else fst acc, snd r))
                LI (c, g))) = map bid g).
  { revert g. induction LI as [|L LI' IH]; simpl; intros g c;
      [reflexivity|].
    rewrite IH. apply bid_analyzeLoopRecursively. }
  apply G.
Qed.

(** X11.  A call answers "changed" exactly when the scan of its own
    header recorded a PHI node to erase; the header has to be a block of
    the function that holds an instruction that is no PHI node.  What the
    calls on the sub-loops do has no part in the answer. *)
Theorem change_reported_iff_phi_recorded (A : Analyses) (L : Loop)
  (g : Function) :
  fst (analyzeLoopRecursively A L g) = true <->
  exists Header HeaderInsert,
    findBlock g (getHeader L) = Some Header /\
    getFirstNonPHI Header = Some HeaderInsert /\
    DeadPHIs (scanHeader A L Header HeaderInsert g) <> [].
Proof.
  rewrite analyzeLoopRecursively_eq.
  destruct (findBlock g (getHeader L)) as [Header|].
  2:{ simpl. split; [discriminate|]. intros (H & HI & E & _).
      discriminate E. }
  destruct (getFirstNonPHI Header) as [HeaderInsert|] eqn:EH.
  2:{ simpl. split; [discriminate|]. intros (H & HI & E1 & E2 & _).
      injection E1 as <-. congruence. }
  cbv zeta. simpl fst.
  assert (F : loop_flag (scanHeader A L Header HeaderInsert g) = true <->
              DeadPHIs (scanHeader A L Header HeaderInsert g) <> []).
  { unfold scanHeader. apply flag_tracks_DeadPHIs. simpl.
    split; [discriminate|]. intros H. now contradiction H. }
  split.
  - intros H. exists Header, HeaderInsert.
    split; [reflexivity|]. split; [exact EH|]. now apply F.
  - intros (H & HI & E1 & E2 & D).
    injection E1 as <-. rewrite EH in E2. injection E2 as <-.
    now apply F.
Qed.

(** X12.  When the PHI nodes of the header have distinct identities, the
    vector [DeadPHIs] lists each recorded node once and in the order of
    the header: it is the list of the header's PHI nodes cut down to the
    recorded ones.  No node is erased twice. *)
Theorem dead_phis_in_header_order (A : Analyses) (L : Loop)
  (Header : BasicBlock) (HeaderInsert : Instruction) (g : Function) :
  NoDup (map iid (phis (insts Header))) ->
  let D := DeadPHIs (scanHeader A L Header HeaderInsert g) in
  NoDup D /\
  D = filter (fun i => existsb (Nat.eqb i) D) (map iid (phis (insts Header))).
Proof.
  intros ND D.
  assert (E : D = filter (fun i => existsb (Nat.eqb i) D)
                         (map iid (phis (insts Header)))).
  { unfold D, scanHeader.
    apply (DeadPHIs_in_order A L HeaderInsert (preheaderInsert g L)
             (phis (insts Header)) [] (mkState g [] false)).
    - exact ND.
    - reflexivity. }
  split; [|exact E].
  rewrite E. now apply NoDup_filter.
Qed.

Lemma dead_phis_in_header_order_witness :
  let D := DeadPHIs (scanHeader (Examples.rewriter [(1, 0)])
                                Examples.loopSimple Examples.headerDerived
                                Examples.storeJ Examples.gDerived) in
  NoDup D /\
  D = filter (fun i => existsb (Nat.eqb i) D)
             (map iid (phis (insts Examples.headerDerived))).
Proof.
  apply (@dead_phis_in_header_order
           (Examples.rewriter [(1, 0)]) Examples.loopSimple
           Examples.headerDerived Examples.storeJ Examples.gDerived).
  simpl. repeat constructor; simpl; intuition discriminate.
Defined.

(** X13.  A loop for which LLVM finds no canonical induction variable is
    left alone: the scan of its header changes nothing and records
    nothing, the call answers "unchanged", and a loop without sub-loops
    gives back the graph it was given. *)
Theorem no_canonical_counter_no_rewrite (A : Analyses) (L : Loop)
  (g : Function) :
  getCanonicalInductionVariable A g L = None ->
  (forall Header HeaderInsert,
      scanHeader A L Header HeaderInsert g = mkState g [] false) /\
  fst (analyzeLoopRecursively A L g) = false /\
  (getSubLoops L = [] -> snd (analyzeLoopRecursively A L g) = g).
Proof.
  intros H.
  assert (S : forall Header HeaderInsert,
             scanHeader A L Header HeaderInsert g = mkState g [] false).
  { intros Header HeaderInsert. unfold scanHeader. apply scan_identity.
    intros PN _. now apply visitPHI_no_canonical. }
  split; [exact S|].
  rewrite analyzeLoopRecursively_eq.
  destruct (findBlock g (getHeader L)) as [Header|]; [|now split].
  destruct (getFirstNonPHI Header) as [HeaderInsert|]; [|now split].
  cbv zeta. rewrite S. simpl. split; [reflexivity|].
  intros ->. reflexivity.
Qed.

Lemma no_canonical_counter_no_rewrite_witness :
  let A := Examples.rewriter [(1, 0)] in
  (forall Header HeaderInsert,
      scanHeader A Examples.loopSimple Header HeaderInsert
                 Examples.gNoCounter
      = mkState Examples.gNoCounter [] false) /\
  fst (analyzeLoopRecursively A Examples.loopSimple Examples.gNoCounter)
  = false /\
  (getSubLoops Examples.loopSimple = [] ->
   snd (analyzeLoopRecursively A Examples.loopSimple Examples.gNoCounter)
   = Examples.gNoCounter).
Proof.
  apply (@no_canonical_counter_no_rewrite
           (Examples.rewriter [(1, 0)]) Examples.loopSimple
           Examples.gNoCounter).
  reflexivity.
Defined.

(** X14.  The recurrence of another loop and a recurrence that is not
    safe to expand are never rewritten: when every PHI node of the
    header is none of this loop's recurrences or is unsafe to expand,
    the scan changes nothing, records nothing and leaves the flag
    down. *)
Theorem foreign_and_unsafe_recurrences_untouched (A : Analyses) (L : Loop)
  (Header : BasicBlock) (HeaderInsert : Instruction) (g : Function) :
  (forall PN, In PN (phis (insts Header)) ->
     match getSCEV A g (iid PN) with
     | SCEVAddRecExpr l _ _ _ =>
         l <> getLoopId L
         \/ isSafeToExpand A g (getSCEV A g (iid PN)) = false
     | _ => True
     end) ->
  scanHeader A L Header HeaderInsert g = mkState g [] false /\
  eraseDead (scanHeader A L Header HeaderInsert g) = g.
Proof.
  intros H.
  assert (S : scanHeader A L Header HeaderInsert g = mkState g [] false).
  { unfold scanHeader. apply scan_identity.
    intros PN HPN. apply visitPHI_foreign. simpl. now apply H. }
  split; [exact S|]. now rewrite S.
Qed.

Lemma foreign_and_unsafe_recurrences_untouched_witness :
  let A := Examples.rewriter [(1, 5)] in
  scanHeader A Examples.loopSimple Examples.headerDerived Examples.storeJ
             Examples.gDerived
  = mkState Examples.gDerived [] false /\
  eraseDead (scanHeader A Examples.loopSimple Examples.headerDerived
                        Examples.storeJ Examples.gDerived)
  = Examples.gDerived.
Proof.
  apply (@foreign_and_unsafe_recurrences_untouched
           (Examples.rewriter [(1, 5)]) Examples.loopSimple
           Examples.headerDerived Examples.storeJ Examples.gDerived).
  intros PN [<-|[<-|[]]]; vm_compute; left; discriminate.
Defined.

(** X15.  The rewrite touches the header's PHI nodes and their readers
    only.  An instruction that is no PHI node of the header and reads
    none of them stands in its block, unchanged, after the scan and the
    erasing, whatever the analyses answer and the expander builds. *)
Theorem rewrite_keeps_other_instructions (A : Analyses) (L : Loop)
  (Header : BasicBlock) (HeaderInsert : Instruction) (g : Function)
  (J : Instruction) (b : BlockId) :
  (forall P, In P (phis (insts Header)) ->
             iid P <> iid J /\ usesInst (iid P) J = false) ->
  (exists B, In B g /\ bid B = b /\ In J (insts B)) ->
  exists B, In B (eraseDead (scanHeader A L Header HeaderInsert g))
            /\ bid B = b /\ In J (insts B).
Proof.
  intros HP HJ.
  assert (Scan : forall l st,
             (forall P, In P l -> iid P <> iid J
                                  /\ usesInst (iid P) J = false) ->
             (exists B, In B (graph st) /\ bid B = b /\ In J (insts B)) ->
             ~ In (iid J) (DeadPHIs st) ->
             let st' := fold_left
                          (visitPHI A L HeaderInsert (preheaderInsert g L))
                          l st in
             (exists B, In B (graph st') /\ bid B = b /\ In J (insts B))
             /\ ~ In (iid J) (DeadPHIs st')).
  { induction l as [|PN l IH]; simpl; intros st Hl Hst Hd; [now split|].
    destruct (Hl PN (or_introl eq_refl)) as [Hne Hu].
    apply IH.
    - intros P HP'. apply Hl. now right.
    - now apply block_visitPHI.
    - destruct (DeadPHIs_visitPHI A L HeaderInsert (preheaderInsert g L)
                                  st PN) as [[-> _]|[-> _]];
        [assumption|].
      intros Hin. apply in_app_or in Hin. destruct Hin as [Hin|[E|[]]].
      + now apply Hd.
      + now apply Hne. }
  destruct (Scan (phis (insts Header)) (mkState g [] false) HP HJ)
    as [Hg Hd]; [intros []|].
  fold (scanHeader A L Header HeaderInsert g) in Hg, Hd.
  unfold eraseDead.
  revert Hg Hd.
  generalize (graph (scanHeader A L Header HeaderInsert g)).
  induction (DeadPHIs (scanHeader A L Header HeaderInsert g))
    as [|d D IH]; simpl; intros g1 Hg Hd; [assumption|].
  apply IH; [|tauto].
  unfold removeInst. apply block_mapInsts; [|assumption].
  intros l Hl. apply filter_In. split; [assumption|].
  unfold hasId. apply negb_true_iff. apply Nat.eqb_neq.
  intros E. apply Hd. now left.
Qed.

Lemma rewrite_keeps_other_instructions_witness :
  exists B,
    In B (eraseDead (scanHeader (Examples.rewriter [(1, 0)])
                                Examples.loopSimple Examples.headerDerived
                                Examples.storeJ Examples.gDerived))
    /\ bid B = 1
    /\ In (mkInst 13 ICmp Examples.i32 [VInst 12; VOther 1]) (insts B).
Proof.
  apply (@rewrite_keeps_other_instructions
           (Examples.rewriter [(1, 0)]) Examples.loopSimple
           Examples.headerDerived Examples.storeJ Examples.gDerived
           (mkInst 13 ICmp Examples.i32 [VInst 12; VOther 1]) 1).
  - intros P [<-|[<-|[]]]; split; simpl; try discriminate; reflexivity.
  - exists Examples.headerDerived. simpl. intuition.
Defined.

(** [run] on a list put together from two. *)
Lemma run_app (A : Analyses) (l1 l2 : list Loop) (g : Function) :
  snd (run A (l1 ++ l2) g) = snd (run A l2 (snd (run A l1 g))) /\
  (fst (run A (l1 ++ l2) g) = PA_none <->
   fst (run A l1 g) = PA_none
   \/ fst (run A l2 (snd (run A l1 g))) = PA_none).
Proof.
  unfold run. cbv zeta. simpl fst. simpl snd.
  rewrite fold_left_app.
  set (step := fun (acc : bool * Function) (L : Loop) =>
                 (if fst (analyzeLoopRecursively A L (snd acc))
                  then true else fst acc,
                  snd (analyzeLoopRecursively A L (snd acc)))).
  assert (G : forall l c g0,
             snd (fold_left step l (c, g0))
             = snd (fold_left step l (false, g0)) /\
             fst (fold_left step l (c, g0))
             = c || fst (fold_left step l (false, g0))).
  { induction l as [|L l IH]; simpl; intros c g0.
    - now rewrite orb_false_r.
    - destruct (IH (if fst (analyzeLoopRecursively A L g0)
                    then true else c)
                   (snd (analyzeLoopRecursively A L g0))) as [S1 F1].
      destruct (IH (if fst (analyzeLoopRecursively A L g0)
                    then true else false)
                   (snd (analyzeLoopRecursively A L g0))) as [S2 F2].
      unfold step at 2 4 6 8. simpl fst. simpl snd.
      rewrite S1, F1, S2, F2.
      split; [reflexivity|].
      destruct (fst (analyzeLoopRecursively A L g0)), c; simpl;
        try reflexivity. }
  destruct (fold_left step l1 (false, g)) as [c g1]. simpl snd.
  destruct (G l2 c g1) as [S F]. rewrite S, F.
  split; [reflexivity|].
  destruct c, (fst (fold_left step l2 (false, g1))); simpl;
    intuition discriminate.
Qed.

(** X16.  [run] visits the top-level loops in the order of the list,
    each on the graph the earlier ones left: running on a list put
    together from two is running on the first and then on the second.
    It answers "none preserved" exactly when the call on one of the
    top-level loops, made on the graph the loops before it left,
    returned true. *)
Theorem run_visits_loops_in_order (A : Analyses) (l1 l2 : list Loop)
  (g : Function) :
  snd (run A (l1 ++ l2) g) = snd (run A l2 (snd (run A l1 g))) /\
  (fst (run A (l1 ++ l2) g) = PA_none <->
   exists pre L post,
     l1 ++ l2 = pre ++ L :: post /\
     fst (analyzeLoopRecursively A L (snd (run A pre g))) = true).
Proof.
  split; [apply run_app|].
  generalize (l1 ++ l2). clear l1 l2. intros LI.
  induction LI as [|L LI IH] using rev_ind.
  - split; [discriminate|]. intros (pre & L & post & E & _).
    now destruct pre.
  - destruct (run_app A LI [L] g) as [_ F]. rewrite F, IH. clear F IH.
    assert (One : forall g1,
               fst (run A [L] g1) = PA_none <->
               fst (analyzeLoopRecursively A L g1) = true).
    { intros g1. unfold run. simpl.
      destruct (fst (analyzeLoopRecursively A L g1));
        split; intros H; try reflexivity; discriminate H. }
    rewrite One. split.
    + intros [(pre & K & post & -> & H)|H].
      * exists pre, K, (post ++ [L]). split; [|assumption].
        now rewrite <- app_assoc.
      * now exists LI, L, [].
    + intros (pre & K & post & E & H).
      destruct post as [|K' post _] using rev_ind.
      * apply app_inj_tail in E. destruct E as [-> ->]. now right.
      * rewrite app_comm_cons, app_assoc in E.
        apply app_inj_tail in E. destruct E as [-> ->].
        left. now exists pre, K, post.
Qed.

(** X17.  The output of the header scan tells what it did.  Dropping the
    output gives [scanHeader]; the lines "Found Derived IV" name the
    recorded PHI nodes, in the order of [DeadPHIs]; every line names a
    PHI node of the header, and the scan prints no more lines than the
    header has PHI nodes. *)
Theorem scan_log_names_recorded_phis (A : Analyses) (L : Loop)
  (Header : BasicBlock) (HeaderInsert : Instruction) (g : Function) :
  let r := Trace.scanHeaderLog A L Header HeaderInsert g in
  fst r = scanHeader A L Header HeaderInsert g /\
  Trace.foundPHIs (snd r) = DeadPHIs (scanHeader A L Header HeaderInsert g)
  /\ length (snd r) <= length (phis (insts Header)) /\
  (forall e, In e (snd r) ->
             exists P, In P (phis (insts Header))
                       /\ iid P = Trace.eventPHI e).
Proof.
  unfold Trace.scanHeaderLog, scanHeader.
  destruct (scanLog_inv A L HeaderInsert (preheaderInsert g L)
              (phis (insts Header)) (mkState g [] false, []))
    as (F & D & new & N & Len & Ev).
  simpl in *. rewrite N.
  split; [exact F|]. split; [|split; assumption].
  rewrite <- F, <- N. now apply D.
Qed.

(** X18.  Every rewrite of a scan builds the closed form.  When the
    visit of a header PHI node [PN] reaches line 135, whichever PHI
    nodes the scan has rewritten before, the product of the canonical
    counter and the step and then the sum of the start and the product
    are linked in front of the instruction found at line 56, behind the
    PHI nodes of the header and behind what earlier rewrites put there,
    and no instruction reads [PN] any more.  When the counter and [PN]
    have the same integer type, the sum has, in an iteration in which
    the counter holds [n], the value of the recurrence in iteration
    [n]: what [PN], with [PN_0 = start] and [PN_next = PN + step],
    held.  The instructions of the header have distinct identities, the
    terminator of the preheader is none of them, and the expander hands
    back no PHI node of the header. *)
Theorem closed_form_at_every_rewrite (A : Analyses) (L : Loop)
  (Header : BasicBlock) (HeaderInsert : Instruction) (g : Function) :
  findBlock g (getHeader L) = Some Header ->
  getFirstNonPHI Header = Some HeaderInsert ->
  NoDup (map iid (insts Header)) ->
  (forall posI, preheaderInsert g L = Some posI ->
                ~ In (iid posI) (map iid (insts Header))) ->
  (forall g' S t pos new v,
      incl (idsOf g) (idsOf g') ->
      expandCodeFor A g' S t pos = Some (new, v) ->
      forall P, In P (phis (insts Header)) -> v <> VInst (iid P)) ->
  forall l1 PN l2 BasicIV StartVal StepVal g1,
    phis (insts Header) = l1 ++ PN :: l2 ->
    let stk := fold_left (visitPHI A L HeaderInsert (preheaderInsert g L))
                         l1 (mkState g [] false) in
    let stk' := visitPHI A L HeaderInsert (preheaderInsert g L) stk PN in
    reachesRewrite A L (preheaderInsert g L) stk PN BasicIV StartVal
                   StepVal g1 ->
    exists mulId addId pre HI' post,
      let Mul_ := mkInst mulId Mul (ty BasicIV)
                         [VInst (iid BasicIV); StepVal] in
      let NewVal := mkInst addId Add (ty PN) [StartVal; VInst mulId] in
      graph stk'
      = replaceAllUsesWith (iid PN) (VInst addId)
          (insertInstBefore (iid HeaderInsert) NewVal
             (insertInstBefore (iid HeaderInsert) Mul_ g1)) /\
      findBlock (graph stk') (getHeader L)
      = Some (mkBB (getHeader L)
                   (map (redirect (iid PN) (VInst addId))
                        (pre ++ Mul_ :: NewVal :: HI' :: post))) /\
      iid HI' = iid HeaderInsert /\
      (forall P, In P (phis (insts Header)) -> In (iid P) (map iid pre)) /\
      noUse (iid PN) (graph stk') /\
      forall w,
        ty PN = IntegerTy w -> ty BasicIV = IntegerTy w ->
        forall fuel rho n s t,
          evalValue w fuel (graph stk') rho StartVal = Some s ->
          evalValue w fuel (graph stk') rho StepVal = Some t ->
          evalValue w fuel (graph stk') rho (VInst (iid BasicIV))
          = Some (wrap w (Z.of_nat n)) ->
          evalValue w (S (S fuel)) (graph stk') rho (VInst addId)
          = Some (phiStream w s t n).
Proof.
  intros HB Hfirst Hnd Hpos Hexp l1 PN l2 BasicIV StartVal StepVal g1
         Hsplit stk stk' HR.
  assert (HPN : In PN (phis (insts Header))).
  { rewrite Hsplit. apply in_or_app. right. now left. }
  assert (Hpos_in : forall posI, preheaderInsert g L = Some posI ->
                                 In (iid posI) (idsOf g)).
  { intros posI. unfold preheaderInsert.
    destruct (getLoopPreheader L) as [ph|]; [|discriminate].
    destruct (findBlock g ph) as [PH|] eqn:EPH; [|discriminate].
    intros HT. apply getTerminator_In in HT. apply in_map.
    apply in_allInsts. exists PH. split; [|assumption].
    now apply findBlock_Some in EPH. }
  destruct (@scan_prefix_shape A L Header HeaderInsert
              (preheaderInsert g L) g HB Hfirst Hnd Hpos_in Hpos l1)
    as (Hids & pre & HI' & post & HBk & EHI & Hnot & Hphis & Hout).
  fold stk in Hids, HBk.
  pose proof (reachesRewrite_not_counter HR) as Hbasic.
  pose proof (visitPHI_rewrites HeaderInsert HR) as Hst'.
  fold stk' in Hst'.
  destruct HR as (Hint & start & step & HS & HC & Hsafe & Heq & HRes).
  assert (H1 : findBlock g1 (getHeader L)
               = Some (mkBB (getHeader L) (pre ++ HI' :: post)) /\
               incl (idsOf (graph stk)) (idsOf g1)).
  { eapply resolveStartStep_shape; eauto. }
  destruct H1 as [HB1 Hi1].
  assert (HPNin : In (iid PN) (idsOf g1)).
  { specialize (Hphis PN HPN). apply in_map_iff in Hphis.
    destruct Hphis as (J & EJ & HJ). rewrite <- EJ. apply in_map.
    apply in_allInsts. destruct (findBlock_Some _ _ HB1) as [HBin _].
    eexists. split; [exact HBin|]. simpl. apply in_or_app. now left. }
  assert (Hv : StartVal <> VInst (iid PN) /\ StepVal <> VInst (iid PN)).
  { eapply (@resolveStartStep_values A g); [exact Hids | | exact HRes].
    intros g' S t' pos new v Hg' E.
    exact (Hexp g' S t' pos new v Hg' E PN HPN). }
  destruct Hv as [Hs Ht].
  destruct (@rewrite_shape HeaderInsert BasicIV PN HI' StartVal StepVal
              (DeadPHIs stk) g1 (getHeader L) pre post
              HB1 EHI Hnot HPNin Hbasic Hs Ht) as (Hblk & HfN & HfM).
  rewrite <- Hst' in Hblk, HfN, HfM. simpl iid in HfN, HfM.
  exists (freshId g1),
         (freshId (insertInstBefore (iid HeaderInsert)
                     (mkInst (freshId g1) Mul (ty BasicIV)
                             [VInst (iid BasicIV); StepVal]) g1)),
         pre, HI', post.
  cbv zeta.
  split; [now rewrite Hst'|]. split; [exact Hblk|].
  split; [exact EHI|]. split; [exact Hphis|]. split.
  - rewrite Hst'.
    apply (@rewrite_noUse HeaderInsert BasicIV PN StartVal StepVal [] g1).
    + assumption.
    + intros d [].
    + intros d [<-|[]]. auto.
    + simpl. auto.
  - intros w HtyP HtyB fuel rho n s t Hvs Hvt Hn.
    rewrite <- closed_form_stream.
    eapply evalValue_binary;
      [exact HfN | exact HtyP | reflexivity | reflexivity | |].
    + now apply evalValue_mono.
    + eapply evalValue_binary;
        [exact HfM | exact HtyB | reflexivity | reflexivity
         | exact Hn | exact Hvt ].
Qed.

Lemma closed_form_at_every_rewrite_witness :
  let A := Examples.rewriterMixed in
  let L := Examples.loopSimple in
  let g := Examples.gMixedStart in
  let HeaderInsert := Examples.storeJ in
  let PN := Examples.phiN in
  let BasicIV := Examples.phiI in
  let StartVal := VInst 103 in
  let StepVal := VConstInt 5 in
  let stk := fold_left (visitPHI A L HeaderInsert (preheaderInsert g L))
                       [Examples.phiI; Examples.phiJ]
                       (mkState g [] false) in
  let g1 := insertAllBefore 100
              [mkInst 103 Add Examples.i32 [VOther 3; VConstInt 0]]
              (graph stk) in
  let stk' := visitPHI A L HeaderInsert (preheaderInsert g L) stk PN in
  exists mulId addId pre HI' post,
    let Mul_ := mkInst mulId Mul (ty BasicIV)
                       [VInst (iid BasicIV); StepVal] in
    let NewVal := mkInst addId Add (ty PN) [StartVal; VInst mulId] in
    graph stk'
    = replaceAllUsesWith (iid PN) (VInst addId)
        (insertInstBefore (iid HeaderInsert) NewVal
           (insertInstBefore (iid HeaderInsert) Mul_ g1)) /\
    findBlock (graph stk') (getHeader L)
    = Some (mkBB (getHeader L)
                 (map (redirect (iid PN) (VInst addId))
                      (pre ++ Mul_ :: NewVal :: HI' :: post))) /\
    iid HI' = iid HeaderInsert /\
    (forall P, In P (phis (insts Examples.headerMixedStart)) ->
               In (iid P) (map iid pre)) /\
    noUse (iid PN) (graph stk') /\
    forall w,
      ty PN = IntegerTy w -> ty BasicIV = IntegerTy w ->
      forall fuel rho n s t,
        evalValue w fuel (graph stk') rho StartVal = Some s ->
        evalValue w fuel (graph stk') rho StepVal = Some t ->
        evalValue w fuel (graph stk') rho (VInst (iid BasicIV))
        = Some (wrap w (Z.of_nat n)) ->
        evalValue w (S (S fuel)) (graph stk') rho (VInst addId)
        = Some (phiStream w s t n).
Proof.
  apply (@closed_form_at_every_rewrite
           Examples.rewriterMixed Examples.loopSimple
           Examples.headerMixedStart Examples.storeJ Examples.gMixedStart)
    with (l1 := [Examples.phiI; Examples.phiJ]) (l2 := []).
  - reflexivity.
  - reflexivity.
  - apply nodupb_sound. reflexivity.
  - intros posI H. vm_compute in H. injection H as <-.
    simpl. intuition discriminate.
  - intros g' S t pos new v Hincl H P HP. simpl in H.
    destruct S as [z|l s s' f|n]; try discriminate.
    injection H as _ <-.
    assert (Hin : In (iid P) (idsOf Examples.gMixedStart)).
    { simpl in HP. destruct HP as [<-|[<-|[<-|[]]]]; simpl; auto. }
    apply Hincl, freshId_gt in Hin. intros E. injection E as E. lia.
  - reflexivity.
  - split; [reflexivity|].
    exists (SCEVUnknown 3), (SCEVConstant 5).
    split; [reflexivity|]. split; [reflexivity|].
    split; [reflexivity|]. split; reflexivity.
Defined.

(** The loop with two recurrences, run: [j] becomes instruction 102 and
    [k] instruction 104, both in front of the store found at line 56;
    in the iteration in which [i] holds [n] they have the values of [j]
    and of [k]. *)
Example two_derived_ivs_rewritten :
  let A := Examples.rewriter [(1, 0)] in
  exists g',
    run A [Examples.loopSimple] Examples.gTwoDerived = (PA_none, g') /\
    findBlock g' 1
    = Some (mkBB 1
              [ Examples.phiI;
                mkInst 101 Mul Examples.i32 [VInst 1; VConstInt 5];
                mkInst 102 Add Examples.i32 [VConstInt 10; VInst 101];
                mkInst 103 Mul Examples.i32 [VInst 1; VConstInt 3];
                mkInst 104 Add Examples.i32 [VConstInt 7; VInst 103];
                mkInst 10 Store OtherTy [VInst 102; VOther 0];
                mkInst 16 Store OtherTy [VInst 104; VOther 4];
                mkInst 11 Add Examples.i32 [VInst 102; VConstInt 5];
                mkInst 15 Add Examples.i32 [VInst 104; VConstInt 3];
                mkInst 12 Add Examples.i32 [VInst 1; VConstInt 1];
                mkInst 13 ICmp Examples.i32 [VInst 12; VOther 1];
                mkInst 14 Br OtherTy [VInst 13] ]) /\
    forall n rho,
      rho (VInst 1) = Z.of_nat n ->
      evalValue 32 2 g' rho (VInst 102) = Some (phiStream 32 10 5 n) /\
      evalValue 32 2 g' rho (VInst 104) = Some (phiStream 32 7 3 n).
Proof.
  eexists. split; [vm_compute; reflexivity|]. split; [reflexivity|].
  intros n rho Hn. rewrite <- !closed_form_stream.
  cbn [evalValue]. unfold findInst. cbn [allInsts flat_map insts app find
    hasId iid Nat.eqb opcode operands ty Examples.i32 Ty_eqb negb].
  rewrite Hn.
  change (wrap 32 10) with 10%Z. change (wrap 32 5) with 5%Z.
  change (wrap 32 7) with 7%Z. change (wrap 32 3) with 3%Z.
  split; reflexivity.
Qed.

End DIVExtras.
